(** * kiss-translator-obsidian: the translation session and the cloud registry

    A shallow embedding of [src/translator.ts] (class [TranslationSession])
    and [src/cloud.ts] ([fetchRegistry], [normalizeMeta]), with the
    properties the specification states about them.

    Conventions.
    - A JavaScript string is the list of its UTF-16 code units, so that
      [length] is the [.length] of the source.
    - A JavaScript value coming out of [JSON.parse] is a [jsval].
    - The rendered tree is an inductive tree whose elements carry a
      reference ([ref]); the session keeps references, as the source keeps
      [HTMLElement] objects.
    - Code that throws or awaits is written in a state-and-error monad:
      a computation takes the state and returns the state it leaves
      behind together with a value or the error thrown. *)

From Stdlib Require Import List ZArith NArith Bool Ascii String Lia.
From stdpp Require Import base option list gmap.
Import ListNotations.

Set Warnings "-register-all".
Local Open Scope list_scope.

(** * JavaScript strings and values *)

Module JS.

(** A string is its sequence of UTF-16 code units. *)
Definition jsstring : Type := list N.

(** [lit "abc"] is the string literal of the source; the literals the code
    uses are ASCII. *)
Definition lit (s : string) : jsstring :=
  map N_of_ascii (list_ascii_of_string s).

Definition str_eqb (a b : jsstring) : bool := bool_decide (a = b).

(** A string is falsy exactly when it is empty. *)
Definition str_truthy (s : jsstring) : bool :=
  match s with [] => false | _ :: _ => true end.

(** The code units matched by [\s] in a regular expression and stripped by
    [String.prototype.trim]: WhiteSpace and LineTerminator of ECMAScript. *)
Definition is_space (c : N) : bool :=
  ((9 <=? c) && (c <=? 13) ||
   (c =? 32) || (c =? 160) || (c =? 5760) ||
   (8192 <=? c) && (c <=? 8202) ||
   (c =? 8232) || (c =? 8233) || (c =? 8239) || (c =? 8287) ||
   (c =? 12288) || (c =? 65279))%N.

Definition SPACE : N := 32%N.

Fixpoint trimStart (s : jsstring) : jsstring :=
  match s with
  | [] => []
  | c :: r => if is_space c then trimStart r else s
  end.

Definition trimEnd (s : jsstring) : jsstring := rev (trimStart (rev s)).

(** [s.trim()] *)
Definition trim (s : jsstring) : jsstring := trimEnd (trimStart s).

(** [s.replace(/\s+/g, " ")]: every maximal run of white space becomes one
    space. [in_run] tells that the previous code unit was white space. *)
Fixpoint collapse_spaces (in_run : bool) (s : jsstring) : jsstring :=
  match s with
  | [] => []
  | c :: r =>
      if is_space c
      then (if in_run then collapse_spaces true r
            else SPACE :: collapse_spaces true r)
      else c :: collapse_spaces false r
  end.

(** Does [p] start [s]? *)
Fixpoint starts_with (p s : jsstring) : bool :=
  match p, s with
  | [], _ => true
  | _ :: _, [] => false
  | a :: p', b :: s' => (a =? b)%N && starts_with p' s'
  end.

(** A value as [JSON.parse] and property reads produce it. A number is held
    by its canonical rendering [String(n)] (so [-0] is held as ["0"]); the
    code only tests numbers for truthiness and passes them on. *)
Inductive jsval : Type :=
| VUndefined
| VNull
| VBool (b : bool)
| VNum (shown : jsstring)
| VStr (s : jsstring)
| VArr (items : list jsval)
| VObj (fields : list (jsstring * jsval)).

(** ToBoolean. *)
Definition truthy (v : jsval) : bool :=
  match v with
  | VUndefined | VNull => false
  | VBool b => b
  | VNum n => negb (str_eqb n (lit "0")) && negb (str_eqb n (lit "NaN"))
  | VStr s => str_truthy s
  | VArr _ | VObj _ => true
  end.

(** [a || b] *)
Definition js_or (a b : jsval) : jsval := if truthy a then a else b.

Fixpoint assoc (k : jsstring) (fields : list (jsstring * jsval)) : jsval :=
  match fields with
  | [] => VUndefined
  | (k', v) :: rest => if str_eqb k k' then v else assoc k rest
  end.

(** [v?.name] for a property name that is not an index and not inherited:
    only an object has it; on [null] and [undefined] the optional chain
    yields [undefined]. *)
Definition prop (v : jsval) (name : string) : jsval :=
  match v with
  | VObj fields => assoc (lit name) fields
  | _ => VUndefined
  end.

(** [v?.[0]] *)
Definition index0 (v : jsval) : jsval :=
  match v with
  | VArr (x :: _) => x
  | VStr (c :: _) => VStr [c]
  | VObj fields => assoc (lit "0") fields
  | _ => VUndefined
  end.

(** [Array.isArray(v) ? v : otherwise] as a list of items. *)
Definition as_array (v : jsval) : option (list jsval) :=
  match v with VArr items => Some items | _ => None end.

(** Decimal rendering of an array index. *)
Definition digit (n : nat) : N := (48 + N.of_nat n)%N.

Fixpoint nat_digits (fuel n : nat) (acc : jsstring) : jsstring :=
  match fuel with
  | O => acc
  | S fuel' =>
      let acc' := digit (n mod 10) :: acc in
      if (n <? 10)%nat then acc' else nat_digits fuel' (n / 10) acc'
  end.

Definition nat_to_string (n : nat) : jsstring := nat_digits (S n) n [].

(** [String(v)]. An array joins its items with a comma, [null] and
    [undefined] items rendering as nothing; an object renders as
    [[object Object]]. The objects are the plain data [JSON.parse] builds
    from a registry or a backend answer, taken to have no member named
    [toString] or [valueOf] of their own. *)
Fixpoint ToString (v : jsval) : jsstring :=
  match v with
  | VUndefined => lit "undefined"
  | VNull => lit "null"
  | VBool true => lit "true"
  | VBool false => lit "false"
  | VNum shown => shown
  | VStr s => s
  | VArr items =>
      (fix join (l : list jsval) : jsstring :=
         match l with
         | [] => []
         | x :: rest =>
             let here :=
               match x with
               | VUndefined | VNull => []
               | _ => ToString x
               end in
             match rest with
             | [] => here
             | _ :: _ => here ++ lit "," ++ join rest
             end
         end) items
  | VObj _ => lit "[object Object]"
  end.

(** A text in which white space occurs only as single [SPACE]s, each
    after a code unit that is not white space; [after_space] tells that
    the code unit before was white space, or that the text starts here. *)
Fixpoint single_spaced (after_space : bool) (s : jsstring) : bool :=
  match s with
  | [] => true
  | c :: r =>
      if is_space c then (c =? SPACE)%N && negb after_space && single_spaced true r
      else single_spaced false r
  end.

End JS.

(** * Computations with state and exceptions *)

Module Eff.

(** What a call leaves behind: the value returned or the error thrown. *)
Inductive outcome (E A : Type) : Type :=
| Returned (a : A)
| Thrown (e : E).
Arguments Returned {E A} a.
Arguments Thrown {E A} e.

(** A computation over a state [S] that may throw an [E]. The state after
    a throw is kept: what was mutated before the throw stays mutated. *)
Definition M (S E A : Type) : Type := S -> outcome E A * S.

Section Ops.
Context {S E : Type}.

Definition ret {A} (a : A) : M S E A := fun s => (Returned a, s).

Definition bind {A B} (c : M S E A) (k : A -> M S E B) : M S E B :=
  fun s =>
    match c s with
    | (Returned a, s') => k a s'
    | (Thrown e, s') => (Thrown e, s')
    end.

Definition throw {A} (e : E) : M S E A := fun s => (Thrown e, s).

Definition get : M S E S := fun s => (Returned s, s).

Definition gets {A} (f : S -> A) : M S E A := fun s => (Returned (f s), s).

Definition modify (f : S -> S) : M S E unit := fun s => (Returned tt, f s).

(** [for (const x of l) { await f(x); }] *)
Fixpoint for_each {A} (f : A -> M S E unit) (l : list A) : M S E unit :=
  match l with
  | [] => ret tt
  | x :: rest => bind (f x) (fun _ => for_each f rest)
  end.
End Ops.

End Eff.

Declare Scope eff_scope.
Delimit Scope eff_scope with eff.
Notation "x <- c ;; k" := (Eff.bind c (fun x => k))
  (at level 100, c at next level, right associativity) : eff_scope.
Notation "c ;;; k" := (Eff.bind c (fun _ => k))
  (at level 100, right associativity) : eff_scope.

(** * The cloud dictionary registry ([src/cloud.ts]) *)

Module Cloud.
Import JS Eff.
Local Open Scope eff_scope.

(** [interface CloudDictMeta]. The optional fields are [None] when the
    source leaves them [undefined]; [votes] is passed through as read. *)
Record CloudDictMeta : Type := {
  meta_id : jsstring;
  meta_scope : jsstring;
  meta_name : option jsstring;
  meta_description : option jsstring;
  meta_downloadUrl : jsstring;
  meta_updatedAt : option jsstring;
  meta_entryCount : option jsstring;
  meta_version : option jsstring;
  meta_votes : jsval;
  meta_size : option jsstring
}.

(** What [requestUrl] is called with. *)
Record UrlRequest : Type := { req_url : jsstring; req_method : jsstring }.

(** What [requestUrl] answers: the promise rejects, or it resolves to a
    response with a status and a body; [res.json] throws when the body is
    not JSON ([None]). *)
Inductive UrlResult : Type :=
| UrlRejected
| UrlResponse (status : Z) (json : option jsval).

(** What a call may throw: [requestUrl] rejects; the body is not JSON;
    the status is not 2xx. *)
Inductive Error : Type :=
| RequestRejected
| JsonUnreadable
| RegistryStatus (status : Z).

Section Host.
(** The host: the answer to a request, given the requests issued so
    far; and [Number(v)], rendered as the number it yields. *)
Variable requestUrl : list UrlRequest -> UrlRequest -> UrlResult.
Variable ToNumber : jsval -> jsstring.

(** The state of a call is the list of requests issued so far. *)
Definition Call (A : Type) : Type := M (list UrlRequest) Error A.

(** [await requestUrl({ url, method })], the request recorded. *)
Definition issue (r : UrlRequest) : Call (Z * option jsval) :=
  fun log =>
    match requestUrl log r with
    | UrlRejected => (Thrown RequestRejected, log ++ [r])
    | UrlResponse status json => (Returned (status, json), log ++ [r])
    end.

(** [c ? f(v) : undefined] *)
Definition when_truthy {A} (c : jsval) (f : jsval -> A) : option A :=
  if truthy c then Some (f c) else None.

(** [function normalizeMeta(raw, idx)]; [None] is [null]. *)
Definition normalizeMeta (raw : jsval) (idx : nat) : option CloudDictMeta :=
  let scope :=
    trim (ToString (js_or (js_or (prop raw "scope") (prop raw "id")) (VStr []))) in
  let downloadUrl :=
    trim (ToString (js_or (js_or (prop raw "downloadUrl") (prop raw "url")) (VStr []))) in
  if negb (str_truthy scope) || negb (str_truthy downloadUrl) then None
  else Some {|
    meta_id :=
      ToString (js_or (js_or (prop raw "id") (VStr scope)) (VNum (nat_to_string idx)));
    meta_scope := scope;
    meta_name := Some (ToString (js_or (prop raw "name") (VStr scope)));
    meta_description := when_truthy (prop raw "description") ToString;
    meta_downloadUrl := downloadUrl;
    meta_updatedAt := when_truthy (prop raw "updatedAt") ToNumber;
    meta_entryCount := when_truthy (prop raw "entryCount") ToNumber;
    meta_version := when_truthy (prop raw "version") ToNumber;
    meta_votes := prop raw "votes";
    meta_size := when_truthy (prop raw "size") ToNumber
  |}.

(** [Array.isArray(data?.dictionaries) ? data.dictionaries
     : Array.isArray(data) ? data : []] *)
Definition registry_items (data : jsval) : list jsval :=
  match as_array (prop data "dictionaries") with
  | Some items => items
  | None =>
      match as_array data with
      | Some items => items
      | None => []
      end
  end.

(** [items.map((raw, idx) => normalizeMeta(raw, idx)).filter((x) => !!x)] *)
Fixpoint normalize_from (idx : nat) (items : list jsval) : list CloudDictMeta :=
  match items with
  | [] => []
  | raw :: rest =>
      match normalizeMeta raw idx with
      | Some m => m :: normalize_from (S idx) rest
      | None => normalize_from (S idx) rest
      end
  end.

(** [export async function fetchRegistry(url)] *)
Definition fetchRegistry (url : jsstring) : Call (list CloudDictMeta) :=
  if negb (str_truthy url) then ret []
  else
    res <- issue {| req_url := url; req_method := lit "GET" |} ;;
    let '(status, json) := res in
    if ((status <? 200) || (300 <=? status))%Z then throw (RegistryStatus status)
    else
      match json with
      | None => throw JsonUnreadable
      | Some data => ret (normalize_from 0 (registry_items data))
      end.

(** [interface DictFile], as [fetchCloudDict] builds it: the version and
    the scope as read from the file or defaulted, and the entries as the
    file holds them. *)
Record DictFile : Type := {
  dict_version : jsval;
  dict_scope : jsval;
  dict_entries : list jsval
}.

(** What [fetchCloudDict] may throw: the entry has no download address;
    [requestUrl] rejects; the status is not 2xx; the body is not JSON; the
    body is not a dictionary file. *)
Inductive DictError : Type :=
| MissingDownloadUrl
| DownloadRejected
| DownloadStatus (status : Z)
| DictUnreadable
| DictMalformed.

Definition Download (A : Type) : Type := M (list UrlRequest) DictError A.

(** [await requestUrl({ url, method })] within [fetchCloudDict]. *)
Definition download (r : UrlRequest) : Download (Z * option jsval) :=
  fun log =>
    match requestUrl log r with
    | UrlRejected => (Thrown DownloadRejected, log ++ [r])
    | UrlResponse status json => (Returned (status, json), log ++ [r])
    end.

(** [a ?? b] *)
Definition js_nullish (a b : jsval) : jsval :=
  match a with
  | VUndefined | VNull => b
  | _ => a
  end.

(** [typeof v === "object"] on a value read from JSON. *)
Definition typeof_object (v : jsval) : bool :=
  match v with
  | VNull | VArr _ | VObj _ => true
  | _ => false
  end.

(** [export async function fetchCloudDict(meta)]. On an array,
    [data.entries] is the inherited method, which is no array either, so
    the read through [prop] decides the test the same way. *)
Definition fetchCloudDict (meta : CloudDictMeta) : Download DictFile :=
  if negb (str_truthy (meta_downloadUrl meta)) then throw MissingDownloadUrl
  else
    res <- download {| req_url := meta_downloadUrl meta; req_method := lit "GET" |} ;;
    let '(status, json) := res in
    if ((status <? 200) || (300 <=? status))%Z then throw (DownloadStatus status)
    else
      match json with
      | None => throw DictUnreadable
      | Some data =>
          if negb (truthy data) || negb (typeof_object data)
             || negb (bool_decide (is_Some (as_array (prop data "entries"))))
          then throw DictMalformed
          else
            ret {| dict_version := js_nullish (prop data "version") (VNum (lit "1"));
                   dict_scope := js_nullish (prop data "scope") (VStr (meta_scope meta));
                   dict_entries :=
                     match as_array (prop data "entries") with
                     | Some entries => entries
                     | None => []
                     end |}
      end.

End Host.
End Cloud.

(** * The rendered tree *)

Module Dom.
Import JS.

(** The identity of an element object. *)
Definition ref : Type := nat.

(** A node of the rendered tree: a text node, or an element with its
    reference, its tag name in lower case, its class list and its child
    nodes in document order. *)
Inductive node : Type :=
| Text (data : jsstring)
| Elem (r : ref) (tag : jsstring) (classes : list jsstring) (kids : list node).

Definition is_element (n : node) : bool :=
  match n with Elem _ _ _ _ => true | Text _ => false end.

Definition ref_of (n : node) : option ref :=
  match n with Elem r _ _ _ => Some r | Text _ => None end.

Definition has_ref (r : ref) (n : node) : bool :=
  match n with Elem r' _ _ _ => Nat.eqb r' r | Text _ => false end.

Definition tagName (n : node) : jsstring :=
  match n with Elem _ t _ _ => t | Text _ => [] end.

Definition classList (n : node) : list jsstring :=
  match n with Elem _ _ c _ => c | Text _ => [] end.

Definition childNodes (n : node) : list node :=
  match n with Elem _ _ _ ks => ks | Text _ => [] end.

(** [el.children]: the child nodes that are elements. *)
Definition children (n : node) : list node := List.filter is_element (childNodes n).

(** [el.classList.contains(c)] *)
Definition has_class (c : jsstring) (n : node) : bool :=
  existsb (str_eqb c) (classList n).

(** [el.innerText]: the text the element renders. The tree holds the text
    as rendered, so this is the text of the text nodes below the element,
    in document order. *)
Fixpoint innerText (n : node) : jsstring :=
  match n with
  | Text data => data
  | Elem _ _ _ kids => flat_map innerText kids
  end.

(** An element met while walking the tree: the chain of its ancestors,
    nearest first, and the element itself. *)
Definition located : Type := list node * node.

Definition loc_node (c : located) : node := snd c.
Definition loc_ancestors (c : located) : list node := fst c.
Definition loc_ref (c : located) : option ref := ref_of (loc_node c).

(** The elements strictly below [n], in document order (pre-order), each
    with its ancestors; [anc] are the ancestors of [n]. *)
Fixpoint descendants (anc : list node) (n : node) : list located :=
  match n with
  | Text _ => []
  | Elem _ _ _ kids =>
      flat_map
        (fun k =>
           match k with
           | Text _ => []
           | Elem _ _ _ _ => (n :: anc, k) :: descendants (n :: anc) k
           end)
        kids
  end.

(** The element itself and the elements below it, in document order. *)
Definition self_and_descendants (anc : list node) (n : node) : list located :=
  match n with
  | Text _ => []
  | Elem _ _ _ _ => (anc, n) :: descendants anc n
  end.

(** The references carried by the elements at and below [n], in document
    order. *)
Fixpoint refs (n : node) : list ref :=
  match n with
  | Text _ => []
  | Elem r _ _ kids => r :: flat_map refs kids
  end.

(** The elements at and below [n], in document order, each as its
    reference with its class list. *)
Fixpoint class_lists (n : node) : list (ref * list jsstring) :=
  match n with
  | Text _ => []
  | Elem r _ c kids => (r, c) :: flat_map class_lists kids
  end.

(** The references carried strictly below [n]. *)
Definition strict_refs (n : node) : list ref := flat_map refs (childNodes n).

(** The first [Some] that [f] yields along a list. *)
Definition first_some {A B : Type} (f : A -> option B) : list A -> option B :=
  fix go (l : list A) : option B :=
    match l with
    | [] => None
    | x :: rest =>
        match f x with
        | Some y => Some y
        | None => go rest
        end
    end.

(** The element a reference stands for, where it sits below (or at) [n]:
    the first one in document order that carries the reference. *)
Fixpoint locate_in (anc : list node) (r : ref) (n : node) : option located :=
  match n with
  | Text _ => None
  | Elem r' _ _ kids =>
      if Nat.eqb r' r then Some (anc, n)
      else first_some (locate_in (n :: anc) r) kids
  end.

Definition locate (r : ref) (doc : node) : option located := locate_in [] r doc.

(** The element a reference stands for, with what is below it. *)
Definition subtree (r : ref) (doc : node) : option node :=
  option_map loc_node (locate r doc).

(** The element itself and then its ancestors, nearest first, each with
    its own ancestors: the order in which [closest] tests them. *)
Fixpoint chain_up (anc : list node) : list located :=
  match anc with
  | [] => []
  | a :: rest => (rest, a) :: chain_up rest
  end.

Definition self_and_ancestors (c : located) : list located :=
  c :: chain_up (loc_ancestors c).

(** [parent.removeChild(el)] for the element with reference [a]. *)
Fixpoint remove_node (a : ref) (n : node) : node :=
  match n with
  | Text _ => n
  | Elem r t c kids =>
      Elem r t c (List.filter (fun k => negb (has_ref a k)) (map (remove_node a) kids))
  end.

(** [el.insertAdjacentElement("afterend", new)] for the element with
    reference [b]: [new] becomes the next sibling of [b]. An element
    without a parent (the root, or one that is not in the tree) gets no
    sibling. *)
Fixpoint insert_after (b : ref) (new : node) (n : node) : node :=
  match n with
  | Text _ => n
  | Elem r t c kids =>
      Elem r t c
        (flat_map
           (fun k => if has_ref b k then [insert_after b new k; new]
                     else [insert_after b new k])
           kids)
  end.

(** [classList.add(c)] and [classList.remove(c)] on one class list. *)
Definition class_add (c : jsstring) (l : list jsstring) : list jsstring :=
  if existsb (str_eqb c) l then l else l ++ [c].

Definition class_remove (c : jsstring) (l : list jsstring) : list jsstring :=
  List.filter (fun x => negb (str_eqb c x)) l.

(** Apply [f] to the class list of the element with reference [r]. *)
Fixpoint update_classes (f : list jsstring -> list jsstring) (r : ref) (n : node) : node :=
  match n with
  | Text _ => n
  | Elem r' t c kids =>
      Elem r' t (if Nat.eqb r' r then f c else c) (map (update_classes f r) kids)
  end.

Definition add_class (r : ref) (c : jsstring) : node -> node :=
  update_classes (class_add c) r.

Definition remove_class (r : ref) (c : jsstring) : node -> node :=
  update_classes (class_remove c) r.

End Dom.

(** * The translation session ([src/translator.ts]) *)

Module Translator.
Import JS Eff Dom.
Local Open Scope eff_scope.

Definition TRANSLATION_CLASS : jsstring := lit "kiss-translated-block".
Definition HIDE_ORIGINAL_CLASS : jsstring := lit "kiss-hide-original".

Inductive ApiType : Type := simple | openai.

(** [interface KissTranslatorSettings] *)
Record KissTranslatorSettings : Type := {
  apiType : ApiType;
  apiUrl : jsstring;
  apiKey : jsstring;
  model : jsstring;
  fromLang : jsstring;
  toLang : jsstring;
  systemPrompt : jsstring;
  userPrompt : jsstring;
  skipSelectors : list jsstring;
  hideOriginal : bool;
  autoTranslateOnOpen : bool
}.

(** One entry of [messages] in a chat request. *)
Record Message : Type := { role : jsstring; content : jsstring }.

(** The object handed to [JSON.stringify] as the request body. *)
Inductive Body : Type :=
| SimpleBody (q source target format : jsstring) (api_key : option jsstring)
| ChatBody (body_model : jsstring) (messages : list Message)
           (temperature : jsstring) (stream : bool).

(** The arguments of one [fetch]. *)
Record Request : Type := {
  req_url : jsstring;
  req_method : jsstring;
  req_content_type : jsstring;
  req_authorization : option jsstring;
  req_body : Body
}.

(** What [fetch] resolves to: a status, the body as [res.text()] reads it
    and as [res.json()] parses it ([None]: not JSON, [res.json()] throws). *)
Record Response : Type := {
  status : Z;
  body_text : jsstring;
  body_json : option jsval
}.

Inductive FetchResult : Type :=
| FetchRejected
| FetchResolved (res : Response).

(** [res.ok] *)
Definition ok (res : Response) : bool :=
  ((200 <=? status res) && (status res <=? 299))%Z.

(** What happened outside the session, in order. [BackendCalled] is the
    model's record that [translateWithOpenAI] or [translateWithSimple] was
    entered with a text; [Fetched] is a request handed to [fetch]. *)
Inductive Event : Type :=
| BackendCalled (api : ApiType) (text : jsstring)
| Fetched (req : Request).

(** The errors the session throws, one constructor per [throw] of the
    source, in the order of the source: no root; empty translation; the
    simple backend without URL, with a status that is not 2xx, with a body
    that is not JSON; the chat backend without URL, key, model or user
    prompt, with a status that is not 2xx (carrying the body), with a body
    that is not JSON; and a [fetch] that rejects. *)
Inductive Error : Type :=
| NoTarget
| EmptyTranslation
| SimpleNoUrl
| SimpleStatus (code : Z)
| SimpleParse
| ChatNoUrl
| ChatNoKey
| ChatNoModel
| ChatNoPrompt
| ChatStatus (code : Z) (msg : jsstring)
| ChatParse
| FetchFailed.

(** The errors that report a missing setting. *)
Definition is_config_error (e : Error) : bool :=
  match e with
  | SimpleNoUrl | ChatNoUrl | ChatNoKey | ChatNoModel | ChatNoPrompt => true
  | _ => false
  end.

(** The session ([view], [settings], [translated], [cache]) together with
    the world it acts on: the rendered tree, the next reference
    [document.createElement] hands out, and the events so far.
    [translated] is the [Map] from original to annotation, in insertion
    order. *)
Record State : Type := {
  view : option ref;
  settings : KissTranslatorSettings;
  translated : list (ref * ref);
  cache : gmap jsstring jsval;
  document : node;
  next_ref : ref;
  trace : list Event
}.

Definition set_settings (x : KissTranslatorSettings) (s : State) : State :=
  {| view := view s; settings := x; translated := translated s; cache := cache s;
     document := document s; next_ref := next_ref s; trace := trace s |}.

Definition set_translated (x : list (ref * ref)) (s : State) : State :=
  {| view := view s; settings := settings s; translated := x; cache := cache s;
     document := document s; next_ref := next_ref s; trace := trace s |}.

Definition set_cache (x : gmap jsstring jsval) (s : State) : State :=
  {| view := view s; settings := settings s; translated := translated s; cache := x;
     document := document s; next_ref := next_ref s; trace := trace s |}.

Definition set_document (x : node) (s : State) : State :=
  {| view := view s; settings := settings s; translated := translated s; cache := cache s;
     document := x; next_ref := next_ref s; trace := trace s |}.

Definition set_next_ref (x : ref) (s : State) : State :=
  {| view := view s; settings := settings s; translated := translated s; cache := cache s;
     document := document s; next_ref := x; trace := trace s |}.

Definition log_event (e : Event) (s : State) : State :=
  {| view := view s; settings := settings s; translated := translated s; cache := cache s;
     document := document s; next_ref := next_ref s; trace := trace s ++ [e] |}.

(** [new TranslationSession(view, settings)] in a world. *)
Definition new_session (v : option ref) (st : KissTranslatorSettings)
    (doc : node) (next : ref) (events : list Event) : State :=
  {| view := v; settings := st; translated := []; cache := ∅;
     document := doc; next_ref := next; trace := events |}.

(** [map.set(k, v)] on a [Map] kept in insertion order: an existing key
    keeps its place. *)
Fixpoint map_set (k v : ref) (m : list (ref * ref)) : list (ref * ref) :=
  match m with
  | [] => [(k, v)]
  | (k', v') :: rest =>
      if Nat.eqb k' k then (k', v) :: rest else (k', v') :: map_set k v rest
  end.

(** [map.get(k)] *)
Fixpoint map_get (k : ref) (m : list (ref * ref)) : option ref :=
  match m with
  | [] => None
  | (k', v') :: rest => if Nat.eqb k' k then Some v' else map_get k rest
  end.

Definition Op (A : Type) : Type := M State Error A.

(** [private normalizeText(text)] *)
Definition normalizeText (text : jsstring) : jsstring :=
  trim (collapse_spaces false text).

(** ** Templates *)

(** The replacement text of [String.prototype.replace] for a pattern
    without capture groups: [$$] is a dollar sign, [$&] the match, [$`]
    what precedes the match and [$'] what follows it in the string
    searched; any other code unit stands for itself. *)
Fixpoint expand_replacement (repl matched before after : jsstring) : jsstring :=
  match repl with
  | [] => []
  | c :: rest =>
      if (c =? 36)%N then
        match rest with
        | d :: rest' =>
            if (d =? 36)%N then 36%N :: expand_replacement rest' matched before after
            else if (d =? 38)%N then matched ++ expand_replacement rest' matched before after
            else if (d =? 96)%N then before ++ expand_replacement rest' matched before after
            else if (d =? 39)%N then after ++ expand_replacement rest' matched before after
            else c :: expand_replacement rest matched before after
        | [] => [c]
        end
      else c :: expand_replacement rest matched before after
  end.

(** [s.replace(/pat/g, repl)] for a literal, non-empty [pat]: the matches
    are found from left to right and do not overlap. [skip] counts the
    code units of the current match still to pass over; [before_rev] is
    the text already passed, reversed. *)
Fixpoint replace_scan (pat repl : jsstring) (skip : nat)
    (before_rev s : jsstring) : jsstring :=
  match s with
  | [] => []
  | c :: rest =>
      match skip with
      | S k => replace_scan pat repl k (c :: before_rev) rest
      | O =>
          if starts_with pat s
          then expand_replacement repl pat (rev before_rev) (skipn (length pat) s)
                 ++ replace_scan pat repl (length pat - 1) (c :: before_rev) rest
          else c :: replace_scan pat repl 0 (c :: before_rev) rest
      end
  end.

Definition replace_all (pat repl s : jsstring) : jsstring :=
  replace_scan pat repl 0 [] s.

(** [x || fallback] on strings. *)
Definition or_default (x fallback : jsstring) : jsstring :=
  if str_truthy x then x else fallback.

(** [private fillTemplate(template, text)] *)
Definition fillTemplate (st : KissTranslatorSettings) (template text : jsstring) : jsstring :=
  replace_all (lit "{to}") (or_default (toLang st) (lit "zh"))
    (replace_all (lit "{from}") (or_default (fromLang st) (lit "auto"))
       (replace_all (lit "{text}") text template)).

(** The specification's reading of [fillTemplate]: each occurrence of a
    placeholder in the template is replaced by the text, the source
    language or the target language as it is; nothing else changes.
    [skip] counts the code units of the current placeholder still to pass
    over. *)
Fixpoint instantiate (text from to : jsstring) (skip : nat) (template : jsstring)
    : jsstring :=
  match template with
  | [] => []
  | c :: rest =>
      match skip with
      | S k => instantiate text from to k rest
      | O =>
          if starts_with (lit "{text}") template
          then text ++ instantiate text from to 5 rest
          else if starts_with (lit "{from}") template
          then from ++ instantiate text from to 5 rest
          else if starts_with (lit "{to}") template
          then to ++ instantiate text from to 3 rest
          else c :: instantiate text from to 0 rest
      end
  end.

Definition fill_literally (st : KissTranslatorSettings) (template text : jsstring)
    : jsstring :=
  instantiate text (or_default (fromLang st) (lit "auto"))
    (or_default (toLang st) (lit "zh")) 0 template.

(** ** The session's methods *)

Section Host.
(** The host: what [fetch] resolves to, given the events so far;
    whether a selector string parses; and whether an element of the
    document matches a selector that parses. *)
Variable fetch : list Event -> Request -> FetchResult.
Variable selector_valid : jsstring -> bool.
Variable selector_matches : jsstring -> node -> located -> bool.

(** [updateSettings(settings)] *)
Definition updateSettings (st : KissTranslatorSettings) : Op unit :=
  modify (set_settings st).

(** [private restoreOriginalVisibility()] *)
Definition restoreOriginalVisibility : Op unit :=
  modify (fun s =>
    set_document
      (fold_left (fun doc pair => remove_class (fst pair) HIDE_ORIGINAL_CLASS doc)
                 (translated s) (document s)) s).

(** [private hideOriginal()], the method; [hideOriginal] is the setting. *)
Definition hideOriginal_ : Op unit :=
  modify (fun s =>
    set_document
      (fold_left (fun doc pair => add_class (fst pair) HIDE_ORIGINAL_CLASS doc)
                 (translated s) (document s)) s).

(** [applyOriginalVisibility()] *)
Definition applyOriginalVisibility : Op unit :=
  st <- gets settings ;;
  if hideOriginal st then hideOriginal_ else restoreOriginalVisibility.

(** [clear()] *)
Definition clear : Op unit :=
  modify (fun s =>
    set_document
      (fold_left (fun doc pair => remove_node (snd pair) doc)
                 (translated s) (document s)) s) ;;;
  modify (set_translated []) ;;;
  restoreOriginalVisibility.

(** [hasTranslations()] *)
Definition hasTranslations : Op bool :=
  gets (fun s => (0 <? length (translated s))%nat).

(** [container.querySelector(sel)]: the first element below the
    container, in document order, that satisfies [p]. *)
Definition querySelector (p : located -> bool) (container : ref) (doc : node)
    : option ref :=
  match locate container doc with
  | None => None
  | Some c =>
      match List.find p (descendants (loc_ancestors c) (loc_node c)) with
      | Some d => ref_of (loc_node d)
      | None => None
      end
  end.

Definition READING_VIEW : jsstring := lit "markdown-reading-view".
Definition PREVIEW_VIEW : jsstring := lit "markdown-preview-view".

(** [a || b] on element references that may be [null]. *)
Definition or_else (a b : option ref) : option ref :=
  match a with Some _ => a | None => b end.

(** [private findPreviewRoot()]: the preview surface of the view, else
    [document.body], which is the root of the rendered tree. *)
Definition findPreviewRoot : Op (option ref) :=
  s <- get ;;
  let doc := document s in
  let in_view :=
    match view s with
    | None => None
    | Some container =>
        or_else
          (querySelector
             (fun c => has_class PREVIEW_VIEW (loc_node c)
                       && existsb (has_class READING_VIEW) (loc_ancestors c))
             container doc)
          (or_else
             (querySelector (fun c => has_class PREVIEW_VIEW (loc_node c)) container doc)
             (querySelector (fun c => has_class READING_VIEW (loc_node c)) container doc))
    end in
  ret (or_else in_view (ref_of doc)).

(** The tag names of the selector of [collectBlocks]. *)
Definition textual_tags : list jsstring :=
  map lit ["p"; "li"; "blockquote"; "h1"; "h2"; "h3"; "h4"; "h5"; "h6";
           "td"; "th"; "pre"; "button"; "label"; "span"; "div"]%string.

Definition control_tags : list jsstring :=
  map lit ["input"; "textarea"; "select"]%string.

Definition tag_in (tags : list jsstring) (n : node) : bool :=
  existsb (str_eqb (tagName n)) tags.

(** [el.closest(sel)]: [None] when the selector does not parse (the
    call throws), else the nearest of the element and its ancestors that
    matches, if any. *)
Definition closest (sel : jsstring) (doc : node) (c : located)
    : option (option located) :=
  if selector_valid sel
  then Some (List.find (selector_matches sel doc) (self_and_ancestors c))
  else None.

(** [private isInSkipArea(el)] *)
Definition isInSkipArea (st : KissTranslatorSettings) (doc : node) (c : located) : bool :=
  existsb
    (fun sel =>
       str_truthy sel &&
       match closest sel doc c with
       | Some (Some _) => true
       | Some None => false
       | None => false
       end)
    (skipSelectors st).

(** The filter of [collectBlocks], test by test; [true] keeps the
    element. *)
Definition keeps (st : KissTranslatorSettings) (doc : node) (c : located) : bool :=
  let el := loc_node c in
  if isInSkipArea st doc c then false
  else if has_class TRANSLATION_CLASS el then false
  else if existsb (has_class TRANSLATION_CLASS) (map loc_node (self_and_ancestors c))
    then false
  else if existsb (fun d => tag_in control_tags (loc_node d))
                  (descendants (loc_ancestors c) el) then false
  else if (0 <? length (children el))%nat then false
  else
    let text := normalizeText (innerText el) in
    if negb (str_truthy text) then false
    else if (length text <? 2)%nat then false
    else if (160 <? length text)%nat then false
    else true.

(** [root.querySelectorAll(selector)] for the selector of
    [collectBlocks]: the elements below the root with a textual tag. *)
Definition candidates (doc : node) (root : ref) : list located :=
  match locate root doc with
  | None => []
  | Some c =>
      List.filter (fun d => tag_in textual_tags (loc_node d))
                  (descendants (loc_ancestors c) (loc_node c))
  end.

(** The elements [collectBlocks] keeps, where they sit. *)
Definition selected (st : KissTranslatorSettings) (doc : node) (root : ref)
    : list located :=
  List.filter (keeps st doc) (candidates doc root).

(** [private collectBlocks(root)] *)
Definition collectBlocks (root : ref) : Op (list ref) :=
  s <- get ;;
  ret (omap loc_ref (selected (settings s) (document s) root)).

(** [await fetch(url, init)] *)
Definition do_fetch (req : Request) : Op Response :=
  fun s =>
    match fetch (trace s) req with
    | FetchRejected => (Thrown FetchFailed, log_event (Fetched req) s)
    | FetchResolved res => (Returned res, log_event (Fetched req) s)
    end.

(** The request of [translateWithSimple]: [payload] and the [fetch]
    arguments. *)
Definition simple_request (st : KissTranslatorSettings) (text : jsstring) : Request :=
  {| req_url := apiUrl st;
     req_method := lit "POST";
     req_content_type := lit "application/json";
     req_authorization := None;
     req_body :=
       SimpleBody text (or_default (fromLang st) (lit "auto"))
                  (or_default (toLang st) (lit "zh")) (lit "text")
                  (if str_truthy (apiKey st) then Some (apiKey st) else None) |}.

(** [private async translateWithSimple(text)] *)
Definition translateWithSimple (text : jsstring) : Op jsval :=
  st <- gets settings ;;
  if negb (str_truthy (apiUrl st)) then throw SimpleNoUrl
  else
    res <- do_fetch (simple_request st text) ;;
    if negb (ok res) then throw (SimpleStatus (status res))
    else
      match body_json res with
      | None => throw SimpleParse
      | Some data =>
          match prop data "translatedText" with
          | VStr t => ret (VStr t)
          | _ =>
              match data with
              | VArr _ =>
                  if truthy (prop (index0 data) "translatedText")
                  then ret (prop (index0 data) "translatedText")
                  else ret (VStr [])
              | _ => ret (VStr [])
              end
          end
      end.

(** [messages] of [translateWithOpenAI]: the system message when the
    system prompt is not blank, then the user message. *)
Definition chat_messages (st : KissTranslatorSettings) (text : jsstring)
    : list Message :=
  (if str_truthy (trim (systemPrompt st))
   then [{| role := lit "system"; content := fillTemplate st (systemPrompt st) text |}]
   else [])
  ++ [{| role := lit "user"; content := fillTemplate st (userPrompt st) text |}].

(** The request of [translateWithOpenAI]: [body] and the [fetch]
    arguments. *)
Definition chat_request (st : KissTranslatorSettings) (text : jsstring) : Request :=
  {| req_url := apiUrl st;
     req_method := lit "POST";
     req_content_type := lit "application/json";
     req_authorization := Some (lit "Bearer " ++ apiKey st);
     req_body := ChatBody (model st) (chat_messages st text) (lit "0.2") false |}.

(** [data?.choices?.[0]?.message?.content] *)
Definition completion_content (data : jsval) : jsval :=
  prop (prop (index0 (prop data "choices")) "message") "content".

(** The settings the chat backend accepts. *)
Definition chat_configured (st : KissTranslatorSettings) : Prop :=
  apiUrl st <> [] /\ apiKey st <> [] /\ model st <> [] /\ trim (userPrompt st) <> [].

(** The error [translateWithOpenAI] throws before any request, if the
    settings miss something it needs: the checks of the source, in order. *)
Definition chat_config_error (st : KissTranslatorSettings) : option Error :=
  if negb (str_truthy (apiUrl st)) then Some ChatNoUrl
  else if negb (str_truthy (apiKey st)) then Some ChatNoKey
  else if negb (str_truthy (model st)) then Some ChatNoModel
  else if negb (str_truthy (trim (userPrompt st))) then Some ChatNoPrompt
  else None.

(** [private async translateWithOpenAI(text)] *)
Definition translateWithOpenAI (text : jsstring) : Op jsval :=
  st <- gets settings ;;
  if negb (str_truthy (apiUrl st)) then throw ChatNoUrl
  else if negb (str_truthy (apiKey st)) then throw ChatNoKey
  else if negb (str_truthy (model st)) then throw ChatNoModel
  else if negb (str_truthy (trim (userPrompt st))) then throw ChatNoPrompt
  else
    res <- do_fetch (chat_request st text) ;;
    if negb (ok res) then throw (ChatStatus (status res) (body_text res))
    else
      match body_json res with
      | None => throw ChatParse
      | Some data =>
          match completion_content data with
          | VStr c => ret (VStr (trim c))
          | _ => ret (VStr [])
          end
      end.

(** [apiType === "openai" ? await this.translateWithOpenAI(text)
     : await this.translateWithSimple(text)], with the call recorded. *)
Definition callBackend (api : ApiType) (text : jsstring) : Op jsval :=
  modify (log_event (BackendCalled api text)) ;;;
  match api with
  | openai => translateWithOpenAI text
  | simple => translateWithSimple text
  end.

(** [private async translateText(text)] *)
Definition translateText (text : jsstring) : Op jsval :=
  s <- get ;;
  let cached := default VUndefined (cache s !! text) in
  if truthy cached then ret cached
  else
    translatedText <- callBackend (apiType (settings s)) text ;;
    if negb (truthy translatedText) then throw EmptyTranslation
    else
      modify (fun s' => set_cache (<[text := translatedText]> (cache s')) s') ;;;
      ret translatedText.

(** [document.createElement("div")] with the class and the text set:
    the annotation element. [textContent = v] leaves one text node, or
    none when [String(v)] is empty. *)
Definition annotation (a : ref) (v : jsval) : node :=
  Elem a (lit "div") [TRANSLATION_CLASS]
       (match ToString v with [] => [] | t => [Text t] end).

(** [block.innerText || ""] for a reference: the text of the element it
    stands for in the tree as it is now. *)
Definition innerText_of (block : ref) (doc : node) : jsstring :=
  match subtree block doc with
  | Some el => innerText el
  | None => []
  end.

(** The end of [translateBlock]: create the annotation element, insert it
    after the block and register the pair. *)
Definition annotate (block : ref) (v : jsval) : Op unit :=
  a <- gets next_ref ;;
  modify (set_next_ref (S a)) ;;;
  modify (fun s => set_document (insert_after block (annotation a v) (document s)) s) ;;;
  modify (fun s => set_translated (map_set block a (translated s)) s).

(** [private async translateBlock(block)] *)
Definition translateBlock (block : ref) : Op unit :=
  doc <- gets document ;;
  let text := normalizeText (innerText_of block doc) in
  if negb (str_truthy text) || (length text <? 2)%nat then ret tt
  else
    v <- translateText text ;;
    if negb (truthy v) then ret tt
    else annotate block v.

(** [async translate(rootOverride?)] *)
Definition translate (rootOverride : option ref) : Op unit :=
  root <- (match rootOverride with
           | Some r => ret (Some r)
           | None => findPreviewRoot
           end) ;;
  match root with
  | None => throw NoTarget
  | Some r =>
      clear ;;;
      blocks <- collectBlocks r ;;
      for_each translateBlock blocks ;;;
      applyOriginalVisibility
  end.

(** The specification's tests on a candidate, in its words.

    The candidate lies within a skip area: it, or one of its ancestors,
    matches a configured skip selector. A selector that is empty or does
    not parse matches nothing. *)
Definition within_skip_area (st : KissTranslatorSettings) (doc : node) (c : located)
    : Prop :=
  exists sel a,
    In sel (skipSelectors st) /\ sel <> [] /\ selector_valid sel = true /\
    In a (self_and_ancestors c) /\ selector_matches sel doc a = true.

(** The candidate is eligible: outside every skip area; neither an
    annotation nor inside one; without a nested [input], [textarea] or
    [select]; without element children; with a normalized text of 2 to
    160 code units. *)
Definition Eligible (st : KissTranslatorSettings) (doc : node) (c : located) : Prop :=
  ~ within_skip_area st doc c /\
  (forall a, In a (self_and_ancestors c) ->
             has_class TRANSLATION_CLASS (loc_node a) = false) /\
  (forall d, In d (descendants (loc_ancestors c) (loc_node c)) ->
             ~ In (tagName (loc_node d)) control_tags) /\
  children (loc_node c) = [] /\
  (2 <= length (normalizeText (innerText (loc_node c))) <= 160)%nat.

(** The root [translate] works on: [rootOverride ?? this.findPreviewRoot()]. *)
Definition effective_root (rootOverride : option ref) (s : State) : option ref :=
  match rootOverride with
  | Some r => Some r
  | None =>
      match fst (findPreviewRoot s) with
      | Returned r => r
      | Thrown _ => None
      end
  end.

(** The state [clear] leaves. *)
Definition cleared (s : State) : State := snd (clear s).

(** The blocks [collectBlocks] returns in a state. *)
Definition blocks_of (root : ref) (s : State) : list ref :=
  omap loc_ref (selected (settings s) (document s) root).

(** The state [annotate] leaves. *)
Definition annotated (block : ref) (v : jsval) (s : State) : State :=
  set_translated (map_set block (next_ref s) (translated s))
    (set_document (insert_after block (annotation (next_ref s) v) (document s))
       (set_next_ref (S (next_ref s)) s)).

(** The text [translateBlock] reads from a block. *)
Definition block_text (block : ref) (s : State) : jsstring :=
  normalizeText (innerText_of block (document s)).

(** [cache.get(text)] is truthy. *)
Definition cached (text : jsstring) (s : State) : bool :=
  truthy (default VUndefined (cache s !! text)).

(** A state whose tree is well formed: its elements carry distinct
    references, all of them handed out already. *)
Definition well_formed (s : State) : Prop :=
  NoDup (refs (document s)) /\
  forall x, In x (refs (document s)) -> (x < next_ref s)%nat.

(** [well_formed], decided. *)
Definition well_formedb (s : State) : bool :=
  bool_decide (NoDup (refs (document s)))
  && forallb (fun x => Nat.ltb x (next_ref s)) (refs (document s)).

(** How often the events record a backend call for a text. *)
Definition backend_calls (text : jsstring) (evs : list Event) : nat :=
  length (List.filter
            (fun e => match e with
                      | BackendCalled _ t => str_eqb t text
                      | Fetched _ => false
                      end) evs).

(** A block as [collectBlocks] selects them in a state: an element
    strictly below the root of the tree, found under its reference,
    without element children and with a text of 2 code units or more. *)
Definition block_ok (s : State) (b : ref) : Prop :=
  (b < next_ref s)%nat /\ In b (strict_refs (document s)) /\
  exists el, subtree b (document s) = Some el /\ children el = [] /\
             (2 <= length (normalizeText (innerText el)))%nat.

(** What holds between the state [s1] in which the blocks were collected
    and a state [s] reached by translating some of them: the settings are
    the same; references were only handed out; every reference in the tree
    was handed out; a leaf element of [s1] is still found unchanged; what
    was strictly below the root still is; every pair of the mapping joins
    an element of [s1] with an annotation created since, which carries the
    cached translation of the element's text; what was cached in [s1] is
    cached; and a text was sent to the backend once if it is cached now
    and was not in [s1], and not at all otherwise. *)
Record loop_inv (s1 s : State) : Prop := {
  inv_settings : settings s = settings s1;
  inv_next : (next_ref s1 <= next_ref s)%nat;
  inv_bound : forall x, In x (refs (document s)) -> (x < next_ref s)%nat;
  inv_stable :
    forall b el,
      (b < next_ref s1)%nat -> subtree b (document s1) = Some el ->
      children el = [] -> subtree b (document s) = Some el;
  inv_strict :
    forall b, In b (strict_refs (document s1)) -> In b (strict_refs (document s));
  inv_pairs :
    forall b a,
      In (b, a) (translated s) ->
      (b < next_ref s1)%nat /\ (next_ref s1 <= a < next_ref s)%nat /\
      exists v, cache s !! block_text b s1 = Some v /\ truthy v = true /\
                subtree a (document s) = Some (annotation a v);
  inv_cache : forall t, cached t s1 = true -> cache s !! t = cache s1 !! t;
  inv_calls :
    exists evs,
      trace s = trace s1 ++ evs /\
      forall t, backend_calls t evs =
                if cached t s1 then 0%nat else if cached t s then 1%nat else 0%nat
}.

(** Two states that differ at most in the events. *)
Definition same_but_trace (s s' : State) : Prop :=
  view s' = view s /\ settings s' = settings s /\ translated s' = translated s /\
  cache s' = cache s /\ document s' = document s /\ next_ref s' = next_ref s.

(** The events of one backend call for a text: the call, and the request
    when one was sent. *)
Definition backend_events (api : ApiType) (text : jsstring) (evs : list Event) : Prop :=
  evs = [BackendCalled api text] \/
  exists req, evs = [BackendCalled api text; Fetched req].

End Host.
End Translator.

(** * The plugin ([main.ts])

    The commands of the plugin, the callers of the session. A command is
    taken to run to its end before the next one starts: the promise
    [translate] returns settles within the command that made it. What is
    left out has no part in what the sessions do: the registration of the
    commands and of the settings tab, the floating button (another file),
    and [console.error]. *)

Module Plugin.
Import JS Eff Dom Translator.
Local Open Scope eff_scope.

(** [const DEFAULT_SETTINGS] *)
Definition DEFAULT_SETTINGS : KissTranslatorSettings :=
  {| apiType := openai;
     apiUrl := lit "https://api.openai.com/v1/chat/completions";
     apiKey := [];
     model := lit "gpt-4o-mini";
     fromLang := lit "auto";
     toLang := lit "zh";
     systemPrompt :=
       lit "You are a translation engine. Preserve meaning, formatting, punctuation, and code blocks. Do not add explanations.";
     userPrompt :=
       lit "Translate the following text from {from} to {to}. Reply with translation only."
       ++ [10; 10]%N ++ lit "{text}";
     skipSelectors :=
       [lit "body > div.modal-container.mod-dim > div.modal.mod-settings.mod-sidebar-layout > div.modal-content.vertical-tabs-container > div.vertical-tab-header"];
     hideOriginal := false;
     autoTranslateOnOpen := false |}.

(** ** The settings tab *)

(** [value.split(/\n|,/)]: the pieces between the separators, in order;
    a text without separator is one piece. *)
Definition is_separator (c : N) : bool := ((c =? 10) || (c =? 44))%N.

Fixpoint split (sep : N -> bool) (value : jsstring) : list jsstring :=
  match value with
  | [] => [[]]
  | c :: rest =>
      if sep c then [] :: split sep rest
      else
        match split sep rest with
        | piece :: pieces => (c :: piece) :: pieces
        | [] => [[c]]
        end
  end.

(** [list.join(sep)] *)
Fixpoint join (sep : jsstring) (l : list jsstring) : jsstring :=
  match l with
  | [] => []
  | [x] => x
  | x :: rest => x ++ sep ++ join sep rest
  end.

(** The list the skip-selector text area stores:
    [value.split(/\n|,/).map((s) => s.trim()).filter(Boolean)]. *)
Definition parse_skipSelectors (value : jsstring) : list jsstring :=
  List.filter str_truthy (map trim (split is_separator value)).

(** The text the text area shows: [skipSelectors.join("\n")]. *)
Definition show_skipSelectors (l : list jsstring) : jsstring := join [10%N] l.

(** ** Sessions in a shared document *)

(** What a [TranslationSession] object holds. *)
Record Session : Type := {
  s_view : option ref;
  s_settings : KissTranslatorSettings;
  s_translated : list (ref * ref);
  s_cache : gmap jsstring jsval
}.

(** What the sessions share: the rendered tree, the references handed
    out, and the events. *)
Record World : Type := {
  w_document : node;
  w_next_ref : ref;
  w_trace : list Event
}.

Definition attach (x : Session) (w : World) : State :=
  {| view := s_view x; settings := s_settings x; translated := s_translated x;
     cache := s_cache x; document := w_document w; next_ref := w_next_ref w;
     trace := w_trace w |}.

Definition session_of (s : State) : Session :=
  {| s_view := view s; s_settings := settings s; s_translated := translated s;
     s_cache := cache s |}.

Definition world_of (s : State) : World :=
  {| w_document := document s; w_next_ref := next_ref s; w_trace := trace s |}.

(** A method of a session, called in a world. *)
Definition call {A} (op : Op A) (x : Session) (w : World)
    : outcome Error A * Session * World :=
  let '(res, s) := op (attach x w) in (res, session_of s, world_of s).

(** [new TranslationSession(view, settings)] *)
Definition new_TranslationSession (v : option ref) (st : KissTranslatorSettings)
    : Session :=
  {| s_view := v; s_settings := st; s_translated := []; s_cache := ∅ |}.

(** The notices the plugin shows, one constructor per [new Notice]. *)
Inductive Notice : Type :=
| NoReadingView
| NoTarget_
| TranslationsCleared
| Failed (e : Error)
| OriginalHidden
| OriginalShown.

(** [class KissTranslatorPlugin]: its fields, the notices shown so far
    and the settings handed to [saveData] so far. *)
Record KissTranslatorPlugin : Type := {
  p_settings : KissTranslatorSettings;
  session : option Session;
  uiSession : option Session;
  notices : list Notice;
  saved : list KissTranslatorSettings
}.

Definition set_session (x : option Session) (p : KissTranslatorPlugin)
    : KissTranslatorPlugin :=
  {| p_settings := p_settings p; session := x; uiSession := uiSession p;
     notices := notices p; saved := saved p |}.

Definition set_uiSession (x : option Session) (p : KissTranslatorPlugin)
    : KissTranslatorPlugin :=
  {| p_settings := p_settings p; session := session p; uiSession := x;
     notices := notices p; saved := saved p |}.

Definition set_p_settings (st : KissTranslatorSettings) (p : KissTranslatorPlugin)
    : KissTranslatorPlugin :=
  {| p_settings := st; session := session p; uiSession := uiSession p;
     notices := notices p; saved := saved p |}.

(** [new Notice(...)] *)
Definition notify (n : Notice) (p : KissTranslatorPlugin) : KissTranslatorPlugin :=
  {| p_settings := p_settings p; session := session p; uiSession := uiSession p;
     notices := notices p ++ [n]; saved := saved p |}.

(** [saveSettings()] *)
Definition saveSettings (p : KissTranslatorPlugin) : KissTranslatorPlugin :=
  {| p_settings := p_settings p; session := session p; uiSession := uiSession p;
     notices := notices p; saved := saved p ++ [p_settings p] |}.

Definition set_hideOriginal (b : bool) (st : KissTranslatorSettings)
    : KissTranslatorSettings :=
  {| apiType := apiType st; apiUrl := apiUrl st; apiKey := apiKey st;
     model := model st; fromLang := fromLang st; toLang := toLang st;
     systemPrompt := systemPrompt st; userPrompt := userPrompt st;
     skipSelectors := skipSelectors st; hideOriginal := b;
     autoTranslateOnOpen := autoTranslateOnOpen st |}.

Definition set_skipSelectors (l : list jsstring) (st : KissTranslatorSettings)
    : KissTranslatorSettings :=
  {| apiType := apiType st; apiUrl := apiUrl st; apiKey := apiKey st;
     model := model st; fromLang := fromLang st; toLang := toLang st;
     systemPrompt := systemPrompt st; userPrompt := userPrompt st;
     skipSelectors := l; hideOriginal := hideOriginal st;
     autoTranslateOnOpen := autoTranslateOnOpen st |}.

(** [document.querySelector(sel)]: the first element of the document, in
    document order, that satisfies [p]. The tree is the body; the
    elements above it carry no class the plugin asks for. *)
Definition document_querySelector (p : located -> bool) (doc : node) : option ref :=
  match List.find p (self_and_descendants [] doc) with
  | Some d => ref_of (loc_node d)
  | None => None
  end.

Definition has_classes (l : list string) (n : node) : bool :=
  forallb (fun c => has_class (lit c) n) l.

(** The target of [translateUIWithFab]:
    [.modal.mod-settings], else [.modal-container .mod-settings], else
    [.workspace-split.mod-vertical], else [document.body]. *)
Definition ui_target (doc : node) : option ref :=
  or_else
    (document_querySelector
       (fun c => has_classes ["modal"; "mod-settings"]%string (loc_node c)) doc)
    (or_else
       (document_querySelector
          (fun c => has_classes ["mod-settings"]%string (loc_node c)
                    && existsb (has_classes ["modal-container"]%string) (loc_ancestors c))
          doc)
       (or_else
          (document_querySelector
             (fun c => has_classes ["workspace-split"; "mod-vertical"]%string (loc_node c))
             doc)
          (ref_of doc))).

Section Host.
Variable fetch : list Event -> Request -> FetchResult.
Variable selector_valid : jsstring -> bool.
Variable selector_matches : jsstring -> node -> located -> bool.

(** A command acts on the plugin and on the world. *)
Definition Command : Type := KissTranslatorPlugin * World -> KissTranslatorPlugin * World.

(** [session.translate(root).catch((err) => new Notice(err.message))];
    the session after the call. *)
Definition translate_and_report (rootOverride : option ref) (x : Session)
    (p : KissTranslatorPlugin) (w : World) : Session * KissTranslatorPlugin * World :=
  let '(res, x', w') :=
    call (translate fetch selector_valid selector_matches rootOverride) x w in
  match res with
  | Returned _ => (x', p, w')
  | Thrown e => (x', notify (Failed e) p, w')
  end.

(** [private ensureSession(view)]; the views are told apart by their
    container elements. *)
Definition ensureSession (v : ref) : Command :=
  fun '(p, w) =>
    match session p with
    | Some x =>
        if bool_decide (s_view x = Some v)
        then
          let '(_, x', w') := call (updateSettings (p_settings p)) x w in
          (set_session (Some x') p, w')
        else (set_session (Some (new_TranslationSession (Some v) (p_settings p))) p, w)
    | None => (set_session (Some (new_TranslationSession (Some v) (p_settings p))) p, w)
    end.

(** [private translateActive()]; [active] is what
    [getActiveViewOfType(MarkdownView)] answers. *)
Definition translateActive (active : option ref) : Command :=
  fun '(p, w) =>
    match active with
    | None => (notify NoReadingView p, w)
    | Some v =>
        let '(p1, w1) := ensureSession v (p, w) in
        match session p1 with
        | None => (p1, w1)
        | Some x =>
            let '(x', p2, w2) := translate_and_report None x p1 w1 in
            (set_session (Some x') p2, w2)
        end
    end.

(** [translateUIWithFab()] *)
Definition translateUIWithFab : Command :=
  fun '(p, w) =>
    match ui_target (w_document w) with
    | None => (notify NoTarget_ p, w)
    | Some target =>
        let '(x, w1) :=
          match uiSession p with
          | None => (new_TranslationSession None (p_settings p), w)
          | Some x0 =>
              let '(_, x1, w1) := call (updateSettings (p_settings p)) x0 w in (x1, w1)
          end in
        match call hasTranslations x w1 with
        | (Returned true, x2, w2) =>
            let '(_, x3, w3) := call clear x2 w2 in
            (notify TranslationsCleared (set_uiSession (Some x3) p), w3)
        | (_, x2, w2) =>
            let '(x3, p3, w3) :=
              translate_and_report (Some target) x2 (set_uiSession (Some x2) p) w2 in
            (set_uiSession (Some x3) p3, w3)
        end
    end.

(** [private clearActive()] *)
Definition clearActive (active : option ref) : Command :=
  fun '(p, w) =>
    match active with
    | None => (p, w)
    | Some v =>
        let '(p1, w1) := ensureSession v (p, w) in
        match session p1 with
        | None => (p1, w1)
        | Some x =>
            let '(_, x', w2) := call clear x w1 in
            (set_session (Some x') p1, w2)
        end
    end.

(** [private toggleOriginal()] *)
Definition toggleOriginal : Command :=
  fun '(p, w) =>
    let st := set_hideOriginal (negb (hideOriginal (p_settings p))) (p_settings p) in
    let p1 := saveSettings (set_p_settings st p) in
    let '(p2, w2) :=
      match session p1 with
      | Some x =>
          let '(_, x', w') := call (updateSettings st ;;; applyOriginalVisibility) x w in
          (set_session (Some x') p1, w')
      | None => (p1, w)
      end in
    (notify (if hideOriginal st then OriginalHidden else OriginalShown) p2, w2).


(** The [onChange] of the skip-selector text area. *)
Definition onSkipSelectorsChange (value : jsstring) : Command :=
  fun '(p, w) =>
    let st := set_skipSelectors (parse_skipSelectors value) (p_settings p) in
    let p1 := saveSettings (set_p_settings st p) in
    let '(p2, w2) :=
      match session p1 with
      | Some x =>
          let '(_, x', w') := call (updateSettings st) x w in
          (set_session (Some x') p1, w')
      | None => (p1, w)
      end in
    match uiSession p2 with
    | Some x =>
        let '(_, x', w') := call (updateSettings st) x w2 in
        (set_uiSession (Some x') p2, w')
    | None => (p2, w2)
    end.

End Host.

(** An event of a run made with the settings [st]: a call of the backend
    [st] selects, or a POST to its [apiUrl] that carries its API key as
    bearer token for the chat backend and no authorization header for the
    simple one. *)
Definition made_for (st : KissTranslatorSettings) (e : Event) : Prop :=
  match e with
  | BackendCalled api _ => api = apiType st
  | Fetched req =>
      req_url req = apiUrl st /\
      req_method req = lit "POST" /\
      req_authorization req =
        match apiType st with
        | openai => Some (lit "Bearer " ++ apiKey st)
        | simple => None
        end
  end.

End Plugin.

(** * Templates *)

Module Templates.
Import JS.

(** A template in which every opening brace starts one of the three
    placeholders. *)
Inductive plain_template : jsstring -> Prop :=
| plain_end : plain_template []
| plain_unit (c : N) (rest : jsstring) :
    c <> 123%N -> plain_template rest -> plain_template (c :: rest)
| plain_text (rest : jsstring) :
    plain_template rest -> plain_template (lit "{text}" ++ rest)
| plain_from (rest : jsstring) :
    plain_template rest -> plain_template (lit "{from}" ++ rest)
| plain_to (rest : jsstring) :
    plain_template rest -> plain_template (lit "{to}" ++ rest).

End Templates.

(** * What an error tells *)

Module Diagnosis.
Import JS Translator.

(** What an error of the loop tells about the settings it ran with: the
    backend it came from, and the setting or the status it reports. *)
Definition error_cause (st : KissTranslatorSettings) (e : Error) : Prop :=
  match e with
  | NoTarget => False
  | EmptyTranslation | FetchFailed => True
  | SimpleNoUrl => apiType st = simple /\ apiUrl st = []
  | SimpleStatus code => apiType st = simple /\ ~ (200 <= code <= 299)%Z
  | SimpleParse => apiType st = simple
  | ChatNoUrl => apiType st = openai /\ apiUrl st = []
  | ChatNoKey => apiType st = openai /\ apiKey st = []
  | ChatNoModel => apiType st = openai /\ model st = []
  | ChatNoPrompt => apiType st = openai /\ trim (userPrompt st) = []
  | ChatStatus code _ => apiType st = openai /\ ~ (200 <= code <= 299)%Z
  | ChatParse => apiType st = openai
  end.

End Diagnosis.

(** * Siblings *)

Module Siblings.
Import JS Dom Translator.

(** The node after the first one of [kids] that carries the reference. *)
Fixpoint after_in (b : ref) (kids : list node) : option node :=
  match kids with
  | [] => None
  | k :: rest => if has_ref b k then hd_error rest else after_in b rest
  end.

(** [el.nextSibling] for the element with reference [b]: the node that
    follows it among the children of its parent, if any. *)
Fixpoint nextSibling (b : ref) (n : node) : option node :=
  match n with
  | Text _ => None
  | Elem _ _ _ kids =>
      match after_in b kids with
      | Some k => Some k
      | None => first_some (nextSibling b) kids
      end
  end.

(** Every pair of the mapping joins an element with an annotation that
    is in the tree, right after the element. *)
Definition placed (s : State) : Prop :=
  forall b a,
    In (b, a) (translated s) ->
    exists v, nextSibling b (document s) = Some (annotation a v) /\
              subtree a (document s) = Some (annotation a v).

End Siblings.

(** * Concrete hosts, settings and documents

    Small instances of the host and of the data, on which the definitions
    above run and the statements below are exercised. *)

Module Fixtures.
Import JS Eff Dom.

(** ** A registry *)

Definition registry_url : jsstring := lit "https://example.org/registry.json".

(** [{ "dictionaries": [ {scope, url}, {name}, {id, downloadUrl} ] }] *)
Definition registry_payload : jsval :=
  VObj [(lit "dictionaries",
         VArr [VObj [(lit "scope", VStr (lit " obsidian "));
                     (lit "url", VStr (lit "https://example.org/a.json"))];
               VObj [(lit "name", VStr (lit "nameless"))];
               VObj [(lit "id", VNum (lit "7"));
                     (lit "downloadUrl", VStr (lit "https://example.org/b.json"))]])].


(** [Number(v)] on the values the registry above holds. *)
Definition number_of (v : jsval) : jsstring :=
  match v with
  | VNum shown => shown
  | _ => lit "NaN"
  end.


(** ** Selectors

    A selector engine for the examples: [.name] selects by class, a bare
    name selects by tag, anything else does not parse. *)

Definition is_name_char (c : N) : bool :=
  ((48 <=? c) && (c <=? 57) || (65 <=? c) && (c <=? 90) ||
   (97 <=? c) && (c <=? 122) || (c =? 45) || (c =? 95))%N.

Definition selector_valid (sel : jsstring) : bool :=
  match sel with
  | [] => false
  | c :: name =>
      if (c =? 46)%N then str_truthy name && forallb is_name_char name
      else forallb is_name_char sel
  end.

Definition selector_matches (sel : jsstring) (doc : node) (c : located) : bool :=
  match sel with
  | [] => false
  | d :: name =>
      if (d =? 46)%N then has_class name (loc_node c)
      else str_eqb (tagName (loc_node c)) sel
  end.

(** ** Settings *)

Import Translator.

Definition chat_settings : KissTranslatorSettings :=
  {| apiType := openai;
     apiUrl := lit "https://api.openai.com/v1/chat/completions";
     apiKey := lit "sk-test";
     model := lit "gpt-4o-mini";
     fromLang := lit "en";
     toLang := lit "zh";
     systemPrompt := [];
     userPrompt := lit "Translate {text} from {from} to {to}";
     skipSelectors := [lit ".sidebar"; lit "p >"];
     hideOriginal := false;
     autoTranslateOnOpen := false |}.

Definition with_hideOriginal (b : bool) (st : KissTranslatorSettings)
    : KissTranslatorSettings :=
  {| apiType := apiType st; apiUrl := apiUrl st; apiKey := apiKey st;
     model := model st; fromLang := fromLang st; toLang := toLang st;
     systemPrompt := systemPrompt st; userPrompt := userPrompt st;
     skipSelectors := skipSelectors st; hideOriginal := b;
     autoTranslateOnOpen := autoTranslateOnOpen st |}.

Definition with_apiKey (k : jsstring) (st : KissTranslatorSettings)
    : KissTranslatorSettings :=
  {| apiType := apiType st; apiUrl := apiUrl st; apiKey := k;
     model := model st; fromLang := fromLang st; toLang := toLang st;
     systemPrompt := systemPrompt st; userPrompt := userPrompt st;
     skipSelectors := skipSelectors st; hideOriginal := hideOriginal st;
     autoTranslateOnOpen := autoTranslateOnOpen st |}.

(** ** Backends *)

(** A 2xx chat completion whose first choice has the given content. *)
Definition chat_reply (content : jsval) : Response :=
  {| status := 200;
     body_text := [];
     body_json :=
       Some (VObj [(lit "choices",
                    VArr [VObj [(lit "message",
                                 VObj [(lit "content", content)])]])]) |}.

(** A 2xx chat completion without choices. *)
Definition chat_reply_no_choice : Response :=
  {| status := 200;
     body_text := lit "{}";
     body_json := Some (VObj []) |}.

Definition fetch_reply (content : jsval) (events : list Event) (req : Request)
    : FetchResult :=
  FetchResolved (chat_reply content).

Definition fetch_no_choice (events : list Event) (req : Request) : FetchResult :=
  FetchResolved chat_reply_no_choice.

(** The second request and those after it get a completion without
    choices. *)
Definition fetch_once (content : jsval) (events : list Event) (req : Request)
    : FetchResult :=
  if existsb (fun e => match e with Fetched _ => true | _ => false end) events
  then FetchResolved chat_reply_no_choice
  else FetchResolved (chat_reply content).

(** ** A document

    [<body> <p>Hello world</p> <p>  Hello   world </p>
            <div class="sidebar"> <p>Skip me</p> </div>
            <p>x</p> <p>Good bye</p> <li>See you</li> </body>] *)
Definition page : node :=
  Elem 0 (lit "body") []
    [Elem 1 (lit "p") [] [Text (lit "Hello world")];
     Elem 2 (lit "p") [] [Text (lit "  Hello   world ")];
     Elem 3 (lit "div") [lit "sidebar"] [Elem 4 (lit "p") [] [Text (lit "Skip me")]];
     Elem 5 (lit "p") [] [Text (lit "x")];
     Elem 6 (lit "p") [] [Text (lit "Good bye")];
     Elem 7 (lit "li") [] [Text (lit "See you")]].

Definition bonjour : jsval := VStr (lit " Bonjour ").

(** A new session on the page, with the chat settings. *)
Definition fresh : State := new_session None chat_settings page 100 [].

Definition run_translate (fetch : list Event -> Request -> FetchResult) (s : State)
    : outcome Error unit * State :=
  translate fetch selector_valid selector_matches (Some 0%nat) s.

(** The session after one translation with the originals hidden. *)
Definition hidden_state : State :=
  snd (run_translate (fetch_reply bonjour)
         (new_session None (with_hideOriginal true chat_settings) page 100 [])).

(** The session after one translation. *)
Definition translated_state : State :=
  snd (run_translate (fetch_reply bonjour) fresh).

(** A new session on the page whose settings lack the API key. *)
Definition keyless : State :=
  new_session None (with_apiKey [] chat_settings) page 100 [].

(** The session after one translation, told then that the API key is
    gone. *)
Definition keyless_warm : State :=
  snd (updateSettings (with_apiKey [] chat_settings) translated_state).

(** ** A document for selection

    A paragraph of one letter; one of 161 letters; one inside the
    sidebar, which the settings skip; one inside an annotation; one of 50
    letters with white space around; and a [div] with an [input]. *)
Definition p50 : node :=
  Elem 7 (lit "p") [] [Text (lit "  " ++ repeat 97%N 50 ++ lit " ")].

Definition selection_page : node :=
  Elem 0 (lit "body") []
    [Elem 1 (lit "p") [] [Text (lit "x")];
     Elem 2 (lit "p") [] [Text (repeat 97%N 161)];
     Elem 3 (lit "div") [lit "sidebar"]
       [Elem 4 (lit "p") [] [Text (lit "In the sidebar")]];
     Elem 5 (lit "div") [TRANSLATION_CLASS]
       [Elem 6 (lit "p") [] [Text (lit "Inside an annotation")]];
     p50;
     Elem 8 (lit "div") [] [Elem 9 (lit "input") [] []]].


(** ** The simple backend *)

Definition simple_settings : KissTranslatorSettings :=
  {| apiType := simple;
     apiUrl := lit "https://libretranslate.example/translate";
     apiKey := [];
     model := [];
     fromLang := [];
     toLang := lit "es";
     systemPrompt := [];
     userPrompt := [];
     skipSelectors := [];
     hideOriginal := false;
     autoTranslateOnOpen := false |}.

(** [{ "translatedText": "Hola mundo" }] for the first request, and
    [[{ "translatedText": "Adios" }]] for the others. *)
Definition fetch_simple (events : list Event) (req : Request) : FetchResult :=
  FetchResolved
    {| status := 200;
       body_text := [];
       body_json :=
         Some (if existsb (fun e => match e with Fetched _ => true | _ => false end) events
               then VArr [VObj [(lit "translatedText", VStr (lit "Adios"))]]
               else VObj [(lit "translatedText", VStr (lit "Hola mundo"))]) |}.

(** ** A view

    [<body> <div class="workspace-leaf-content">
              <div class="markdown-reading-view">
                <div class="markdown-preview-view"> <p>Hello world</p> </div>
              </div> </div>
            <p>Outside the view</p> </body>] *)
Definition workspace : node :=
  Elem 0 (lit "body") []
    [Elem 1 (lit "div") [lit "workspace-leaf-content"]
       [Elem 2 (lit "div") [READING_VIEW]
          [Elem 3 (lit "div") [PREVIEW_VIEW]
             [Elem 4 (lit "p") [] [Text (lit "Hello world")]]]];
     Elem 5 (lit "p") [] [Text (lit "Outside the view")]].

(** ** A dictionary

    [{ "scope": null, "entries": [ {"source": "Settings"} ] }], served for
    every address but the registry's. *)
Definition dict_payload : jsval :=
  VObj [(lit "scope", VNull);
        (lit "entries", VArr [VObj [(lit "source", VStr (lit "Settings"))]])].

Definition dict_host (log : list Cloud.UrlRequest) (r : Cloud.UrlRequest)
    : Cloud.UrlResult :=
  if str_eqb (Cloud.req_url r) registry_url
  then Cloud.UrlResponse 200 (Some registry_payload)
  else Cloud.UrlResponse 200 (Some dict_payload).

(** The first entry of the registry above, as [fetchRegistry] returns it. *)
Definition first_meta : Cloud.CloudDictMeta :=
  {| Cloud.meta_id := lit "obsidian";
     Cloud.meta_scope := lit "obsidian";
     Cloud.meta_name := Some (lit "obsidian");
     Cloud.meta_description := None;
     Cloud.meta_downloadUrl := lit "https://example.org/a.json";
     Cloud.meta_updatedAt := None;
     Cloud.meta_entryCount := None;
     Cloud.meta_version := None;
     Cloud.meta_votes := VUndefined;
     Cloud.meta_size := None |}.

(** ** More settings and backends *)

Definition with_skipSelectors (l : list jsstring) (st : KissTranslatorSettings)
    : KissTranslatorSettings :=
  {| apiType := apiType st; apiUrl := apiUrl st; apiKey := apiKey st;
     model := model st; fromLang := fromLang st; toLang := toLang st;
     systemPrompt := systemPrompt st; userPrompt := userPrompt st;
     skipSelectors := l; hideOriginal := hideOriginal st;
     autoTranslateOnOpen := autoTranslateOnOpen st |}.

(** A completion that holds white space only. *)
Definition blank : jsval := VStr (lit "   ").

(** ** The plugin

    The plugin as loaded, with the chat settings; then after the floating
    button was used on the page, and after the translate command was used
    on the view of the workspace. *)
Import Plugin.

Definition plugin0 : KissTranslatorPlugin :=
  {| p_settings := chat_settings; session := None; uiSession := None;
     notices := []; saved := [] |}.

Definition world_of_page (doc : node) : World :=
  {| w_document := doc; w_next_ref := 100; w_trace := [] |}.

Definition after_fab : KissTranslatorPlugin * World :=
  translateUIWithFab (fetch_reply bonjour) selector_valid selector_matches
    (plugin0, world_of_page page).

Definition fab_session : Session :=
  match uiSession (fst after_fab) with
  | Some u => u
  | None => new_TranslationSession None chat_settings
  end.

Definition after_command : KissTranslatorPlugin * World :=
  translateActive (fetch_reply bonjour) selector_valid selector_matches (Some 1%nat)
    (plugin0, world_of_page workspace).

Definition note_session : Session :=
  match session (fst after_command) with
  | Some x => x
  | None => new_TranslationSession None chat_settings
  end.

End Fixtures.

(** * Properties of the cloud registry *)

Section CloudRegistry.
Import JS Eff Cloud.

Variable requestUrl : list UrlRequest -> UrlRequest -> UrlResult.
Variable ToNumber : jsval -> jsstring.

Lemma str_truthy_nonempty (s : jsstring) : str_truthy s = true <-> s <> [].
Proof. destruct s; simpl; split; intros; congruence. Qed.

Lemma normalizeMeta_kept (raw : jsval) (idx : nat) (m : CloudDictMeta) :
  normalizeMeta ToNumber raw idx = Some m ->
  meta_scope m <> [] /\ meta_downloadUrl m <> [].
Proof.
  unfold normalizeMeta.
  destruct (str_truthy (trim (ToString (js_or (js_or (prop raw "scope") (prop raw "id"))
                                              (VStr []))))) eqn:Hs;
    destruct (str_truthy (trim (ToString (js_or (js_or (prop raw "downloadUrl")
                                                       (prop raw "url")) (VStr [])))))
      eqn:Hd; simpl; intros H; try discriminate.
  injection H as <-. simpl.
  split; apply str_truthy_nonempty; assumption.
Qed.

Lemma normalize_from_spec (items : list jsval) (start : nat) (m : CloudDictMeta) :
  In m (normalize_from ToNumber start items) <->
  exists k raw, nth_error items k = Some raw /\
                normalizeMeta ToNumber raw (start + k) = Some m.
Proof.
  revert start. induction items as [|raw items IH]; intros start; simpl.
  - split; [tauto|]. intros (k & r & Hk & _). destruct k; discriminate.
  - destruct (normalizeMeta ToNumber raw start) as [m0|] eqn:Hn; simpl.
    + rewrite IH. split.
      * intros [<- | (k & r & Hk & Hm)].
        -- exists 0%nat, raw. rewrite Nat.add_0_r. auto.
        -- exists (S k), r. rewrite Nat.add_succ_r. auto.
      * intros (k & r & Hk & Hm). destruct k as [|k]; simpl in Hk.
        -- injection Hk as <-. rewrite Nat.add_0_r in Hm. left. congruence.
        -- right. exists k, r. rewrite Nat.add_succ_r in Hm. auto.
    + rewrite IH. split.
      * intros (k & r & Hk & Hm). exists (S k), r. rewrite Nat.add_succ_r. auto.
      * intros (k & r & Hk & Hm). destruct k as [|k]; simpl in Hk.
        -- injection Hk as <-. rewrite Nat.add_0_r in Hm. congruence.
        -- exists k, r. rewrite Nat.add_succ_r in Hm. auto.
Qed.


End CloudRegistry.


(** * Properties of the rendered tree *)

Section Tree.
Import JS Dom.

(** Induction on a node with the property known for the child nodes. *)
Lemma node_ind_kids (P : node -> Prop) :
  (forall data, P (Text data)) ->
  (forall r t c kids, Forall P kids -> P (Elem r t c kids)) ->
  forall n, P n.
Proof.
  intros Htext Helem. fix IH 1. intros [data | r t c kids]; [apply Htext|].
  apply Helem. induction kids as [|k kids IHkids]; constructor; [apply IH | exact IHkids].
Qed.

(** ** [first_some] *)

Lemma first_some_app {A B} (f : A -> option B) (l1 l2 : list A) :
  first_some f (l1 ++ l2) =
    match first_some f l1 with Some y => Some y | None => first_some f l2 end.
Proof.
  induction l1 as [|x l1 IH]; simpl; [reflexivity|].
  destruct (f x); [reflexivity | exact IH].
Qed.

Lemma first_some_Some {A B} (f : A -> option B) (l : list A) (y : B) :
  first_some f l = Some y -> exists x, In x l /\ f x = Some y.
Proof.
  induction l as [|x l IH]; simpl; [discriminate|].
  destruct (f x) as [y'|] eqn:Hx.
  - intros [= <-]. exists x. auto.
  - intros H. destruct (IH H) as (x' & Hin & Hf). exists x'. auto.
Qed.

Lemma first_some_None {A B} (f : A -> option B) (l : list A) :
  first_some f l = None <-> forall x, In x l -> f x = None.
Proof.
  induction l as [|x l IH]; simpl.
  - split; [intros _ x []|reflexivity].
  - destruct (f x) eqn:Hx.
    + split; [discriminate|]. intros H. rewrite <- Hx. apply H. auto.
    + rewrite IH. split.
      * intros H x' [<- | Hin]; auto.
      * intros H x' Hin. apply H. auto.
Qed.

(** ** Locating an element *)

Lemma subtree_in_any (anc anc' : list node) (r : ref) (n : node) :
  option_map loc_node (locate_in anc r n) = option_map loc_node (locate_in anc' r n).
Proof.
  revert anc anc'. induction n as [data | r' t c kids IH] using node_ind_kids;
    intros anc anc'; simpl; [reflexivity|].
  destruct (Nat.eqb r' r); [reflexivity|].
  generalize (Elem r' t c kids :: anc) (Elem r' t c kids :: anc'). intros a a'.
  induction IH as [|k kids Hk _ IHkids]; simpl; [reflexivity|].
  specialize (Hk a a').
  destruct (locate_in a r k), (locate_in a' r k); simpl in Hk; try discriminate.
  - exact Hk.
  - exact IHkids.
Qed.

(** [subtree] by recursion on the tree. *)
Lemma subtree_Elem (r r' : ref) (t : jsstring) (c : list jsstring) (kids : list node) :
  subtree r (Elem r' t c kids) =
    if Nat.eqb r' r then Some (Elem r' t c kids) else first_some (subtree r) kids.
Proof.
  unfold subtree, locate. simpl. destruct (Nat.eqb r' r); [reflexivity|].
  generalize [Elem r' t c kids]. intros a.
  induction kids as [|k kids IH]; simpl; [reflexivity|].
  pose proof (subtree_in_any a [] r k) as Hk.
  destruct (locate_in a r k), (locate_in [] r k); simpl in Hk; try discriminate.
  - exact Hk.
  - exact IH.
Qed.

Lemma subtree_None (r : ref) (n : node) : subtree r n = None <-> ~ In r (refs n).
Proof.
  induction n as [data | r' t c kids IH] using node_ind_kids.
  - simpl. split; [intros _ [] | reflexivity].
  - rewrite subtree_Elem. simpl. destruct (Nat.eqb_spec r' r) as [-> | Hne].
    + split; [discriminate|]. intros H. exfalso. apply H. left. reflexivity.
    + rewrite first_some_None. rewrite List.Forall_forall in IH. split.
      * intros H [Heq | Hin]; [congruence|].
        apply in_flat_map in Hin as (k & Hk & Hr).
        apply (IH k Hk); auto.
      * intros H k Hk. apply (IH k Hk). intros Hr. apply H. right.
        apply in_flat_map. exists k. auto.
Qed.

Lemma subtree_self (n : node) (r : ref) : ref_of n = Some r -> subtree r n = Some n.
Proof.
  destruct n as [data | r' t c kids]; simpl; [discriminate|].
  intros [= ->]. rewrite subtree_Elem, Nat.eqb_refl. reflexivity.
Qed.

(** ** Class updates *)

Lemma innerText_update_classes (f : list jsstring -> list jsstring) (x : ref) (n : node) :
  innerText (update_classes f x n) = innerText n.
Proof.
  induction n as [data | r t c kids IH] using node_ind_kids; simpl; [reflexivity|].
  induction IH as [|k kids Hk _ IHkids]; simpl; [reflexivity|].
  rewrite Hk, IHkids. reflexivity.
Qed.

Lemma subtree_update_classes (f : list jsstring -> list jsstring) (x r : ref) (n : node) :
  subtree r (update_classes f x n) = option_map (update_classes f x) (subtree r n).
Proof.
  induction n as [data | r' t c kids IH] using node_ind_kids; [reflexivity|].
  simpl update_classes. rewrite !subtree_Elem.
  destruct (Nat.eqb r' r); [reflexivity|].
  induction IH as [|k kids Hk _ IHkids]; simpl; [reflexivity|].
  rewrite Hk. destruct (subtree r k); simpl; [reflexivity | exact IHkids].
Qed.

(** ** Removal *)

Lemma refs_remove_node (a : ref) (n : node) :
  refs (remove_node a n) `sublist_of` refs n.
Proof.
  induction n as [data | r t c kids IH] using node_ind_kids; simpl; [reflexivity|].
  apply sublist_skip.
  induction IH as [|k kids Hk _ IHkids]; simpl; [reflexivity|].
  destruct (has_ref a (remove_node a k)); simpl.
  - apply sublist_inserts_l. exact IHkids.
  - apply sublist_app; assumption.
Qed.

Lemma class_lists_remove_node (a : ref) (n : node) :
  class_lists (remove_node a n) `sublist_of` class_lists n.
Proof.
  induction n as [data | r t c kids IH] using node_ind_kids; simpl; [reflexivity|].
  apply sublist_skip.
  induction IH as [|k kids Hk _ IHkids]; simpl; [reflexivity|].
  destruct (has_ref a (remove_node a k)); simpl.
  - apply sublist_inserts_l. exact IHkids.
  - apply sublist_app; assumption.
Qed.

(** ** Insertion *)

Lemma insert_after_leaf (b : ref) (new n : node) :
  children n = [] -> insert_after b new n = n.
Proof.
  destruct n as [data | r t c kids]; simpl; [reflexivity|].
  unfold children. simpl. intros H. f_equal.
  induction kids as [|k kids IH]; simpl; [reflexivity|].
  simpl in H. destruct k as [data | r' t' c' kids']; simpl in *; [|discriminate].
  rewrite IH by assumption. reflexivity.
Qed.

Lemma subtree_insert_after (b : ref) (new : node) (r : ref) (n : node) :
  ~ In r (refs new) ->
  subtree r (insert_after b new n) = option_map (insert_after b new) (subtree r n).
Proof.
  intros Hnew. apply subtree_None in Hnew.
  induction n as [data | r' t c kids IH] using node_ind_kids; [reflexivity|].
  simpl insert_after. rewrite !subtree_Elem.
  destruct (Nat.eqb r' r); [reflexivity|].
  induction IH as [|k kids Hk _ IHkids]; simpl; [reflexivity|].
  rewrite first_some_app.
  assert (Hhere : first_some (subtree r)
                    (if has_ref b k then [insert_after b new k; new]
                     else [insert_after b new k])
                  = option_map (insert_after b new) (subtree r k)).
  { destruct (has_ref b k); simpl; rewrite Hk; destruct (subtree r k); simpl;
      try reflexivity. rewrite Hnew. reflexivity. }
  rewrite Hhere. destruct (subtree r k); simpl; [reflexivity | exact IHkids].
Qed.

Lemma refs_insert_after_incl (b : ref) (new n : node) (x : ref) :
  In x (refs (insert_after b new n)) -> In x (refs n) \/ In x (refs new).
Proof.
  induction n as [data | r t c kids IH] using node_ind_kids; simpl; [tauto|].
  intros [Hx | Hx]; [auto|].
  apply in_flat_map in Hx as (k' & Hk' & Hx).
  apply in_flat_map in Hk' as (k & Hk & Hk').
  rewrite List.Forall_forall in IH.
  assert (Hcases : k' = insert_after b new k \/ k' = new).
  { destruct (has_ref b k); simpl in Hk'; intuition (subst; auto). }
  destruct Hcases as [-> | ->]; [|auto].
  destruct (IH k Hk Hx) as [Hin | Hin]; [|auto].
  left. right. apply in_flat_map. exists k. auto.
Qed.

Lemma refs_insert_after_mono (b : ref) (new n : node) (x : ref) :
  In x (refs n) -> In x (refs (insert_after b new n)).
Proof.
  induction n as [data | r t c kids IH] using node_ind_kids; simpl; [tauto|].
  intros [Hx | Hx]; [auto|]. right.
  apply in_flat_map in Hx as (k & Hk & Hx).
  rewrite List.Forall_forall in IH.
  apply in_flat_map. exists (insert_after b new k). split; [|exact (IH k Hk Hx)].
  apply in_flat_map. exists k. split; [exact Hk|].
  destruct (has_ref b k); simpl; auto.
Qed.

Lemma strict_refs_insert_after_mono (b : ref) (new n : node) (x : ref) :
  In x (strict_refs n) -> In x (strict_refs (insert_after b new n)).
Proof.
  destruct n as [data | r t c kids]; simpl; [tauto|].
  unfold strict_refs. simpl. intros Hx.
  pose proof (refs_insert_after_mono b new (Elem r t c kids) x) as H. simpl in H.
  destruct H as [H | H]; [auto | | exact H].
  subst x. apply in_flat_map in Hx as (k & Hk & Hx).
  apply in_flat_map. exists (insert_after b new k).
  split; [|apply refs_insert_after_mono; exact Hx].
  apply in_flat_map. exists k. split; [exact Hk|].
  destruct (has_ref b k); simpl; auto.
Qed.

(** Where an element that is in the tree gets a next sibling, the
    sibling is in the tree. *)
Lemma refs_insert_after_new (b : ref) (new n : node) (a : ref) :
  In b (strict_refs n) -> In a (refs new) -> In a (refs (insert_after b new n)).
Proof.
  intros Hb Ha. revert Hb.
  induction n as [data | r t c kids IH] using node_ind_kids; [intros []|].
  unfold strict_refs. simpl. intros Hb. right.
  apply in_flat_map in Hb as (k & Hk & Hb).
  rewrite List.Forall_forall in IH.
  destruct k as [data | r' t' c' kids']; [destruct Hb|].
  destruct (Nat.eqb_spec r' b) as [-> | Hne].
  - apply in_flat_map. exists new. split; [|exact Ha].
    apply in_flat_map. exists (Elem b t' c' kids'). split; [exact Hk|].
    simpl. rewrite Nat.eqb_refl. simpl. auto.
  - destruct Hb as [Hb | Hb]; [congruence|].
    apply in_flat_map. exists (insert_after b new (Elem r' t' c' kids')).
    split; [|apply (IH _ Hk); exact Hb].
    apply in_flat_map. exists (Elem r' t' c' kids'). split; [exact Hk|].
    destruct (has_ref b (Elem r' t' c' kids')); simpl; auto.
Qed.

Lemma subtree_insert_after_new_only (b : ref) (new n m : node) (a : ref) :
  ref_of new = Some a -> ~ In a (refs n) ->
  subtree a (insert_after b new n) = Some m -> m = new.
Proof.
  intros Hnew. revert m.
  induction n as [data | r t c kids IH] using node_ind_kids; intros m Ha; [discriminate|].
  simpl insert_after. rewrite subtree_Elem.
  destruct (Nat.eqb_spec r a) as [-> | Hne]; [exfalso; apply Ha; left; reflexivity|].
  intros H. apply first_some_Some in H as (k' & Hk' & Hm).
  apply in_flat_map in Hk' as (k & Hk & Hk').
  rewrite List.Forall_forall in IH.
  assert (Hcases : k' = insert_after b new k \/ k' = new).
  { destruct (has_ref b k); simpl in Hk'; intuition (subst; auto). }
  destruct Hcases as [-> | ->].
  - apply (IH k Hk m); [|exact Hm]. intros Hin. apply Ha. right.
    apply in_flat_map. exists k. auto.
  - rewrite (subtree_self new a Hnew) in Hm. congruence.
Qed.

(** The new sibling is found under its reference, when the reference is
    new to the tree. *)
Lemma subtree_insert_after_new (b : ref) (new n : node) (a : ref) :
  ref_of new = Some a -> ~ In a (refs n) -> In b (strict_refs n) ->
  subtree a (insert_after b new n) = Some new.
Proof.
  intros Hnew Ha Hb.
  destruct (subtree a (insert_after b new n)) as [m|] eqn:Hm.
  - f_equal. eapply subtree_insert_after_new_only; eassumption.
  - exfalso. apply subtree_None in Hm. apply Hm.
    apply refs_insert_after_new; [exact Hb|].
    destruct new; simpl in *; [discriminate|]. left. congruence.
Qed.

(** ** Walking the tree *)

Lemma find_app {A} (p : A -> bool) (l1 l2 : list A) :
  List.find p (l1 ++ l2) =
    match List.find p l1 with Some x => Some x | None => List.find p l2 end.
Proof.
  induction l1 as [|x l1 IH]; simpl; [reflexivity|].
  destruct (p x); [reflexivity | exact IH].
Qed.

Lemma find_flat_map {A B} (p : B -> bool) (f : A -> list B) (l : list A) :
  List.find p (flat_map f l) = first_some (fun x => List.find p (f x)) l.
Proof.
  induction l as [|x l IH]; simpl; [reflexivity|].
  rewrite find_app, IH. reflexivity.
Qed.

Lemma first_some_ext {A B} (f g : A -> option B) (l : list A) :
  (forall x, In x l -> f x = g x) -> first_some f l = first_some g l.
Proof.
  induction l as [|x l IH]; simpl; [reflexivity|]. intros H.
  rewrite (H x) by auto. destruct (g x); [reflexivity|]. apply IH. auto.
Qed.

(** [locate_in] is the search for the reference along the walk. *)
Lemma locate_in_find (anc : list node) (r : ref) (n : node) :
  locate_in anc r n
    = List.find (fun c => has_ref r (loc_node c)) (self_and_descendants anc n).
Proof.
  revert anc. induction n as [data | r' t c kids IH] using node_ind_kids;
    intros anc; [reflexivity|].
  simpl locate_in.
  change (self_and_descendants anc (Elem r' t c kids))
    with ((anc, Elem r' t c kids)
          :: flat_map (self_and_descendants (Elem r' t c kids :: anc)) kids).
  cbn [List.find loc_node snd has_ref].
  destruct (Nat.eqb r' r); [reflexivity|].
  rewrite find_flat_map.
  apply first_some_ext. intros k Hk. rewrite List.Forall_forall in IH.
  apply (IH k Hk).
Qed.

Lemma locate_in_sound (anc : list node) (r : ref) (n : node) (c : located) :
  locate_in anc r n = Some c ->
  In c (self_and_descendants anc n) /\ ref_of (loc_node c) = Some r.
Proof.
  rewrite locate_in_find. intros H. apply find_some in H as [Hin Href].
  split; [exact Hin|]. destruct (loc_node c); simpl in *; [discriminate|].
  apply Nat.eqb_eq in Href. congruence.
Qed.

(** The references along the walk are the references of the tree. *)
Lemma self_and_descendants_refs (anc : list node) (n : node) :
  omap loc_ref (self_and_descendants anc n) = refs n.
Proof.
  revert anc. induction n as [data | r t c kids IH] using node_ind_kids;
    intros anc; [reflexivity|].
  change (self_and_descendants anc (Elem r t c kids))
    with ((anc, Elem r t c kids)
          :: flat_map (self_and_descendants (Elem r t c kids :: anc)) kids).
  change (refs (Elem r t c kids)) with (r :: flat_map refs kids).
  change (omap loc_ref ((anc, Elem r t c kids)
            :: flat_map (self_and_descendants (Elem r t c kids :: anc)) kids))
    with (r :: omap loc_ref
                 (flat_map (self_and_descendants (Elem r t c kids :: anc)) kids)).
  f_equal. generalize (Elem r t c kids :: anc). intros a.
  induction IH as [|k kids Hk _ IHkids]; [reflexivity|].
  cbn [flat_map]. rewrite omap_app, Hk, IHkids. reflexivity.
Qed.

Lemma descendants_refs (anc : list node) (n : node) :
  omap loc_ref (descendants anc n) = strict_refs n.
Proof.
  destruct n as [data | r t c kids]; [reflexivity|].
  pose proof (self_and_descendants_refs anc (Elem r t c kids)) as H.
  unfold self_and_descendants in H. simpl in H. injection H as H. exact H.
Qed.

(** What is below an element of the walk is in the walk. *)
Lemma descendants_trans (anc : list node) (n : node) (c : located) :
  In c (self_and_descendants anc n) ->
  incl (descendants (loc_ancestors c) (loc_node c)) (descendants anc n).
Proof.
  revert anc. induction n as [data | r t cl kids IH] using node_ind_kids;
    intros anc; simpl; [tauto|].
  intros [<- | Hc]; [apply incl_refl|].
  apply in_flat_map in Hc as (k & Hk & Hc). rewrite List.Forall_forall in IH.
  intros d Hd. apply in_flat_map. exists k. split; [exact Hk|].
  destruct k as [data | r' t' c' kids']; [destruct Hc|].
  right. apply (IH _ Hk (Elem r t cl kids :: anc)); assumption.
Qed.

Lemma find_by_ref_unique (l : list located) (c : located) (r : ref) :
  NoDup (omap loc_ref l) -> In c l -> ref_of (loc_node c) = Some r ->
  List.find (fun d => has_ref r (loc_node d)) l = Some c.
Proof.
  induction l as [|x l IH]; simpl; [tauto|].
  intros Hnd Hin Hr.
  destruct (loc_node x) as [data | r' t cl kids] eqn:Hx; simpl in *.
  - destruct Hin as [-> | Hin]; [rewrite Hx in Hr; discriminate|].
    unfold loc_ref in Hnd at 1. rewrite Hx in Hnd. simpl in Hnd. auto.
  - unfold loc_ref in Hnd at 1. rewrite Hx in Hnd. simpl in Hnd.
    apply NoDup_cons in Hnd as [Hnotin Hnd].
    destruct (Nat.eqb_spec r' r) as [-> | Hne].
    + destruct Hin as [-> | Hin]; [reflexivity|]. exfalso. apply Hnotin.
      apply (list_elem_of_omap loc_ref l r).
      exists c. split; [apply list_elem_of_In; exact Hin | exact Hr].
    + destruct Hin as [-> | Hin]; [rewrite Hx in Hr; simpl in Hr; congruence|].
      auto.
Qed.

(** With distinct references, the element met on the walk is the one its
    reference stands for. *)
Lemma subtree_unique (anc : list node) (n : node) (c : located) (r : ref) :
  NoDup (refs n) -> In c (self_and_descendants anc n) ->
  ref_of (loc_node c) = Some r -> subtree r n = Some (loc_node c).
Proof.
  intros Hnd Hin Hr. unfold subtree, locate.
  pose proof (subtree_in_any [] anc r n) as Hany.
  rewrite Hany, locate_in_find.
  rewrite (find_by_ref_unique _ c r); [reflexivity | | exact Hin | exact Hr].
  rewrite self_and_descendants_refs. exact Hnd.
Qed.

Lemma sublist_omap_filter {A B} (f : A -> option B) (p : A -> bool) (l : list A) :
  omap f (List.filter p l) `sublist_of` omap f l.
Proof.
  induction l as [|x l IH]; simpl; [reflexivity|].
  destruct (p x); simpl; destruct (f x); simpl.
  - apply sublist_skip. exact IH.
  - exact IH.
  - apply sublist_cons. exact IH.
  - exact IH.
Qed.

Lemma subtree_refs_sublist (r : ref) (n m : node) :
  subtree r n = Some m -> refs m `sublist_of` refs n.
Proof.
  revert m. induction n as [data | r' t c kids IH] using node_ind_kids; intros m.
  - discriminate.
  - rewrite subtree_Elem. destruct (Nat.eqb r' r).
    + intros [= <-]. reflexivity.
    + intros H. simpl. apply sublist_cons.
      induction IH as [|k kids Hk _ IHkids]; simpl in *; [discriminate|].
      destruct (subtree r k) as [m'|] eqn:Hm.
      * injection H as ->. apply sublist_inserts_r. apply Hk. reflexivity.
      * apply sublist_inserts_l. apply IHkids. exact H.
Qed.

End Tree.

(** * Properties of the translation session *)

Section Session.
Import JS Eff Dom Translator.

Variable fetch : list Event -> Request -> FetchResult.
Variable selector_valid : jsstring -> bool.
Variable selector_matches : jsstring -> node -> located -> bool.

(** Unfold the monad on both sides of a run. *)
Ltac run := unfold bind, ret, gets, get, modify, throw; simpl.

(** ** Settings *)

Lemma translateText_hit (text : jsstring) (v : jsval) (s : State) :
  cache s !! text = Some v -> truthy v = true ->
  translateText fetch text s = (Returned v, s).
Proof.
  intros Hc Hv. unfold translateText. run. rewrite Hc. simpl. rewrite Hv. reflexivity.
Qed.

(** C9. [updateSettings] replaces the settings and nothing else: the pair
    mapping, the tree (annotation nodes and hidden flags), the cache, the
    view, the reference counter and the events are as before; a text whose
    translation was cached before the update is still answered from the
    cache after it. *)
Theorem updateSettings_changes_settings_only (st : KissTranslatorSettings) (s : State) :
  exists s',
    updateSettings st s = (Returned tt, s') /\
    settings s' = st /\
    translated s' = translated s /\
    document s' = document s /\
    cache s' = cache s /\
    view s' = view s /\ next_ref s' = next_ref s /\ trace s' = trace s /\
    forall text v,
      cache s !! text = Some v -> truthy v = true ->
      translateText fetch text s' = (Returned v, s').
Proof.
  exists (set_settings st s). repeat (split; [reflexivity|]).
  intros text v Hc Hv. apply translateText_hit; assumption.
Qed.

(** ** Templates *)

(** A replacement text without a dollar sign stands for itself. *)
Lemma expand_replacement_plain (repl matched before after : jsstring) :
  ~ In 36%N repl -> expand_replacement repl matched before after = repl.
Proof.
  induction repl as [|c repl IH]; intros Hplain; simpl; [reflexivity|].
  destruct (N.eqb_spec c 36) as [-> | Hc].
  - exfalso. apply Hplain. left. reflexivity.
  - rewrite IH; [reflexivity|]. intros Hin. apply Hplain. right. exact Hin.
Qed.

(** ** Chat requests *)

(** The chat backend issues one request, whose messages are the system
    message, when the system prompt is not blank, and then the user
    message. *)
Lemma chat_messages_shape (st : KissTranslatorSettings) (text : jsstring) :
  chat_messages st text =
    (if str_truthy (trim (systemPrompt st))
     then [{| role := lit "system"; content := fillTemplate st (systemPrompt st) text |}]
     else [])
    ++ [{| role := lit "user"; content := fillTemplate st (userPrompt st) text |}] /\
  last (chat_messages st text)
    = Some {| role := lit "user"; content := fillTemplate st (userPrompt st) text |} /\
  (length (chat_messages st text) = 2%nat <-> trim (systemPrompt st) <> []) /\
  (length (chat_messages st text) = 1%nat <-> trim (systemPrompt st) = []).
Proof.
  unfold chat_messages.
  destruct (trim (systemPrompt st)) as [|c r]; simpl.
  - repeat split; try (intros; congruence); intros; simpl in *; lia.
  - repeat split; try (intros; congruence); intros; simpl in *; lia.
Qed.

Lemma fillTemplate_hello :
  fillTemplate Fixtures.chat_settings (lit "Translate {text} from {from} to {to}")
    (lit "Hello") = lit "Translate Hello from en to zh".
Proof. vm_compute. reflexivity. Qed.

Lemma translateWithOpenAI_configured (st : KissTranslatorSettings) (text : jsstring)
    (s : State) :
  settings s = st -> chat_configured st ->
  translateWithOpenAI fetch text s =
    match fetch (trace s) (chat_request st text) with
    | FetchRejected => (Thrown FetchFailed, log_event (Fetched (chat_request st text)) s)
    | FetchResolved res =>
        let s' := log_event (Fetched (chat_request st text)) s in
        if negb (ok res) then (Thrown (ChatStatus (status res) (body_text res)), s')
        else match body_json res with
             | None => (Thrown ChatParse, s')
             | Some data =>
                 match completion_content data with
                 | VStr c => (Returned (VStr (trim c)), s')
                 | _ => (Returned (VStr []), s')
                 end
             end
    end.
Proof.
  intros Hst (Hu & Hk & Hm & Hp). unfold translateWithOpenAI. run. rewrite Hst.
  destruct (apiUrl st); [congruence|]. destruct (apiKey st); [congruence|].
  destruct (model st); [congruence|]. destruct (trim (userPrompt st)); [congruence|].
  simpl. unfold do_fetch.
  destruct (fetch (trace s) _) as [|res]; [reflexivity|].
  destruct (ok res); simpl; [|reflexivity].
  destruct (body_json res) as [data|]; [|reflexivity].
  destruct (completion_content data); reflexivity.
Qed.

(** C7 (where the code departs from it). The text is handed to
    [String.prototype.replace] as the replacement string, in which a
    dollar sign is special: for the user prompt
    ["Translate {text} from {from} to {to}"] and the text ["echo $$"] the
    user message sent is ["Translate echo $ from en to zh"], where
    substituting the text as it is gives
    ["Translate echo $$ from en to zh"]; and for the text ["$&"] the
    placeholder is replaced by itself. *)
Theorem fillTemplate_interprets_dollar :
  let st := Fixtures.chat_settings in
  chat_messages st (lit "echo $$")
    = [{| role := lit "user"; content := lit "Translate echo $ from en to zh" |}] /\
  fill_literally st (userPrompt st) (lit "echo $$")
    = lit "Translate echo $$ from en to zh" /\
  fillTemplate st (userPrompt st) (lit "echo $$")
    <> fill_literally st (userPrompt st) (lit "echo $$") /\
  fillTemplate st (lit "Translate {text}") (lit "$&") = lit "Translate {text}" /\
  trace (snd (translateWithOpenAI (Fixtures.fetch_reply Fixtures.bonjour)
                (lit "echo $$") Fixtures.fresh))
    = [Fetched {| req_url := apiUrl st; req_method := lit "POST";
                  req_content_type := lit "application/json";
                  req_authorization := Some (lit "Bearer sk-test");
                  req_body :=
                    ChatBody (lit "gpt-4o-mini")
                      [{| role := lit "user";
                          content := lit "Translate echo $ from en to zh" |}]
                      (lit "0.2") false |}].
Proof.
  repeat split; try (vm_compute; reflexivity).
  vm_compute. discriminate.
Qed.

(** ** Answers without a translation *)

Lemma translateText_miss (text : jsstring) (s : State) :
  truthy (default VUndefined (cache s !! text)) = false ->
  translateText fetch text s =
    match callBackend fetch (apiType (settings s)) text s with
    | (Returned v, s') =>
        if truthy v
        then (Returned v, set_cache (<[text := v]> (cache s')) s')
        else (Thrown EmptyTranslation, s')
    | (Thrown e, s') => (Thrown e, s')
    end.
Proof.
  intros Hmiss. unfold translateText. run. rewrite Hmiss.
  destruct (callBackend fetch (apiType (settings s)) text s) as [[v|e] s']; [|reflexivity].
  destruct (truthy v); reflexivity.
Qed.

(** C8 (as the code has it). A 2xx chat answer whose
    [choices[0].message.content] is missing or not a string does not make
    the backend call fail: [translateWithOpenAI] returns the empty string,
    and [translateText], on a cache miss, then throws the empty-translation
    error, which carries nothing of the response. *)
Theorem chat_missing_content_is_empty_result (s : State) (text : jsstring)
    (res : Response) (data : jsval) :
  let called := log_event (BackendCalled openai text) s in
  let sent := log_event (Fetched (chat_request (settings s) text)) called in
  apiType (settings s) = openai ->
  chat_configured (settings s) ->
  fetch (trace called) (chat_request (settings s) text) = FetchResolved res ->
  ok res = true ->
  body_json res = Some data ->
  (forall c, completion_content data <> VStr c) ->
  translateWithOpenAI fetch text called = (Returned (VStr []), sent) /\
  (truthy (default VUndefined (cache s !! text)) = false ->
   translateText fetch text s = (Thrown EmptyTranslation, sent)).
Proof.
  intros called sent Hapi Hcfg Hfetch Hok Hjson Hcontent.
  assert (Hbackend : translateWithOpenAI fetch text called = (Returned (VStr []), sent)).
  { rewrite (translateWithOpenAI_configured (settings s)); [|reflexivity|assumption].
    rewrite Hfetch. simpl. rewrite Hok, Hjson. simpl.
    destruct (completion_content data) eqn:Hc; try reflexivity.
    exfalso. eapply Hcontent. reflexivity. }
  split; [exact Hbackend|].
  intros Hmiss. rewrite translateText_miss by assumption.
  unfold callBackend. run. rewrite Hapi.
  fold called. rewrite Hbackend. reflexivity.
Qed.

(** ** Running the methods *)

Lemma clear_run (s : State) : clear s = (Returned tt, cleared s).
Proof. reflexivity. Qed.

Lemma cleared_fields (s : State) :
  translated (cleared s) = [] /\
  document (cleared s)
    = fold_left (fun doc pair => remove_node (snd pair) doc) (translated s) (document s) /\
  settings (cleared s) = settings s /\ cache (cleared s) = cache s /\
  view (cleared s) = view s /\ next_ref (cleared s) = next_ref s /\
  trace (cleared s) = trace s.
Proof. repeat split; reflexivity. Qed.

Lemma collectBlocks_run (r : ref) (s : State) :
  collectBlocks selector_valid selector_matches r s = (Returned (blocks_of selector_valid selector_matches r s), s).
Proof. reflexivity. Qed.

Lemma for_each_app {A} (f : A -> Op unit) (l1 l2 : list A) (s : State) :
  for_each f (l1 ++ l2) s =
    match for_each f l1 s with
    | (Returned _, s') => for_each f l2 s'
    | (Thrown e, s') => (Thrown e, s')
    end.
Proof.
  revert s. induction l1 as [|x l1 IH]; intros s; simpl; [reflexivity|].
  unfold bind. destruct (f x s) as [[[]|e] s']; [apply IH | reflexivity].
Qed.

Lemma translate_run (rootOverride : option ref) (s : State) (r : ref) :
  effective_root rootOverride s = Some r ->
  translate fetch selector_valid selector_matches rootOverride s =
    match for_each (translateBlock fetch)
            (blocks_of selector_valid selector_matches r (cleared s)) (cleared s) with
    | (Returned _, s2) => applyOriginalVisibility s2
    | (Thrown e, s2) => (Thrown e, s2)
    end.
Proof.
  intros Hroot. unfold translate.
  assert (Hr : (match rootOverride with
                | Some r0 => ret (Some r0)
                | None => findPreviewRoot
                end) s = (Returned (Some r), s)).
  { unfold effective_root in Hroot. destruct rootOverride as [r0|].
    - injection Hroot as ->. reflexivity.
    - unfold findPreviewRoot in *. unfold bind, get, ret in *. simpl in *.
      rewrite Hroot. reflexivity. }
  unfold bind at 1. rewrite Hr.
  unfold bind at 1. rewrite clear_run.
  unfold bind at 1. rewrite collectBlocks_run.
  unfold bind at 1.
  destruct (for_each _ _ _) as [[[]|e] s2]; reflexivity.
Qed.

Lemma short_text (text : jsstring) :
  negb (str_truthy text) || (length text <? 2)%nat = (length text <? 2)%nat.
Proof. destruct text as [|c [|d text]]; reflexivity. Qed.

Lemma translateText_run (text : jsstring) (s : State) :
  translateText fetch text s =
    if cached text s then (Returned (default VUndefined (cache s !! text)), s)
    else
      match callBackend fetch (apiType (settings s)) text s with
      | (Returned v, s') =>
          if truthy v
          then (Returned v, set_cache (<[text := v]> (cache s')) s')
          else (Thrown EmptyTranslation, s')
      | (Thrown e, s') => (Thrown e, s')
      end.
Proof.
  unfold cached. destruct (truthy (default VUndefined (cache s !! text))) eqn:Hc.
  - unfold translateText. run. rewrite Hc. reflexivity.
  - apply translateText_miss. exact Hc.
Qed.

Lemma translateBlock_run (b : ref) (s : State) :
  translateBlock fetch b s =
    if (length (block_text b s) <? 2)%nat then (Returned tt, s)
    else
      match translateText fetch (block_text b s) s with
      | (Returned v, s') =>
          if truthy v then (Returned tt, annotated b v s') else (Returned tt, s')
      | (Thrown e, s') => (Thrown e, s')
      end.
Proof.
  unfold translateBlock, block_text. run. rewrite short_text.
  destruct (length _ <? 2)%nat; [reflexivity|].
  destruct (translateText fetch _ s) as [[v|e] s']; [|reflexivity].
  destruct (truthy v); reflexivity.
Qed.

(** ** What a backend call changes *)

Lemma do_fetch_frame (req : Request) (s s' : State) (res : outcome Error Response) :
  do_fetch fetch req s = (res, s') -> s' = log_event (Fetched req) s.
Proof.
  unfold do_fetch. destruct (fetch (trace s) req); intros [= _ <-]; reflexivity.
Qed.

Lemma translateWithOpenAI_frame (text : jsstring) (s s' : State)
    (res : outcome Error jsval) :
  translateWithOpenAI fetch text s = (res, s') ->
  s' = s \/ exists req, s' = log_event (Fetched req) s.
Proof.
  unfold translateWithOpenAI. run.
  repeat (match goal with
          | |- context [if ?c then _ else _] => destruct c
          end; simpl; try (intros [= _ <-]; left; reflexivity)).
  destruct (do_fetch fetch _ s) as [[r|e] s1] eqn:Hf;
    apply do_fetch_frame in Hf; subst s1;
    [|intros [= _ <-]; right; eexists; reflexivity].
  intros H. right. eexists.
  repeat match type of H with
         | context [match ?x with _ => _ end] => destruct x
         end; injection H as _ <-; reflexivity.
Qed.

Lemma translateWithSimple_frame (text : jsstring) (s s' : State)
    (res : outcome Error jsval) :
  translateWithSimple fetch text s = (res, s') ->
  s' = s \/ exists req, s' = log_event (Fetched req) s.
Proof.
  unfold translateWithSimple. run.
  repeat (match goal with
          | |- context [if ?c then _ else _] => destruct c
          end; simpl; try (intros [= _ <-]; left; reflexivity)).
  destruct (do_fetch fetch _ s) as [[r|e] s1] eqn:Hf;
    apply do_fetch_frame in Hf; subst s1;
    [|intros [= _ <-]; right; eexists; reflexivity].
  intros H. right. eexists.
  repeat match type of H with
         | context [match ?x with _ => _ end] => destruct x
         end; injection H as _ <-; reflexivity.
Qed.

Lemma callBackend_frame (api : ApiType) (text : jsstring) (s s' : State)
    (res : outcome Error jsval) :
  callBackend fetch api text s = (res, s') ->
  same_but_trace s s' /\
  exists evs, trace s' = trace s ++ evs /\ backend_events api text evs.
Proof.
  unfold callBackend. run. intros H.
  assert (Hcases : s' = log_event (BackendCalled api text) s \/
                   exists req, s' = log_event (Fetched req)
                                      (log_event (BackendCalled api text) s)).
  { destruct api.
    - apply translateWithSimple_frame in H. exact H.
    - apply translateWithOpenAI_frame in H. exact H. }
  destruct Hcases as [-> | [req ->]].
  - split; [repeat split|]. eexists. split; [reflexivity|]. left. reflexivity.
  - split; [repeat split|]. exists [BackendCalled api text; Fetched req].
    split; [simpl; rewrite <- app_assoc; reflexivity|]. right. eexists. reflexivity.
Qed.

Lemma translateText_throws (text : jsstring) (s s' : State) (e : Error) :
  translateText fetch text s = (Thrown e, s') ->
  same_but_trace s s' /\ cached text s = false /\
  exists evs, trace s' = trace s ++ evs /\
              backend_events (apiType (settings s)) text evs.
Proof.
  rewrite translateText_run. destruct (cached text s); [discriminate|].
  destruct (callBackend fetch _ text s) as [[v|e'] s1] eqn:Hb;
    apply callBackend_frame in Hb as [Hsame Hevs].
  - destruct (truthy v); [discriminate|]. intros [= _ <-]. auto.
  - intros [= _ <-]. auto.
Qed.

Lemma translateBlock_throws (b : ref) (s s' : State) (e : Error) :
  translateBlock fetch b s = (Thrown e, s') ->
  same_but_trace s s' /\ (2 <= length (block_text b s))%nat /\
  cached (block_text b s) s = false /\
  exists evs, trace s' = trace s ++ evs /\
              backend_events (apiType (settings s)) (block_text b s) evs.
Proof.
  rewrite translateBlock_run. destruct (Nat.ltb_spec (length (block_text b s)) 2);
    [discriminate|].
  destruct (translateText fetch _ s) as [[v|e'] s1] eqn:Ht.
  - destruct (truthy v); discriminate.
  - intros [= <- <-]. apply translateText_throws in Ht as (Hsame & Hmiss & Hevs). auto.
Qed.

(** ** [clear] *)

Lemma class_lists_fold_remove (l : list (ref * ref)) (d : node) :
  class_lists (fold_left (fun doc pair => remove_node (snd pair) doc) l d)
    `sublist_of` class_lists d.
Proof.
  revert d. induction l as [|p l IH]; intros d; simpl; [reflexivity|].
  etransitivity; [apply IH | apply class_lists_remove_node].
Qed.

(** C1 (where the code departs from it). [clear] removes the annotations
    and empties the pair mapping, but it changes no class list: every
    element left in the tree has the class list it had, because [clear]
    empties the mapping before [restoreOriginalVisibility] walks it. So
    after a translation with the originals hidden, the originals keep the
    hidden flag through [clear]. *)
Theorem clear_leaves_originals_hidden :
  (forall s,
      clear s = (Returned tt, cleared s) /\
      translated (cleared s) = [] /\
      class_lists (document (cleared s)) `sublist_of` class_lists (document s)) /\
  let s := Fixtures.hidden_state in
  let s' := snd (clear s) in
  translated s = [(1, 100); (2, 101); (6, 102); (7, 103)]%nat /\
  Forall (fun o => option_map (fun c => has_class HIDE_ORIGINAL_CLASS (loc_node c))
                     (locate o (document s)) = Some true) [1; 2; 6; 7]%nat /\
  fst (clear s) = Returned tt /\
  translated s' = [] /\
  Forall (fun a => locate a (document s') = None) [100; 101; 102; 103]%nat /\
  Forall (fun o => option_map (fun c => has_class HIDE_ORIGINAL_CLASS (loc_node c))
                     (locate o (document s')) = Some true) [1; 2; 6; 7]%nat.
Proof.
  split.
  - intros s. split; [reflexivity|]. split; [reflexivity|].
    destruct (cleared_fields s) as (_ & -> & _). apply class_lists_fold_remove.
  - vm_compute. repeat split; repeat constructor.
Qed.

(** ** Selection *)

Lemma str_eqb_eq (a b : jsstring) : str_eqb a b = true <-> a = b.
Proof. unfold str_eqb. apply bool_decide_eq_true. Qed.

Lemma tag_in_In (tags : list jsstring) (n : node) :
  tag_in tags n = true <-> In (tagName n) tags.
Proof.
  unfold tag_in. rewrite existsb_exists. split.
  - intros (t & Ht & Heq). apply str_eqb_eq in Heq. congruence.
  - intros H. exists (tagName n). split; [exact H | apply str_eqb_eq; reflexivity].
Qed.

Lemma isInSkipArea_spec (st : KissTranslatorSettings) (doc : node) (c : located) :
  isInSkipArea selector_valid selector_matches st doc c = true
  <-> within_skip_area selector_valid selector_matches st doc c.
Proof.
  unfold isInSkipArea, within_skip_area, closest. rewrite existsb_exists. split.
  - intros (sel & Hsel & H). apply andb_true_iff in H as [Hne H].
    destruct (selector_valid sel) eqn:Hvalid; [|discriminate].
    destruct (List.find _ _) as [a|] eqn:Hfind; [|discriminate].
    apply find_some in Hfind as [Ha Hm].
    exists sel, a. repeat split; try assumption.
    destruct sel; [discriminate | congruence].
  - intros (sel & a & Hsel & Hne & Hvalid & Ha & Hm).
    exists sel. split; [exact Hsel|]. rewrite Hvalid.
    destruct sel as [|ch sel]; [congruence|].
    change (str_truthy (ch :: sel)) with true. cbn [andb].
    destruct (List.find _ _) eqn:Hfind; [reflexivity|].
    eapply find_none in Hfind; [|exact Ha]. congruence.
Qed.

(** The filter of [collectBlocks] keeps a candidate exactly when the
    candidate is eligible. *)
Lemma keeps_Eligible (st : KissTranslatorSettings) (doc : node) (c : located) :
  keeps selector_valid selector_matches st doc c = true
  <-> Eligible selector_valid selector_matches st doc c.
Proof.
  unfold keeps, Eligible.
  pose proof (isInSkipArea_spec st doc c) as Hskip.
  destruct (isInSkipArea selector_valid selector_matches st doc c).
  { split; [discriminate|]. intros [H _]. exfalso. apply H, Hskip. reflexivity. }
  assert (Hout : ~ within_skip_area selector_valid selector_matches st doc c).
  { intros H. apply Hskip in H. discriminate. }
  destruct (has_class TRANSLATION_CLASS (loc_node c)) eqn:Hself.
  { split; [discriminate|]. intros (_ & H & _).
    rewrite (H c) in Hself; [discriminate | left; reflexivity]. }
  destruct (existsb (has_class TRANSLATION_CLASS) (map loc_node (self_and_ancestors c)))
    eqn:Hanc.
  { split; [discriminate|]. intros (_ & H & _).
    apply existsb_exists in Hanc as (n & Hn & Hcls).
    apply in_map_iff in Hn as (a & <- & Ha). rewrite (H a Ha) in Hcls. discriminate. }
  assert (Hnoann : forall a, In a (self_and_ancestors c) ->
                             has_class TRANSLATION_CLASS (loc_node a) = false).
  { intros a Ha. destruct (has_class TRANSLATION_CLASS (loc_node a)) eqn:Hcls;
      [|reflexivity].
    assert (existsb (has_class TRANSLATION_CLASS)
              (map loc_node (self_and_ancestors c)) = true) as Habs; [|congruence].
    apply existsb_exists. exists (loc_node a). split; [|exact Hcls].
    apply in_map. exact Ha. }
  destruct (existsb (fun d => tag_in control_tags (loc_node d))
              (descendants (loc_ancestors c) (loc_node c))) eqn:Hctl.
  { split; [discriminate|]. intros (_ & _ & H & _).
    apply existsb_exists in Hctl as (d & Hd & Htag).
    apply tag_in_In in Htag. exfalso. exact (H d Hd Htag). }
  assert (Hnoctl : forall d, In d (descendants (loc_ancestors c) (loc_node c)) ->
                             ~ In (tagName (loc_node d)) control_tags).
  { intros d Hd Htag. apply tag_in_In in Htag.
    assert (existsb (fun d => tag_in control_tags (loc_node d))
              (descendants (loc_ancestors c) (loc_node c)) = true) as Habs; [|congruence].
    apply existsb_exists. exists d. auto. }
  destruct (children (loc_node c)) as [|k ks] eqn:Hkids; simpl.
  2: { split; [discriminate|]. intros (_ & _ & _ & H & _). discriminate. }
  cbv zeta. generalize (normalizeText (innerText (loc_node c))). intros text.
  destruct (str_truthy text) eqn:Hne; cbn [negb].
  2: { split; [discriminate|]. intros (_ & _ & _ & _ & H).
       destruct text; [simpl in H; lia | discriminate]. }
  destruct (Nat.ltb_spec (length text) 2) as [Hshort | Hlong].
  { split; [discriminate|]. intros (_ & _ & _ & _ & H). lia. }
  destruct (Nat.ltb_spec 160 (length text)) as [Hover | Hfits].
  { split; [discriminate|]. intros (_ & _ & _ & _ & H). lia. }
  split; [|reflexivity]. intros _. repeat split; auto; lia.
Qed.

Lemma candidates_spec (doc : node) (root : ref) (c : located) :
  In c (candidates doc root) <->
  exists c0, locate root doc = Some c0 /\
             In c (descendants (loc_ancestors c0) (loc_node c0)) /\
             In (tagName (loc_node c)) textual_tags.
Proof.
  unfold candidates. destruct (locate root doc) as [c0|].
  - rewrite filter_In, tag_in_In. split.
    + intros [Hd Ht]. exists c0. auto.
    + intros (c0' & [= <-] & Hd & Ht). auto.
  - split; [intros [] | intros (c0 & H & _); discriminate].
Qed.

(** A candidate is an element of the document, found under its reference
    when the references are distinct. *)
Lemma candidate_in_document (doc : node) (root : ref) (c : located) :
  In c (candidates doc root) -> In c (descendants [] doc).
Proof.
  intros H. apply candidates_spec in H as (c0 & Hloc & Hd & _).
  apply locate_in_sound in Hloc as [Hc0 _].
  destruct doc as [data | r t cl kids]; [destruct Hc0|].
  destruct Hc0 as [<- | Hc0]; [exact Hd|].
  eapply descendants_trans; [|exact Hd].
  right. exact Hc0.
Qed.


Lemma blocks_NoDup (st : KissTranslatorSettings) (doc : node) (root : ref) :
  NoDup (refs doc) -> NoDup (omap loc_ref (selected selector_valid selector_matches st doc root)).
Proof.
  intros Hnd. unfold selected, candidates.
  destruct (locate root doc) as [c0|] eqn:Hloc; [|constructor].
  eapply sublist_NoDup; [|apply sublist_omap_filter].
  eapply sublist_NoDup; [|apply sublist_omap_filter].
  rewrite descendants_refs.
  assert (Hsub : subtree root doc = Some (loc_node c0)).
  { unfold subtree. rewrite Hloc. reflexivity. }
  apply subtree_refs_sublist in Hsub.
  eapply sublist_NoDup in Hsub; [|exact Hnd].
  destruct (loc_node c0) as [data | r t cl kids]; [constructor|].
  unfold strict_refs. simpl in *. apply NoDup_cons in Hsub as [_ H]. exact H.
Qed.


(** ** The pair mapping *)

Lemma map_get_set_eq (k v : ref) (m : list (ref * ref)) :
  map_get k (map_set k v m) = Some v.
Proof.
  induction m as [|[k' v'] m IH]; simpl.
  - rewrite Nat.eqb_refl. reflexivity.
  - destruct (Nat.eqb k' k) eqn:Hk; simpl; rewrite Hk; [reflexivity | exact IH].
Qed.

Lemma map_get_set_ne (k k' v : ref) (m : list (ref * ref)) :
  k' <> k -> map_get k' (map_set k v m) = map_get k' m.
Proof.
  intros Hne. induction m as [|[k0 v0] m IH]; simpl.
  - destruct (Nat.eqb_spec k k'); [congruence | reflexivity].
  - destruct (Nat.eqb_spec k0 k) as [-> | Hk]; simpl.
    + destruct (Nat.eqb_spec k k'); [congruence | reflexivity].
    + destruct (Nat.eqb k0 k'); [reflexivity | exact IH].
Qed.

Lemma map_set_In (k v k' v' : ref) (m : list (ref * ref)) :
  In (k', v') (map_set k v m) -> (k' = k /\ v' = v) \/ In (k', v') m.
Proof.
  induction m as [|[k0 v0] m IH]; simpl.
  - intros [[= <- <-] | []]. auto.
  - destruct (Nat.eqb_spec k0 k) as [-> | Hk]; simpl.
    + intros [[= <- <-] | H]; auto.
    + intros [H | H]; [auto|]. destruct (IH H); auto.
Qed.

Lemma map_get_In (k v : ref) (m : list (ref * ref)) :
  map_get k m = Some v -> In (k, v) m.
Proof.
  induction m as [|[k0 v0] m IH]; simpl; [discriminate|].
  destruct (Nat.eqb_spec k0 k) as [-> | Hk].
  - intros [= ->]. auto.
  - auto.
Qed.

Lemma map_get_set_Some (k v k' : ref) (m : list (ref * ref)) :
  is_Some (map_get k' m) -> is_Some (map_get k' (map_set k v m)).
Proof.
  destruct (Nat.eq_dec k' k) as [-> | Hne].
  - intros _. rewrite map_get_set_eq. eauto.
  - rewrite map_get_set_ne by exact Hne. auto.
Qed.

(** ** The annotation element *)

Lemma annotation_children (a : ref) (v : jsval) : children (annotation a v) = [].
Proof. unfold annotation, children. simpl. destruct (ToString v); reflexivity. Qed.

Lemma annotation_refs (a : ref) (v : jsval) : refs (annotation a v) = [a].
Proof. unfold annotation. simpl. destruct (ToString v); reflexivity. Qed.

Lemma annotation_innerText (a : ref) (v : jsval) :
  innerText (annotation a v) = ToString v.
Proof.
  unfold annotation. simpl. destruct (ToString v); simpl; [reflexivity|].
  rewrite app_nil_r. reflexivity.
Qed.

Lemma annotation_update_classes (f : list jsstring -> list jsstring) (x a : ref)
    (v : jsval) :
  x <> a -> update_classes f x (annotation a v) = annotation a v.
Proof.
  intros Hne. unfold annotation. simpl.
  destruct (Nat.eqb_spec a x); [congruence|].
  destruct (ToString v); reflexivity.
Qed.

(** ** What a translation that returns changes *)

Lemma cached_Some (text : jsstring) (s : State) :
  cached text s = true ->
  exists v, cache s !! text = Some v /\ truthy v = true.
Proof.
  unfold cached. destruct (cache s !! text) as [v|]; simpl; [eauto | discriminate].
Qed.

Lemma cached_lookup (text : jsstring) (s : State) (v : jsval) :
  cache s !! text = Some v -> cached text s = truthy v.
Proof. unfold cached. intros ->. reflexivity. Qed.

Lemma backend_calls_app (t : jsstring) (l1 l2 : list Event) :
  backend_calls t (l1 ++ l2) = (backend_calls t l1 + backend_calls t l2)%nat.
Proof. unfold backend_calls. rewrite List.filter_app, length_app. reflexivity. Qed.

Lemma backend_calls_events (api : ApiType) (u t : jsstring) (evs : list Event) :
  backend_events api u evs ->
  backend_calls t evs = if str_eqb u t then 1%nat else 0%nat.
Proof.
  intros [-> | [req ->]]; unfold backend_calls; simpl;
    destruct (str_eqb u t); reflexivity.
Qed.

Lemma translateText_returns (text : jsstring) (s s0 : State) (v : jsval) :
  translateText fetch text s = (Returned v, s0) ->
  truthy v = true /\
  view s0 = view s /\ settings s0 = settings s /\ translated s0 = translated s /\
  document s0 = document s /\ next_ref s0 = next_ref s /\
  cache s0 !! text = Some v /\
  (forall t, t <> text -> cache s0 !! t = cache s !! t) /\
  (cached text s = true -> cache s0 = cache s /\ trace s0 = trace s) /\
  (cached text s = false ->
   exists evs, trace s0 = trace s ++ evs /\
               backend_events (apiType (settings s)) text evs).
Proof.
  rewrite translateText_run. destruct (cached text s) eqn:Hc.
  - intros [= <- <-]. apply cached_Some in Hc as (v & Hv & Ht). rewrite Hv. simpl.
    repeat split; auto; discriminate.
  - destruct (callBackend fetch _ text s) as [[v'|e] sb] eqn:Hb; [|discriminate].
    destruct (truthy v') eqn:Ht; [|discriminate].
    intros [= <- <-].
    apply callBackend_frame in Hb as [(Hv & Hs & Htr & Hca & Hd & Hn) Hevs].
    simpl. repeat split; auto.
    + rewrite lookup_insert_eq. reflexivity.
    + intros t Hne. rewrite lookup_insert_ne by congruence. rewrite Hca. reflexivity.
    + discriminate.
    + discriminate.
Qed.

(** ** The loop of [translate] *)

Lemma loop_inv_start (s1 : State) :
  well_formed s1 -> translated s1 = [] -> loop_inv s1 s1.
Proof.
  intros [Hnd Hbound] Hempty. constructor; auto.
  - rewrite Hempty. intros b a [].
  - exists []. split; [rewrite app_nil_r; reflexivity|].
    intros t. destruct (cached t s1); reflexivity.
Qed.

(** The text [translateBlock] reads from a block is the text the block
    had when it was collected. *)
Lemma block_text_stable (s1 s : State) (b : ref) :
  loop_inv s1 s -> block_ok s1 b ->
  block_text b s = block_text b s1 /\ (2 <= length (block_text b s))%nat.
Proof.
  intros Hinv (Hlt & _ & el & Hsub & Hleaf & Hlen).
  pose proof (inv_stable _ _ Hinv b el Hlt Hsub Hleaf) as Hnow.
  unfold block_text, innerText_of. rewrite Hnow, Hsub. auto.
Qed.

Lemma translateBlock_step (s1 s s' : State) (b : ref) :
  loop_inv s1 s -> block_ok s1 b ->
  translateBlock fetch b s = (Returned tt, s') ->
  loop_inv s1 s' /\
  (forall b', is_Some (map_get b' (translated s)) ->
              is_Some (map_get b' (translated s'))) /\
  is_Some (map_get b (translated s')).
Proof.
  intros Hinv Hok Hrun.
  destruct (block_text_stable s1 s b Hinv Hok) as [Htext Hlen].
  rewrite translateBlock_run in Hrun.
  destruct (Nat.ltb_spec (length (block_text b s)) 2) as [Hshort | _]; [lia|].
  destruct (translateText fetch (block_text b s) s) as [[v|e] s0] eqn:Ht; [|discriminate].
  apply translateText_returns in Ht
    as (Htruthy & Hview & Hset & Htr & Hdoc & Hnext & Hhere & Hother & Hhit & Hmiss).
  rewrite Htruthy in Hrun. injection Hrun as <-.
  destruct Hok as (Hblt & Hbstrict & el & Hsub & Hleaf & _).
  destruct Hinv as [Isettings Inext Ibound Istable Istrict Ipairs Icache Icalls].
  assert (Hfresh : ~ In (next_ref s) (refs (document s))).
  { intros Hin. apply Ibound in Hin. lia. }
  split; [|split].
  - constructor; simpl.
    + rewrite Hset. exact Isettings.
    + rewrite Hnext. lia.
    + rewrite Hnext, Hdoc. intros x Hx.
      apply refs_insert_after_incl in Hx as [Hx | Hx].
      * apply Ibound in Hx. lia.
      * rewrite annotation_refs in Hx. destruct Hx as [<- | []]. lia.
    + intros b' el' Hlt' Hsub' Hleaf'. rewrite Hnext, Hdoc.
      rewrite subtree_insert_after.
      * rewrite (Istable b' el' Hlt' Hsub' Hleaf'). cbn [option_map].
        rewrite insert_after_leaf by exact Hleaf'. reflexivity.
      * rewrite annotation_refs. intros [<- | []]. lia.
    + intros b' Hb'. rewrite Hdoc. apply strict_refs_insert_after_mono.
      apply Istrict. exact Hb'.
    + intros b' a' Hin. rewrite Hnext, Hdoc, Htr in *.
      apply map_set_In in Hin as [[-> ->] | Hin].
      * split; [exact Hblt|]. split; [lia|].
        exists v. split; [rewrite <- Htext; exact Hhere|]. split; [exact Htruthy|].
        apply subtree_insert_after_new; [reflexivity | exact Hfresh|].
        apply Istrict. exact Hbstrict.
      * destruct (Ipairs b' a' Hin) as (Hb' & Ha' & v' & Hc' & Ht' & Hs').
        split; [exact Hb'|]. split; [lia|].
        exists v'. split; [|split; [exact Ht'|]].
        -- destruct (decide (block_text b' s1 = block_text b s)) as [Heq | Hne].
           ++ rewrite Heq in *.
              destruct (cached (block_text b s) s) eqn:Hc.
              ** destruct (Hhit eq_refl) as [-> _]. exact Hc'.
              ** rewrite (cached_lookup _ _ _ Hc') in Hc. congruence.
           ++ rewrite Hother by exact Hne. exact Hc'.
        -- rewrite subtree_insert_after.
           ++ rewrite Hs'. cbn [option_map].
              rewrite insert_after_leaf by apply annotation_children. reflexivity.
           ++ rewrite annotation_refs. intros [<- | []]. lia.
    + intros t Hc1. rewrite <- (Icache t Hc1).
      destruct (decide (t = block_text b s)) as [-> | Hne].
      * destruct (cached (block_text b s) s) eqn:Hc.
        -- destruct (Hhit eq_refl) as [-> _]. reflexivity.
        -- unfold cached in Hc, Hc1. rewrite (Icache _ Hc1) in Hc. congruence.
      * apply Hother. exact Hne.
    + destruct Icalls as (evs & Hevs & Hcount).
      destruct (cached (block_text b s) s) eqn:Hc.
      * destruct (Hhit eq_refl) as [Hcache Htrace].
        exists evs. split; [rewrite Htrace; exact Hevs|].
        intros t. rewrite Hcount.
        change (cached t (annotated b v s0)) with (cached t s0).
        unfold cached. rewrite Hcache. reflexivity.
      * destruct (Hmiss eq_refl) as (bevs & Htrace & Hbevs).
        exists (evs ++ bevs). split; [rewrite Htrace, Hevs, app_assoc; reflexivity|].
        intros t. rewrite backend_calls_app, Hcount.
        rewrite (backend_calls_events _ _ t _ Hbevs).
        change (cached t (annotated b v s0)) with (cached t s0).
        destruct (decide (block_text b s = t)) as [<- | Hne].
        -- assert (Hc1 : cached (block_text b s) s1 = false).
           { destruct (cached (block_text b s) s1) eqn:Hc1; [|reflexivity].
             unfold cached in Hc, Hc1. rewrite (Icache _ Hc1) in Hc. congruence. }
           rewrite Hc1, Hc. rewrite (cached_lookup _ _ _ Hhere), Htruthy.
           unfold str_eqb. rewrite bool_decide_eq_true_2 by reflexivity. reflexivity.
        -- unfold str_eqb. rewrite bool_decide_eq_false_2 by exact Hne.
           assert (Hsame : cached t s0 = cached t s).
           { unfold cached. rewrite Hother by congruence. reflexivity. }
           rewrite Hsame. lia.
  - intros b' Hb'. simpl. rewrite Htr. apply map_get_set_Some. exact Hb'.
  - simpl. rewrite map_get_set_eq. eauto.
Qed.

Lemma for_each_inv (s1 : State) (blocks : list ref) (s s' : State) :
  loop_inv s1 s -> (forall b, In b blocks -> block_ok s1 b) ->
  for_each (translateBlock fetch) blocks s = (Returned tt, s') ->
  loop_inv s1 s' /\
  (forall b, is_Some (map_get b (translated s)) -> is_Some (map_get b (translated s'))) /\
  (forall b, In b blocks -> is_Some (map_get b (translated s'))).
Proof.
  revert s. induction blocks as [|b blocks IH]; intros s Hinv Hok; simpl.
  - intros [= <-]. split; [exact Hinv|]. split; [auto|]. intros b [].
  - unfold bind. destruct (translateBlock fetch b s) as [[[]|e] sb] eqn:Hb; [|discriminate].
    intros Hrest.
    pose proof (translateBlock_step s1 s sb b Hinv (Hok b (or_introl eq_refl)) Hb)
      as (Hinvb & Hkeep & Hdone).
    assert (Hok' : forall b', In b' blocks -> block_ok s1 b') by (intros; apply Hok; right; assumption).
    destruct (IH sb Hinvb Hok' Hrest) as (Hinv' & Hkeep' & Hdone').
    split; [exact Hinv'|]. split; [auto|].
    intros b' [<- | Hin]; auto.
Qed.

(** ** Before and after the loop *)

Lemma refs_fold_remove (l : list (ref * ref)) (d : node) :
  refs (fold_left (fun doc pair => remove_node (snd pair) doc) l d) `sublist_of` refs d.
Proof.
  revert d. induction l as [|p l IH]; intros d; simpl; [reflexivity|].
  etransitivity; [apply IH | apply refs_remove_node].
Qed.

Lemma cleared_well_formed (s : State) : well_formed s -> well_formed (cleared s).
Proof.
  intros [Hnd Hbound]. unfold well_formed.
  destruct (cleared_fields s) as (_ & -> & _ & _ & _ & -> & _).
  pose proof (refs_fold_remove (translated s) (document s)) as Hsub.
  split.
  - eapply sublist_NoDup; eassumption.
  - intros x Hx. apply Hbound. apply list_elem_of_In.
    eapply sublist_subseteq; [exact Hsub|]. apply list_elem_of_In. exact Hx.
Qed.

Lemma selected_in_tree (st : KissTranslatorSettings) (doc : node) (root b : ref) :
  NoDup (refs doc) ->
  In b (omap loc_ref (selected selector_valid selector_matches st doc root)) ->
  exists c,
    In c (selected selector_valid selector_matches st doc root) /\
    loc_ref c = Some b /\
    subtree b doc = Some (loc_node c) /\ In b (strict_refs doc).
Proof.
  intros Hnd Hb. apply list_elem_of_In, list_elem_of_omap in Hb as (c & Hc & Href).
  apply list_elem_of_In in Hc. exists c. split; [exact Hc|]. split; [exact Href|].
  assert (Hdoc : In c (descendants [] doc)).
  { apply (candidate_in_document doc root). unfold selected in Hc.
    apply filter_In in Hc as [Hc _]. exact Hc. }
  split.
  - apply (subtree_unique [] doc c b Hnd); [|exact Href].
    destruct doc as [data | r t cl kids]; [destruct Hdoc|]. right. exact Hdoc.
  - rewrite <- (descendants_refs [] doc). apply list_elem_of_In, list_elem_of_omap.
    exists c. split; [apply list_elem_of_In; exact Hdoc | exact Href].
Qed.

(** In a well-formed state, what [collectBlocks] returns are blocks. *)
Lemma selected_block_ok (s1 : State) (r b : ref) :
  well_formed s1 ->
  In b (blocks_of selector_valid selector_matches r s1) -> block_ok s1 b.
Proof.
  intros [Hnd Hbound] Hb.
  apply selected_in_tree in Hb as (c & Hc & Href & Hsub & Hstrict); [|exact Hnd].
  unfold selected in Hc. apply filter_In in Hc as [_ Hkeep].
  apply keeps_Eligible in Hkeep as (_ & _ & _ & Hleaf & Hlen & _).
  split; [|split; [exact Hstrict|]].
  - apply Hbound. destruct (document s1) as [data | r0 t cl kids]; [destruct Hstrict|].
    right. exact Hstrict.
  - exists (loc_node c). auto.
Qed.

Lemma translateBlock_keys (b : ref) (s s' : State) (res : outcome Error unit) :
  translateBlock fetch b s = (res, s') ->
  forall b' a', In (b', a') (translated s') -> In (b', a') (translated s) \/ b' = b.
Proof.
  rewrite translateBlock_run. destruct (length (block_text b s) <? 2)%nat.
  { intros [= _ <-]. auto. }
  destruct (translateText fetch _ s) as [[v|e] s0] eqn:Ht.
  - apply translateText_returns in Ht as (_ & _ & _ & Htr & _).
    destruct (truthy v); intros [= _ <-] b' a' Hin.
    + simpl in Hin. rewrite Htr in Hin. apply map_set_In in Hin as [[-> _] | Hin]; auto.
    + rewrite Htr in Hin. auto.
  - apply translateText_throws in Ht as ((_ & _ & Htr & _) & _).
    intros [= _ <-] b' a' Hin. rewrite Htr in Hin. auto.
Qed.

Lemma for_each_keys (blocks : list ref) (s s' : State) (res : outcome Error unit) :
  for_each (translateBlock fetch) blocks s = (res, s') ->
  forall b' a', In (b', a') (translated s') -> In (b', a') (translated s) \/ In b' blocks.
Proof.
  revert s. induction blocks as [|b blocks IH]; intros s; simpl.
  - intros [= _ <-]. auto.
  - unfold bind. destruct (translateBlock fetch b s) as [[[]|e] sb] eqn:Hb.
    + intros Hrest b' a' Hin. destruct (IH sb Hrest b' a' Hin) as [Hin' | Hin']; [|auto].
      destruct (translateBlock_keys b s sb _ Hb b' a' Hin'); auto.
    + intros [= _ <-] b' a' Hin.
      destruct (translateBlock_keys b s sb _ Hb b' a' Hin); auto.
Qed.

Lemma map_get_None (k : ref) (m : list (ref * ref)) :
  (forall v, ~ In (k, v) m) -> map_get k m = None.
Proof.
  intros H. destruct (map_get k m) as [v|] eqn:Hget; [|reflexivity].
  apply map_get_In in Hget. destruct (H v Hget).
Qed.

Lemma applyOriginalVisibility_run (s : State) :
  exists f,
    applyOriginalVisibility s =
      (Returned tt,
       set_document
         (fold_left (fun doc pair => update_classes f (fst pair) doc)
                    (translated s) (document s)) s).
Proof.
  unfold applyOriginalVisibility. run. destruct (hideOriginal (settings s)).
  - exists (class_add HIDE_ORIGINAL_CLASS). reflexivity.
  - exists (class_remove HIDE_ORIGINAL_CLASS). reflexivity.
Qed.

Lemma subtree_fold_update (f : list jsstring -> list jsstring) (l : list (ref * ref))
    (d : node) (a : ref) (v : jsval) :
  (forall p, In p l -> fst p <> a) ->
  subtree a d = Some (annotation a v) ->
  subtree a (fold_left (fun doc pair => update_classes f (fst pair) doc) l d)
    = Some (annotation a v).
Proof.
  revert d. induction l as [|p l IH]; intros d Hkeys Hsub; simpl; [exact Hsub|].
  apply IH; [intros q Hq; apply Hkeys; right; exact Hq|].
  rewrite subtree_update_classes, Hsub. cbn [option_map].
  rewrite annotation_update_classes; [reflexivity|]. apply Hkeys. left. reflexivity.
Qed.

Lemma innerText_of_annotation (a : ref) (v : jsval) (d : node) :
  subtree a d = Some (annotation a v) -> innerText_of a d = ToString v.
Proof. unfold innerText_of. intros ->. apply annotation_innerText. Qed.

(** ** Failure of a block *)

Lemma loop_prefix (s : State) (r : ref) (pre post : list ref) (s2 : State) :
  well_formed s ->
  blocks_of selector_valid selector_matches r (cleared s) = pre ++ post ->
  for_each (translateBlock fetch) pre (cleared s) = (Returned tt, s2) ->
  loop_inv (cleared s) s2 /\
  (forall b, In b (pre ++ post) -> block_ok (cleared s) b) /\
  (forall b, In b pre -> is_Some (map_get b (translated s2))) /\
  (forall b a, In (b, a) (translated s2) -> In b pre) /\
  NoDup (pre ++ post).
Proof.
  intros Hwf Hblocks Hrun.
  apply cleared_well_formed in Hwf as Hwf1.
  assert (Hok : forall b, In b (pre ++ post) -> block_ok (cleared s) b).
  { intros b Hb. apply (selected_block_ok _ r); [exact Hwf1|]. rewrite Hblocks. exact Hb. }
  destruct (for_each_inv (cleared s) pre (cleared s) s2) as (Hinv & _ & Hdone).
  - apply loop_inv_start; [exact Hwf1 | reflexivity].
  - intros b Hb. apply Hok. apply in_or_app. auto.
  - exact Hrun.
  - split; [exact Hinv|]. split; [exact Hok|]. split; [exact Hdone|]. split.
    + intros b a Hin. destruct (for_each_keys pre _ _ _ Hrun b a Hin) as [[] | H]. exact H.
    + rewrite <- Hblocks. apply blocks_NoDup. apply Hwf1.
Qed.

(** The loop stops at the first block whose translation throws. *)
Lemma translate_fails_at (rootOverride : option ref) (s : State)
    (r : ref) (pre post : list ref) (b : ref) (s2 s3 : State) (e : Error) :
  effective_root rootOverride s = Some r ->
  blocks_of selector_valid selector_matches r (cleared s) = pre ++ b :: post ->
  for_each (translateBlock fetch) pre (cleared s) = (Returned tt, s2) ->
  translateBlock fetch b s2 = (Thrown e, s3) ->
  translate fetch selector_valid selector_matches rootOverride s = (Thrown e, s3).
Proof.
  intros Hroot Hblocks Hpre Hfail.
  rewrite (translate_run rootOverride s r Hroot), Hblocks, for_each_app, Hpre.
  simpl. unfold bind. rewrite Hfail. reflexivity.
Qed.

Lemma unpaired_after_prefix (s : State) (r : ref) (pre post : list ref) (s2 : State)
    (b : ref) :
  well_formed s ->
  blocks_of selector_valid selector_matches r (cleared s) = pre ++ post ->
  for_each (translateBlock fetch) pre (cleared s) = (Returned tt, s2) ->
  In b post -> map_get b (translated s2) = None.
Proof.
  intros Hwf Hblocks Hpre Hb.
  destruct (loop_prefix s r pre post s2 Hwf Hblocks Hpre) as (_ & _ & _ & Hkeys & Hnd).
  apply map_get_None. intros a Hin. apply Hkeys in Hin.
  apply NoDup_app in Hnd as (_ & Hdisj & _).
  apply (Hdisj b); apply list_elem_of_In; assumption.
Qed.

(** C3. When the translation of the k-th selected block throws, the
    error is what [translate] throws, in the state the failing call
    leaves: the pair mapping, the tree and the cache are those left by the
    blocks before the k-th, and the only events since are those of the
    failing block's one backend call. In a well-formed state, moreover,
    every block before the k-th has its annotation in the tree, and
    neither the k-th block nor one after it has a pair. *)
Theorem translate_stops_at_first_failure (rootOverride : option ref) (s : State)
    (r : ref) (pre post : list ref) (b : ref) (s2 s3 : State) (e : Error) :
  effective_root rootOverride s = Some r ->
  blocks_of selector_valid selector_matches r (cleared s) = pre ++ b :: post ->
  for_each (translateBlock fetch) pre (cleared s) = (Returned tt, s2) ->
  translateBlock fetch b s2 = (Thrown e, s3) ->
  translate fetch selector_valid selector_matches rootOverride s = (Thrown e, s3) /\
  translated s3 = translated s2 /\ document s3 = document s2 /\ cache s3 = cache s2 /\
  (exists evs, trace s3 = trace s2 ++ evs /\
               backend_events (apiType (settings s2)) (block_text b s2) evs) /\
  (well_formed s ->
   (forall b', In b' pre ->
               exists a v, map_get b' (translated s3) = Some a /\
                           subtree a (document s3) = Some (annotation a v)) /\
   (forall b', In b' (b :: post) -> map_get b' (translated s3) = None)).
Proof.
  intros Hroot Hblocks Hpre Hfail.
  pose proof (translateBlock_throws b s2 s3 e Hfail)
    as ((_ & _ & Htr & Hcache & Hdoc & _) & _ & _ & Hevs).
  split; [|split; [exact Htr | split; [exact Hdoc | split; [exact Hcache | split;
    [exact Hevs|]]]]].
  - eapply translate_fails_at; eassumption.
  - intros Hwf.
    destruct (loop_prefix s r pre (b :: post) s2 Hwf Hblocks Hpre)
      as (Hinv & _ & Hdone & _ & _).
    rewrite Htr, Hdoc. split.
    + intros b' Hb'. destruct (Hdone b' Hb') as [a Ha]. exists a.
      destruct (inv_pairs _ _ Hinv b' a (map_get_In _ _ _ Ha)) as (_ & _ & v & _ & _ & Hsub).
      exists v. auto.
    + intros b' Hb'. eapply unpaired_after_prefix; eassumption.
Qed.

(** C2. When a selected block is reached, its text is not cached and the
    backend returns a falsy result for it, [translate] throws the
    empty-translation error, in the state the backend call leaves: the
    tree and the pair mapping are as before the block, and the block has
    no pair. *)
Theorem empty_backend_result_fails_translate (rootOverride : option ref) (s : State)
    (r : ref) (pre post : list ref) (b : ref) (s2 s3 : State) (v : jsval) :
  well_formed s ->
  effective_root rootOverride s = Some r ->
  blocks_of selector_valid selector_matches r (cleared s) = pre ++ b :: post ->
  for_each (translateBlock fetch) pre (cleared s) = (Returned tt, s2) ->
  cached (block_text b s2) s2 = false ->
  callBackend fetch (apiType (settings s2)) (block_text b s2) s2 = (Returned v, s3) ->
  truthy v = false ->
  translate fetch selector_valid selector_matches rootOverride s
    = (Thrown EmptyTranslation, s3) /\
  document s3 = document s2 /\ translated s3 = translated s2 /\
  cache s3 = cache s2 /\ map_get b (translated s3) = None.
Proof.
  intros Hwf Hroot Hblocks Hpre Hmiss Hbackend Hfalsy.
  destruct (loop_prefix s r pre (b :: post) s2 Hwf Hblocks Hpre)
    as (Hinv & Hok & _ & _ & _).
  destruct (block_text_stable (cleared s) s2 b Hinv) as [_ Hlen].
  { apply Hok. apply in_or_app. right. left. reflexivity. }
  assert (Hfail : translateBlock fetch b s2 = (Thrown EmptyTranslation, s3)).
  { rewrite translateBlock_run.
    destruct (Nat.ltb_spec (length (block_text b s2)) 2) as [Hshort|_]; [lia|].
    rewrite translateText_run, Hmiss, Hbackend, Hfalsy. reflexivity. }
  pose proof (translateBlock_throws b s2 s3 _ Hfail)
    as ((_ & _ & Htr & Hcache & Hdoc & _) & _).
  split; [eapply translate_fails_at; eassumption|].
  repeat split; auto. rewrite Htr.
  eapply (unpaired_after_prefix s r pre (b :: post)); try eassumption.
  left. reflexivity.
Qed.

(** ** Settings the chat backend misses *)

Lemma chat_config_error_missing (st : KissTranslatorSettings) :
  apiUrl st = [] \/ apiKey st = [] \/ model st = [] \/ trim (userPrompt st) = [] ->
  exists e, chat_config_error st = Some e /\ is_config_error e = true /\
            (apiUrl st <> [] -> apiKey st = [] -> e = ChatNoKey).
Proof.
  intros H. unfold chat_config_error.
  destruct (apiUrl st) as [|c1 u]; simpl.
  { exists ChatNoUrl. repeat split. congruence. }
  destruct (apiKey st) as [|c2 k]; simpl.
  { exists ChatNoKey. repeat split. }
  destruct (model st) as [|c3 m]; simpl.
  { exists ChatNoModel. repeat split. discriminate. }
  destruct (trim (userPrompt st)) as [|c4 p]; simpl.
  { exists ChatNoPrompt. repeat split. discriminate. }
  destruct H as [H | [H | [H | H]]]; discriminate.
Qed.

Lemma translateWithOpenAI_unconfigured (text : jsstring) (s : State) (e : Error) :
  chat_config_error (settings s) = Some e ->
  translateWithOpenAI fetch text s = (Thrown e, s).
Proof.
  unfold chat_config_error, translateWithOpenAI. run.
  destruct (str_truthy (apiUrl (settings s))); simpl; [|intros [= <-]; reflexivity].
  destruct (str_truthy (apiKey (settings s))); simpl; [|intros [= <-]; reflexivity].
  destruct (str_truthy (model (settings s))); simpl; [|intros [= <-]; reflexivity].
  destruct (str_truthy (trim (userPrompt (settings s)))); simpl;
    [discriminate | intros [= <-]; reflexivity].
Qed.

(** C6 (as the code has it). With the chat backend selected and the
    endpoint, the key, the model or the user prompt missing, on a tree
    with at least one eligible block and for a session whose cache does
    not hold the text of the first such block (a new session, for one),
    [translate] throws the configuration error of the first missing
    setting; no request has been sent, and the pair mapping is empty. *)
Theorem missing_chat_setting_rejects_uncached (rootOverride : option ref) (s : State)
    (r b : ref) (rest : list ref) :
  well_formed s ->
  apiType (settings s) = openai ->
  apiUrl (settings s) = [] \/ apiKey (settings s) = [] \/ model (settings s) = [] \/
    trim (userPrompt (settings s)) = [] ->
  effective_root rootOverride s = Some r ->
  blocks_of selector_valid selector_matches r (cleared s) = b :: rest ->
  cached (block_text b (cleared s)) s = false ->
  exists e s',
    translate fetch selector_valid selector_matches rootOverride s = (Thrown e, s') /\
    chat_config_error (settings s) = Some e /\
    is_config_error e = true /\
    (apiUrl (settings s) <> [] -> apiKey (settings s) = [] -> e = ChatNoKey) /\
    translated s' = [] /\
    trace s' = trace s ++ [BackendCalled openai (block_text b (cleared s))].
Proof.
  intros Hwf Hapi Hmissing Hroot Hblocks Hmiss.
  destruct (chat_config_error_missing _ Hmissing) as (e & He & Hcfg & Hkey).
  set (text := block_text b (cleared s)) in *.
  exists e, (log_event (BackendCalled openai text) (cleared s)).
  split; [|repeat split; auto].
  apply (translate_fails_at rootOverride s r [] rest b (cleared s)); auto.
  rewrite translateBlock_run. fold text.
  assert (Hlen : (2 <= length text)%nat).
  { apply (block_text_stable (cleared s) (cleared s) b).
    - apply loop_inv_start; [apply cleared_well_formed; exact Hwf | reflexivity].
    - apply (selected_block_ok _ r); [apply cleared_well_formed; exact Hwf|].
      rewrite Hblocks. left. reflexivity. }
  destruct (Nat.ltb_spec (length text) 2) as [Hshort | _]; [lia|].
  rewrite translateText_run.
  change (cached text (cleared s)) with (cached text s). rewrite Hmiss.
  change (settings (cleared s)) with (settings s). rewrite Hapi.
  unfold callBackend. run.
  rewrite (translateWithOpenAI_unconfigured text _ e); [reflexivity | exact He].
Qed.

(** ** Blocks with the same text *)

(** C4 (as the code has it). When [translate] completes on a tree whose
    selected blocks include two with the same normalized text, the backend
    was called for that text once if the session's cache did not hold the
    text when [translate] started, and not at all if it did; either way
    both blocks are paired with annotations that are in the tree and carry
    the same translated text. *)
Theorem same_text_translated_at_most_once (rootOverride : option ref) (s s' : State)
    (r b1 b2 : ref) (t : jsstring) :
  well_formed s ->
  effective_root rootOverride s = Some r ->
  translate fetch selector_valid selector_matches rootOverride s = (Returned tt, s') ->
  In b1 (blocks_of selector_valid selector_matches r (cleared s)) ->
  In b2 (blocks_of selector_valid selector_matches r (cleared s)) ->
  block_text b1 (cleared s) = t ->
  block_text b2 (cleared s) = t ->
  exists evs a1 a2 v,
    trace s' = trace s ++ evs /\
    backend_calls t evs = (if cached t s then 0%nat else 1%nat) /\
    map_get b1 (translated s') = Some a1 /\
    map_get b2 (translated s') = Some a2 /\
    truthy v = true /\
    subtree a1 (document s') = Some (annotation a1 v) /\
    subtree a2 (document s') = Some (annotation a2 v) /\
    innerText_of a1 (document s') = ToString v /\
    innerText_of a2 (document s') = ToString v.
Proof.
  intros Hwf Hroot Hrun Hb1 Hb2 Ht1 Ht2.
  rewrite (translate_run rootOverride s r Hroot) in Hrun.
  destruct (for_each (translateBlock fetch) _ (cleared s)) as [[[]|e] s2] eqn:Hloop;
    [|discriminate].
  destruct (loop_prefix s r _ [] s2 Hwf (eq_sym (app_nil_r _)) Hloop)
    as (Hinv & _ & Hdone & _ & _).
  destruct (applyOriginalVisibility_run s2) as [f Hvis].
  rewrite Hvis in Hrun. injection Hrun as <-.
  destruct (Hdone b1 Hb1) as [a1 Ha1]. destruct (Hdone b2 Hb2) as [a2 Ha2].
  destruct (inv_pairs _ _ Hinv b1 a1 (map_get_In _ _ _ Ha1))
    as (_ & Hr1 & v1 & Hc1 & Hv1 & Hs1).
  destruct (inv_pairs _ _ Hinv b2 a2 (map_get_In _ _ _ Ha2))
    as (_ & Hr2 & v2 & Hc2 & Hv2 & Hs2).
  rewrite Ht1 in Hc1. rewrite Ht2 in Hc2.
  assert (v2 = v1) as -> by congruence.
  destruct (inv_calls _ _ Hinv) as (evs & Htrace & Hcount).
  assert (Hkeys : forall a, (next_ref (cleared s) <= a)%nat ->
                            forall p, In p (translated s2) -> fst p <> a).
  { intros a Ha [b' a'] Hin. simpl.
    destruct (inv_pairs _ _ Hinv b' a' Hin) as (Hlt & _). lia. }
  assert (Hsub1 := subtree_fold_update f _ _ a1 v1 (Hkeys a1 (proj1 Hr1)) Hs1).
  assert (Hsub2 := subtree_fold_update f _ _ a2 v1 (Hkeys a2 (proj1 Hr2)) Hs2).
  exists evs, a1, a2, v1. simpl.
  split; [exact Htrace|]. split.
  { rewrite Hcount. change (cached t (cleared s)) with (cached t s).
    rewrite (cached_lookup _ _ _ Hc1), Hv1. reflexivity. }
  repeat split; auto using innerText_of_annotation.
Qed.

Lemma well_formedb_true (s : State) : well_formedb s = true -> well_formed s.
Proof.
  unfold well_formedb, well_formed. intros H. apply andb_true_iff in H as [Hnd Hbound].
  split.
  - apply bool_decide_eq_true in Hnd. exact Hnd.
  - intros x Hx. rewrite forallb_forall in Hbound.
    apply Nat.ltb_lt. apply Hbound. exact Hx.
Qed.

End Session.

Lemma updateSettings_changes_settings_only_witness :
  exists s',
    Translator.updateSettings (Fixtures.with_apiKey [] Fixtures.chat_settings)
      Fixtures.translated_state = (Eff.Returned tt, s') /\
    Translator.translateText Fixtures.fetch_no_choice (JS.lit "Hello world") s'
      = (Eff.Returned (JS.VStr (JS.lit "Bonjour")), s').
Proof.
  destruct (updateSettings_changes_settings_only Fixtures.fetch_no_choice
              (Fixtures.with_apiKey [] Fixtures.chat_settings) Fixtures.translated_state)
    as (s' & Hrun & _ & _ & _ & _ & _ & _ & _ & Hserved).
  exists s'. split; [exact Hrun|].
  apply Hserved; vm_compute; reflexivity.
Defined.

Lemma chat_missing_content_is_empty_result_witness :
  Translator.translateWithOpenAI Fixtures.fetch_no_choice (JS.lit "Hello world")
    (Translator.log_event (Translator.BackendCalled Translator.openai (JS.lit "Hello world"))
       Fixtures.fresh)
  = (Eff.Returned (JS.VStr []),
     Translator.log_event
       (Translator.Fetched (Translator.chat_request Fixtures.chat_settings
                              (JS.lit "Hello world")))
       (Translator.log_event
          (Translator.BackendCalled Translator.openai (JS.lit "Hello world"))
          Fixtures.fresh)).
Proof.
  apply (chat_missing_content_is_empty_result Fixtures.fetch_no_choice Fixtures.fresh
           (JS.lit "Hello world") Fixtures.chat_reply_no_choice (JS.VObj [])).
  - reflexivity.
  - vm_compute. repeat split; discriminate.
  - reflexivity.
  - reflexivity.
  - reflexivity.
  - intros c. vm_compute. discriminate.
Defined.

(** A 2xx answer without choices: the chat backend returns the empty
    string, it does not throw. *)
Lemma chat_missing_content_returns :
  Translator.ok Fixtures.chat_reply_no_choice = true /\
  Translator.completion_content (JS.VObj []) = JS.VUndefined /\
  fst (Translator.translateWithOpenAI Fixtures.fetch_no_choice (JS.lit "Hello world")
         Fixtures.fresh) = Eff.Returned (JS.VStr []) /\
  ~ (exists e, fst (Translator.translateWithOpenAI Fixtures.fetch_no_choice
                      (JS.lit "Hello world") Fixtures.fresh) = Eff.Thrown e) /\
  fst (Translator.translateText Fixtures.fetch_no_choice (JS.lit "Hello world")
         Fixtures.fresh) = Eff.Thrown Translator.EmptyTranslation.
Proof.
  repeat split; try (vm_compute; reflexivity).
  intros [e He]. vm_compute in He. discriminate.
Qed.

(** * The statements on the examples *)

Section Examples.
Import JS Eff Dom Translator Fixtures.

(** The selection of the specification's example: of the paragraphs of
    the selection page, only the one of 50 letters is collected. *)
Lemma selection_example :
  blocks_of selector_valid selector_matches 0%nat
    (new_session None chat_settings selection_page 100 []) = [7%nat].
Proof. vm_compute. reflexivity. Qed.


(** The state in which the loop reaches the third block of the page, when
    only the first request is answered with a translation. *)
Lemma empty_backend_result_fails_translate_witness :
  exists s3,
    run_translate (fetch_once bonjour) fresh = (Thrown EmptyTranslation, s3) /\
    translated s3 = [(1, 100); (2, 101)]%nat /\
    map_get 6 (translated s3) = None.
Proof.
  pose (s2 := snd (for_each (translateBlock (fetch_once bonjour)) [1; 2]%nat
                     (cleared fresh))).
  pose (s3 := snd (callBackend (fetch_once bonjour) (apiType (settings s2))
                     (block_text 6 s2) s2)).
  destruct (empty_backend_result_fails_translate (fetch_once bonjour)
              selector_valid selector_matches (Some 0%nat) fresh 0%nat
              [1; 2]%nat [7]%nat 6%nat s2 s3 (VStr []))
    as (Hrun & Hdoc & Htr & Hcache & Hnone).
  - apply well_formedb_true. vm_compute. reflexivity.
  - reflexivity.
  - vm_compute. reflexivity.
  - vm_compute. reflexivity.
  - vm_compute. reflexivity.
  - vm_compute. reflexivity.
  - reflexivity.
  - exists s3. split; [exact Hrun|]. split; [|exact Hnone].
    vm_compute. reflexivity.
Defined.

Lemma translate_stops_at_first_failure_witness :
  exists s3,
    run_translate (fetch_once bonjour) fresh = (Thrown EmptyTranslation, s3) /\
    (forall b, In b [1; 2]%nat ->
               exists a v, map_get b (translated s3) = Some a /\
                           subtree a (document s3) = Some (annotation a v)) /\
    (forall b, In b [6; 7]%nat -> map_get b (translated s3) = None).
Proof.
  pose (s2 := snd (for_each (translateBlock (fetch_once bonjour)) [1; 2]%nat
                     (cleared fresh))).
  pose (s3 := snd (translateBlock (fetch_once bonjour) 6%nat s2)).
  destruct (translate_stops_at_first_failure (fetch_once bonjour)
              selector_valid selector_matches (Some 0%nat) fresh 0%nat
              [1; 2]%nat [7]%nat 6%nat s2 s3 EmptyTranslation)
    as (Hrun & _ & _ & _ & _ & Hwf).
  - reflexivity.
  - vm_compute. reflexivity.
  - vm_compute. reflexivity.
  - vm_compute. reflexivity.
  - exists s3. split; [exact Hrun|]. apply Hwf.
    apply well_formedb_true. vm_compute. reflexivity.
Defined.

Lemma same_text_translated_at_most_once_witness :
  exists s' evs a1 a2 v,
    run_translate (fetch_reply bonjour) fresh = (Returned tt, s') /\
    trace s' = trace fresh ++ evs /\
    backend_calls (lit "Hello world") evs = 1%nat /\
    map_get 1 (translated s') = Some a1 /\
    map_get 2 (translated s') = Some a2 /\
    innerText_of a1 (document s') = ToString v /\
    innerText_of a2 (document s') = ToString v.
Proof.
  pose (s' := snd (run_translate (fetch_reply bonjour) fresh)).
  destruct (same_text_translated_at_most_once (fetch_reply bonjour)
              selector_valid selector_matches (Some 0%nat) fresh s' 0%nat 1%nat 2%nat
              (lit "Hello world"))
    as (evs & a1 & a2 & v & Htrace & Hcount & H1 & H2 & _ & _ & _ & Ht1 & Ht2).
  - apply well_formedb_true. vm_compute. reflexivity.
  - reflexivity.
  - vm_compute. reflexivity.
  - vm_compute. auto.
  - vm_compute. auto.
  - vm_compute. reflexivity.
  - vm_compute. reflexivity.
  - assert (Hcold : cached (lit "Hello world") fresh = false)
      by (vm_compute; reflexivity).
    rewrite Hcold in Hcount.
    exists s', evs, a1, a2, v.
    split; [vm_compute; reflexivity|].
    split; [exact Htrace|]. split; [exact Hcount|].
    split; [exact H1|]. split; [exact H2|]. split; [exact Ht1 | exact Ht2].
Defined.

(** A second [translate] in the same session: both blocks with the text
    ["Hello world"] are selected and annotated, and the backend is not
    called at all. *)
Lemma warm_cache_no_backend_call :
  let s := translated_state in
  let s' := snd (run_translate (fetch_reply bonjour) s) in
  blocks_of selector_valid selector_matches 0%nat (cleared s) = [1; 2; 6; 7]%nat /\
  block_text 1 (cleared s) = lit "Hello world" /\
  block_text 2 (cleared s) = lit "Hello world" /\
  fst (run_translate (fetch_reply bonjour) s) = Returned tt /\
  trace s' = trace s ++ [] /\
  backend_calls (lit "Hello world") [] = 0%nat /\
  ~ (exists evs, trace s' = trace s ++ evs /\
                 backend_calls (lit "Hello world") evs = 1%nat).
Proof.
  repeat split; try (vm_compute; reflexivity).
  intros (evs & Htrace & Hcount).
  assert (evs = []) as ->.
  { apply (app_inv_head (trace translated_state)). rewrite <- Htrace.
    vm_compute. reflexivity. }
  vm_compute in Hcount. discriminate Hcount.
Qed.

Lemma missing_chat_setting_rejects_uncached_witness :
  exists s',
    run_translate fetch_no_choice keyless = (Thrown ChatNoKey, s') /\
    translated s' = [] /\
    trace s' = [BackendCalled openai (lit "Hello world")].
Proof.
  destruct (missing_chat_setting_rejects_uncached fetch_no_choice
              selector_valid selector_matches (Some 0%nat) keyless 0%nat 1%nat
              [2; 6; 7]%nat)
    as (e & s' & Hrun & _ & _ & Hkey & Hpairs & Htrace).
  - apply well_formedb_true. vm_compute. reflexivity.
  - reflexivity.
  - right. left. reflexivity.
  - reflexivity.
  - vm_compute. reflexivity.
  - vm_compute. reflexivity.
  - exists s'. rewrite (Hkey ltac:(vm_compute; discriminate) eq_refl) in Hrun.
    split; [exact Hrun|]. split; [exact Hpairs|]. exact Htrace.
Defined.

(** A session that has translated the page and is then told that the API
    key is gone: [translate] completes from the cache, with pairs and
    without a configuration error. *)
Lemma warm_cache_missing_key_translates :
  let s := keyless_warm in
  let run := run_translate fetch_no_choice s in
  apiType (settings s) = openai /\ apiKey (settings s) = [] /\
  blocks_of selector_valid selector_matches 0%nat (cleared s) = [1; 2; 6; 7]%nat /\
  fst run = Returned tt /\
  translated (snd run) = [(1, 104); (2, 105); (6, 106); (7, 107)]%nat /\
  ~ (exists e, fst run = Thrown e).
Proof.
  repeat split; try (vm_compute; reflexivity).
  intros [e He]. vm_compute in He. discriminate He.
Qed.

(** The simple backend on the page: the object form and the list form of
    the answer, and the request it sends. *)
Lemma simple_backend_example :
  let run := translate fetch_simple selector_valid selector_matches (Some 0%nat)
               (new_session None simple_settings page 100 []) in
  fst run = Returned tt /\
  translated (snd run) = [(1, 100); (2, 101); (4, 102); (6, 103); (7, 104)]%nat /\
  innerText_of 100 (document (snd run)) = lit "Hola mundo" /\
  innerText_of 101 (document (snd run)) = lit "Hola mundo" /\
  innerText_of 102 (document (snd run)) = lit "Adios" /\
  nth_error (trace (snd run)) 1
    = Some (Fetched {| req_url := lit "https://libretranslate.example/translate";
                       req_method := lit "POST";
                       req_content_type := lit "application/json";
                       req_authorization := None;
                       req_body := SimpleBody (lit "Hello world") (lit "auto") (lit "es")
                                     (lit "text") None |}).
Proof. vm_compute. repeat split; reflexivity. Qed.

(** Without a root given, [translate] works on the preview surface of the
    view: the paragraph outside it is left alone. *)
Lemma view_example :
  let s := new_session (Some 1%nat) chat_settings workspace 100 [] in
  effective_root None s = Some 3%nat /\
  translated (snd (translate (fetch_reply bonjour) selector_valid selector_matches
                     None s)) = [(4, 100)]%nat.
Proof. vm_compute. repeat split; reflexivity. Qed.

(** The end-to-end example of the specification: the user message for
    ["Hello"], and the annotation with the text of the answer right after
    the block. *)
Lemma hello_example :
  let s := new_session None chat_settings
             (Elem 0 (lit "body") [] [Elem 1 (lit "p") [] [Text (lit "Hello")]]) 100 [] in
  let run := translate (fetch_reply (VStr (lit "Ni hao"))) selector_valid
               selector_matches (Some 0%nat) s in
  chat_messages chat_settings (lit "Hello")
    = [{| role := lit "user"; content := lit "Translate Hello from en to zh" |}] /\
  fst run = Returned tt /\
  document (snd run)
    = Elem 0 (lit "body") []
        [Elem 1 (lit "p") [] [Text (lit "Hello")];
         Elem 100 (lit "div") [TRANSLATION_CLASS] [Text (lit "Ni hao")]].
Proof. vm_compute. repeat split; reflexivity. Qed.

End Examples.

(** * Further properties of the cloud registry *)

Section CloudDictionary.
Import JS Eff Cloud.

Variable requestUrl : list UrlRequest -> UrlRequest -> UrlResult.
Variable ToNumber : jsval -> jsstring.

(** X1. The index handed to [normalizeMeta] never shows in the entry: the
    identifier is the raw [id] when that is truthy and the scope
    otherwise, the name is the raw [name] when truthy and the scope
    otherwise, and any other index gives the same entry. *)
Theorem normalizeMeta_ignores_index (raw : jsval) (idx : nat) (m : CloudDictMeta) :
  normalizeMeta ToNumber raw idx = Some m ->
  meta_id m = ToString (js_or (prop raw "id") (VStr (meta_scope m))) /\
  meta_name m = Some (ToString (js_or (prop raw "name") (VStr (meta_scope m)))) /\
  forall idx', normalizeMeta ToNumber raw idx' = Some m.
Proof.
  unfold normalizeMeta.
  set (scope := trim (ToString (js_or (js_or (prop raw "scope") (prop raw "id")) (VStr [])))).
  set (url := trim (ToString (js_or (js_or (prop raw "downloadUrl") (prop raw "url"))
                                (VStr [])))).
  destruct (str_truthy scope) eqn:Hscope; [|discriminate].
  destruct (str_truthy url) eqn:Hurl; [|discriminate]. simpl.
  assert (Hid : forall i, js_or (js_or (prop raw "id") (VStr scope)) (VNum (nat_to_string i))
                          = js_or (prop raw "id") (VStr scope)).
  { intros i. unfold js_or at 1.
    assert (truthy (js_or (prop raw "id") (VStr scope)) = true) as ->; [|reflexivity].
    unfold js_or. destruct (truthy (prop raw "id")) eqn:Ht; [exact Ht | exact Hscope]. }
  intros [= <-]. simpl. rewrite Hid. split; [reflexivity|]. split; [reflexivity|].
  intros idx'. rewrite !Hid. reflexivity.
Qed.

Lemma js_nullish_defined (a b : jsval) :
  b <> VUndefined -> b <> VNull ->
  js_nullish a b <> VUndefined /\ js_nullish a b <> VNull.
Proof. intros Hu Hn. destruct a; simpl; split; congruence. Qed.

(** X2. [fetchCloudDict] returns a dictionary exactly when the entry has a
    download address, the one request it issues (a GET of that address) is
    answered with a status from 200 to 299 and the body is a JSON object
    whose [entries] is an array. The entries are returned as they are; the
    version and the scope are never [undefined] or [null]. *)
Theorem fetchCloudDict_returns (meta : CloudDictMeta) (log log' : list UrlRequest)
    (d : DictFile) :
  fetchCloudDict requestUrl meta log = (Returned d, log') <->
  meta_downloadUrl meta <> [] /\
  log' = log ++ [{| req_url := meta_downloadUrl meta; req_method := lit "GET" |}] /\
  exists code fields entries,
    requestUrl log ({| req_url := meta_downloadUrl meta; req_method := lit "GET" |}) = UrlResponse code (Some (VObj fields)) /\
    (200 <= code < 300)%Z /\
    assoc (lit "entries") fields = VArr entries /\
    d = {| dict_version := js_nullish (assoc (lit "version") fields) (VNum (lit "1"));
           dict_scope := js_nullish (assoc (lit "scope") fields) (VStr (meta_scope meta));
           dict_entries := entries |} /\
    dict_version d <> VUndefined /\ dict_version d <> VNull /\
    dict_scope d <> VUndefined /\ dict_scope d <> VNull.
Proof.
  unfold fetchCloudDict, bind, download, throw, ret. split.
  - destruct (meta_downloadUrl meta) as [|c url] eqn:Hurl; simpl; [discriminate|].
    destruct (requestUrl log _) as [|code json] eqn:Hreq; [discriminate|].
    destruct ((code <? 200)%Z || (300 <=? code)%Z) eqn:Hcode; [discriminate|].
    destruct json as [data|]; [|discriminate].
    destruct data as [| |b|n|t|items|fields];
      try (simpl; discriminate);
      try (simpl; rewrite orb_true_r; discriminate).
    simpl.
    destruct (assoc (lit "entries") fields) as [| | | | |entries|] eqn:Hentries;
      simpl; try discriminate.
    intros [= <- <-]. split; [discriminate|]. split; [reflexivity|].
    apply orb_false_iff in Hcode as [Hlo Hhi].
    apply Z.ltb_ge in Hlo. apply Z.leb_gt in Hhi.
    exists code, fields, entries.
    split; [reflexivity|]. split; [lia|]. split; [exact Hentries|].
    split; [reflexivity|]. simpl.
    destruct (js_nullish_defined (assoc (lit "version") fields) (VNum (lit "1")))
      as [? ?]; [discriminate|discriminate|].
    destruct (js_nullish_defined (assoc (lit "scope") fields) (VStr (meta_scope meta)))
      as [? ?]; [discriminate|discriminate|].
    auto.
  - intros (Hurl & -> & code & fields & entries & Hreq & Hcode & Hentries & -> & _).
    destruct (meta_downloadUrl meta) as [|c url] eqn:E; [congruence|]. simpl.
    rewrite Hreq.
    assert ((code <? 200)%Z || (300 <=? code)%Z = false) as ->.
    { apply orb_false_iff. split; [apply Z.ltb_ge | apply Z.leb_gt]; lia. }
    simpl. rewrite Hentries. reflexivity.
Qed.

Lemma fetchCloudDict_log (meta : CloudDictMeta) (log log' : list UrlRequest)
    (res : outcome DictError DictFile) :
  fetchCloudDict requestUrl meta log = (res, log') ->
  (meta_downloadUrl meta = [] /\ res = Thrown MissingDownloadUrl /\ log' = log) \/
  (meta_downloadUrl meta <> [] /\ res <> Thrown MissingDownloadUrl /\
   log' = log ++ [{| req_url := meta_downloadUrl meta; req_method := lit "GET" |}]).
Proof.
  unfold fetchCloudDict, bind, download, throw, ret.
  destruct (meta_downloadUrl meta) as [|c url] eqn:Hurl; simpl.
  - intros [= <- <-]. left. auto.
  - intros H. right. split; [discriminate|].
    destruct (requestUrl log _) as [|code json]; [injection H as <- <-; split; [discriminate|reflexivity]|].
    destruct ((code <? 200)%Z || (300 <=? code)%Z);
      [injection H as <- <-; split; [discriminate|reflexivity]|].
    destruct json as [data|]; [|injection H as <- <-; split; [discriminate|reflexivity]].
    destruct (_ || _); injection H as <- <-; split; (discriminate || reflexivity).
Qed.

(** X3. Every entry [fetchRegistry] returns can be downloaded: handed to
    [fetchCloudDict] it never fails for a missing address, and exactly one
    request is issued, a GET of the address the registry gave. Without an
    address no request is issued at all. *)
Theorem registry_entries_downloadable :
  (forall url log metas log0 m log1 log2 res,
      fetchRegistry requestUrl ToNumber url log = (Returned metas, log0) ->
      In m metas ->
      fetchCloudDict requestUrl m log1 = (res, log2) ->
      res <> Thrown MissingDownloadUrl /\ log2 = log1 ++ [{| req_url := meta_downloadUrl m; req_method := lit "GET" |}]) /\
  (forall m log,
      meta_downloadUrl m = [] ->
      fetchCloudDict requestUrl m log = (Thrown MissingDownloadUrl, log)).
Proof.
  split.
  - intros url log metas log0 m log1 log2 res Hreg Hin Hdict.
    assert (Hurl : meta_downloadUrl m <> []).
    { revert Hreg. unfold fetchRegistry, bind, issue, throw, ret.
      destruct (negb (str_truthy url)); [intros [= <- <-]; destruct Hin|].
      destruct (requestUrl log _) as [|code json]; [discriminate|].
      destruct ((code <? 200)%Z || (300 <=? code)%Z); [discriminate|].
      destruct json as [data|]; [|discriminate].
      intros [= <- <-]. apply normalize_from_spec in Hin as (k & raw & _ & Hm).
      apply normalizeMeta_kept in Hm. tauto. }
    destruct (fetchCloudDict_log _ _ _ _ Hdict) as [(E & _)|(_ & Hres & Hlog)];
      [contradiction|auto].
  - intros m log E. unfold fetchCloudDict. rewrite E. reflexivity.
Qed.

End CloudDictionary.

(** * The normal form of a text *)

Section Text.
Import JS Translator.

Lemma collapse_single_spaced (b : bool) (s : jsstring) :
  single_spaced b (collapse_spaces b s) = true.
Proof.
  revert b. induction s as [|c r IH]; intros b; simpl; [reflexivity|].
  destruct (is_space c) eqn:Hc.
  - destruct b; [apply IH|]. simpl. rewrite IH. reflexivity.
  - simpl. rewrite Hc. apply IH.
Qed.

Lemma single_spaced_fixed (b : bool) (s : jsstring) :
  single_spaced b s = true -> collapse_spaces b s = s.
Proof.
  revert b. induction s as [|c r IH]; intros b; simpl; [reflexivity|].
  destruct (is_space c) eqn:Hc.
  - intros H. apply andb_prop in H as [H Hr]. apply andb_prop in H as [Hs Hb].
    apply N.eqb_eq in Hs. destruct b; [discriminate|]. rewrite (IH _ Hr). subst c. reflexivity.
  - intros H. rewrite (IH _ H). reflexivity.
Qed.

Lemma single_spaced_weaken (b : bool) (s : jsstring) :
  single_spaced true s = true -> single_spaced b s = true.
Proof.
  destruct s as [|c r]; simpl; [reflexivity|].
  destruct (is_space c); [|auto]. rewrite andb_false_r. discriminate.
Qed.

Lemma trimStart_single_spaced (b : bool) (s : jsstring) :
  single_spaced b s = true -> single_spaced true (trimStart s) = true.
Proof.
  revert b. induction s as [|c r IH]; intros b; simpl; [reflexivity|].
  destruct (is_space c) eqn:Hc.
  - intros H. apply andb_prop in H as [_ Hr]. apply (IH _ Hr).
  - intros H. simpl. rewrite Hc. exact H.
Qed.

Lemma trimStart_suffix (s : jsstring) :
  exists l, s = l ++ trimStart s /\ Forall (fun c => is_space c = true) l.
Proof.
  induction s as [|c r (l & E & Hl)]; simpl; [exists []; split; [reflexivity|constructor]|].
  destruct (is_space c) eqn:Hc.
  - exists (c :: l). split; [simpl; congruence|constructor; assumption].
  - exists []. split; [reflexivity|constructor].
Qed.

Lemma trimStart_head (s : jsstring) (c : N) (r : jsstring) :
  trimStart s = c :: r -> is_space c = false.
Proof.
  induction s as [|d s IH]; simpl; [discriminate|].
  destruct (is_space d) eqn:Hd; [exact IH|]. intros [= <- _]. exact Hd.
Qed.

Lemma trimStart_id (s : jsstring) :
  (forall c r, s = c :: r -> is_space c = false) -> trimStart s = s.
Proof.
  destruct s as [|c r]; [reflexivity|]. intros H. simpl. rewrite (H c r eq_refl). reflexivity.
Qed.

Lemma trimEnd_prefix (s : jsstring) :
  exists l, s = trimEnd s ++ l /\ Forall (fun c => is_space c = true) l.
Proof.
  unfold trimEnd. destruct (trimStart_suffix (rev s)) as (l & E & Hl).
  exists (rev l). split; [|apply Forall_rev; exact Hl].
  rewrite <- rev_app_distr, <- E, rev_involutive. reflexivity.
Qed.

Lemma trimEnd_last (s l : jsstring) (c : N) :
  trimEnd s = l ++ [c] -> is_space c = false.
Proof.
  unfold trimEnd. intros H. apply (f_equal (@rev N)) in H.
  rewrite rev_involutive, rev_app_distr in H. simpl in H.
  exact (trimStart_head _ _ _ H).
Qed.

Lemma trimEnd_id (s : jsstring) :
  (forall l c, s = l ++ [c] -> is_space c = false) -> trimEnd s = s.
Proof.
  intros H. unfold trimEnd. rewrite trimStart_id; [apply rev_involutive|].
  intros c r E. apply (H (rev r) c). rewrite <- (rev_involutive s), E. reflexivity.
Qed.

Lemma single_spaced_prefix (b : bool) (p q : jsstring) :
  single_spaced b (p ++ q) = true -> single_spaced b p = true.
Proof.
  revert b. induction p as [|c r IH]; intros b; simpl; [reflexivity|].
  destruct (is_space c); [|apply IH].
  intros H. apply andb_prop in H as [H Hr]. rewrite H. apply (IH _ Hr).
Qed.

Lemma trim_head (s : jsstring) (c : N) (r : jsstring) :
  trim s = c :: r -> is_space c = false.
Proof.
  unfold trim. intros H.
  destruct (trimEnd_prefix (trimStart s)) as (l & E & _).
  rewrite H in E. simpl in E. exact (trimStart_head _ _ _ E).
Qed.

Lemma trim_id (s : jsstring) :
  (forall c r, s = c :: r -> is_space c = false) ->
  (forall l c, s = l ++ [c] -> is_space c = false) -> trim s = s.
Proof.
  intros Hh Hl. unfold trim. rewrite (trimStart_id _ Hh). apply trimEnd_id, Hl.
Qed.

Lemma trim_infix (s : jsstring) :
  exists l1 l2, s = l1 ++ trim s ++ l2 /\
                Forall (fun c => is_space c = true) l1 /\
                Forall (fun c => is_space c = true) l2.
Proof.
  destruct (trimStart_suffix s) as (l1 & E1 & H1).
  destruct (trimEnd_prefix (trimStart s)) as (l2 & E2 & H2).
  exists l1, l2. unfold trim. rewrite <- E2. auto.
Qed.

Lemma normalizeText_single_spaced (t : jsstring) :
  single_spaced true (normalizeText t) = true.
Proof.
  unfold normalizeText, trim.
  destruct (trimEnd_prefix (trimStart (collapse_spaces false t))) as (l & E & _).
  apply single_spaced_prefix with (q := l). rewrite <- E.
  apply trimStart_single_spaced with (b := false), collapse_single_spaced.
Qed.

Lemma single_spaced_spaces (b : bool) (s : jsstring) (c : N) :
  single_spaced b s = true -> In c s -> is_space c = true -> c = SPACE.
Proof.
  revert b. induction s as [|d r IH]; intros b; simpl; [tauto|].
  destruct (is_space d) eqn:Hd.
  - intros H [->|Hin] Hc.
    + apply andb_prop in H as [H _]. apply andb_prop in H as [H _]. apply N.eqb_eq, H.
    + apply andb_prop in H as [_ H]. exact (IH _ H Hin Hc).
  - intros H [->|Hin] Hc; [congruence|]. exact (IH _ H Hin Hc).
Qed.

Lemma single_spaced_apart (b : bool) (s l1 l2 : jsstring) (x y : N) :
  single_spaced b s = true -> s = l1 ++ x :: y :: l2 ->
  is_space x = true -> is_space y = false.
Proof.
  revert b s. induction l1 as [|d l1 IH]; intros b s H -> Hx.
  - simpl in H. rewrite Hx in H. apply andb_prop in H as [_ H].
    simpl in H. destruct (is_space y); [|reflexivity].
    rewrite andb_false_r in H. discriminate.
  - simpl in H. destruct (is_space d).
    + apply andb_prop in H as [_ H]. exact (IH _ _ H eq_refl Hx).
    + exact (IH _ _ H eq_refl Hx).
Qed.

Lemma filter_collapse (b : bool) (s : jsstring) :
  List.filter (fun c => negb (is_space c)) (collapse_spaces b s)
    = List.filter (fun c => negb (is_space c)) s.
Proof.
  revert b. induction s as [|c r IH]; intros b; simpl; [reflexivity|].
  destruct (is_space c) eqn:Hc; simpl.
  - destruct b; [apply IH|]. simpl. apply IH.
  - rewrite Hc. simpl. f_equal. apply IH.
Qed.

Lemma filter_spaces (l : jsstring) :
  Forall (fun c => is_space c = true) l ->
  List.filter (fun c => negb (is_space c)) l = [].
Proof.
  induction 1 as [|c l Hc _ IH]; simpl; [reflexivity|]. rewrite Hc. exact IH.
Qed.

Lemma filter_trim (s : jsstring) :
  List.filter (fun c => negb (is_space c)) (trim s)
    = List.filter (fun c => negb (is_space c)) s.
Proof.
  destruct (trim_infix s) as (l1 & l2 & E & H1 & H2).
  rewrite E at 2. rewrite !List.filter_app, (filter_spaces _ H1), (filter_spaces _ H2).
  simpl. rewrite app_nil_r. reflexivity.
Qed.

(** X4. [normalizeText] yields a normal form: white space occurs only as
    single spaces between other code units, never at either end; the other
    code units are those of the text, in order; and normalizing again
    changes nothing. *)
Theorem normalizeText_normal_form (t : jsstring) :
  let n := normalizeText t in
  (forall c, In c n -> is_space c = true -> c = SPACE) /\
  (forall l1 x y l2, n = l1 ++ x :: y :: l2 -> is_space x = true -> is_space y = false) /\
  (forall c r, n = c :: r -> is_space c = false) /\
  (forall l c, n = l ++ [c] -> is_space c = false) /\
  List.filter (fun c => negb (is_space c)) n = List.filter (fun c => negb (is_space c)) t /\
  normalizeText n = n.
Proof.
  intros n. pose proof (normalizeText_single_spaced t) as Hn. fold n in Hn.
  assert (Hhead : forall c r, n = c :: r -> is_space c = false).
  { intros c r E. exact (trim_head _ _ _ E). }
  assert (Hlast : forall l c, n = l ++ [c] -> is_space c = false).
  { intros l c E. exact (trimEnd_last _ _ _ E). }
  split; [intros c; exact (single_spaced_spaces _ _ _ Hn)|].
  split; [intros l1 x y l2 E; exact (single_spaced_apart _ _ _ _ _ _ Hn E)|].
  split; [exact Hhead|]. split; [exact Hlast|]. split.
  - unfold n, normalizeText. rewrite filter_trim. apply filter_collapse.
  - unfold normalizeText at 1.
    rewrite (single_spaced_fixed false n (single_spaced_weaken _ _ Hn)).
    exact (trim_id _ Hhead Hlast).
Qed.

End Text.

(** * More on the rendered tree *)

Section TreeEdits.
Import JS Dom.

Lemma has_ref_update_classes (f : list jsstring -> list jsstring) (x a : ref) (n : node) :
  has_ref a (update_classes f x n) = has_ref a n.
Proof. destruct n; reflexivity. Qed.

Lemma has_ref_remove_node (a a' : ref) (n : node) :
  has_ref a (remove_node a' n) = has_ref a n.
Proof. destruct n; reflexivity. Qed.

Lemma has_ref_insert_after (a b : ref) (new n : node) :
  has_ref a (insert_after b new n) = has_ref a n.
Proof. destruct n; reflexivity. Qed.

Lemma has_ref_refs (a : ref) (n : node) : has_ref a n = true -> In a (refs n).
Proof.
  destruct n as [|r t c kids]; simpl; [discriminate|].
  intros H. apply Nat.eqb_eq in H. auto.
Qed.

Lemma refs_update_classes (f : list jsstring -> list jsstring) (x : ref) (n : node) :
  refs (update_classes f x n) = refs n.
Proof.
  induction n as [data | r t c kids IH] using node_ind_kids; simpl; [reflexivity|].
  f_equal. induction IH as [|k kids Hk _ IHkids]; simpl; [reflexivity|].
  rewrite Hk, IHkids. reflexivity.
Qed.

Lemma class_lists_update_classes (f : list jsstring -> list jsstring) (x : ref) (n : node) :
  class_lists (update_classes f x n)
    = map (fun rc => (fst rc, if Nat.eqb (fst rc) x then f (snd rc) else snd rc))
          (class_lists n).
Proof.
  induction n as [data | r t c kids IH] using node_ind_kids; simpl; [reflexivity|].
  f_equal. induction IH as [|k kids Hk _ IHkids]; simpl; [reflexivity|].
  rewrite map_app, Hk, IHkids. reflexivity.
Qed.

Lemma remove_node_update_classes (f : list jsstring -> list jsstring) (x a : ref)
    (n : node) :
  remove_node a (update_classes f x n) = update_classes f x (remove_node a n).
Proof.
  induction n as [data | r t c kids IH] using node_ind_kids; simpl; [reflexivity|].
  f_equal. induction IH as [|k kids Hk _ IHkids]; simpl; [reflexivity|].
  rewrite Hk, has_ref_update_classes.
  destruct (has_ref a (remove_node a k)); simpl; rewrite IHkids; reflexivity.
Qed.

Lemma remove_node_absent (a : ref) (n : node) :
  ~ In a (refs n) -> remove_node a n = n.
Proof.
  induction n as [data | r t c kids IH] using node_ind_kids; simpl; [reflexivity|].
  intros Hn. f_equal.
  assert (Hk : ~ In a (flat_map refs kids)) by tauto. clear Hn.
  induction IH as [|k kids Hk' _ IHkids]; simpl; [reflexivity|].
  simpl in Hk. rewrite in_app_iff in Hk.
  rewrite Hk' by tauto.
  destruct (has_ref a k) eqn:E; [apply has_ref_refs in E; tauto|].
  simpl. rewrite IHkids by tauto. reflexivity.
Qed.

(** Taking out again what was just put in. *)
Lemma remove_node_insert_after (a b : ref) (new n : node) :
  has_ref a new = true -> ~ In a (refs n) ->
  remove_node a (insert_after b new n) = n.
Proof.
  intros Hnew.
  induction n as [data | r t c kids IH] using node_ind_kids; simpl; [reflexivity|].
  intros Hn. f_equal.
  assert (Hk : ~ In a (flat_map refs kids)) by tauto. clear Hn.
  induction IH as [|k kids Hk' _ IHkids]; simpl; [reflexivity|].
  simpl in Hk. rewrite in_app_iff in Hk.
  assert (Ek : has_ref a k = false).
  { destruct (has_ref a k) eqn:E; [apply has_ref_refs in E; tauto|reflexivity]. }
  destruct (has_ref b k); simpl; rewrite ?map_app, ?List.filter_app; simpl;
    rewrite Hk' by tauto; rewrite ?has_ref_remove_node, ?Hnew, Ek; simpl;
    rewrite IHkids by tauto; reflexivity.
Qed.

(** Taking out one element and putting in another, in either order. *)
Lemma remove_node_insert_after_comm (a b : ref) (new n : node) :
  a <> b -> has_ref a new = false -> remove_node a new = new ->
  remove_node a (insert_after b new n) = insert_after b new (remove_node a n).
Proof.
  intros Hab Hnew Hfix.
  induction n as [data | r t c kids IH] using node_ind_kids; simpl; [reflexivity|].
  f_equal. induction IH as [|k kids Hk _ IHkids]; simpl; [reflexivity|].
  rewrite map_app, List.filter_app, IHkids. f_equal.
  destruct (has_ref b k) eqn:Eb; simpl.
  - rewrite Hk, Hfix, Hnew, !has_ref_insert_after, !has_ref_remove_node.
    assert (has_ref a k = false) as ->.
    { destruct k as [|r' t' c' ks]; simpl in *; [reflexivity|].
      apply Nat.eqb_eq in Eb. apply Nat.eqb_neq. congruence. }
    simpl. rewrite has_ref_remove_node, Eb. reflexivity.
  - rewrite Hk, has_ref_insert_after, !has_ref_remove_node.
    destruct (has_ref a k); simpl; [reflexivity|].
    rewrite has_ref_remove_node, Eb. reflexivity.
Qed.

Lemma strict_refs_remove_node (a : ref) (n : node) :
  ~ In a (strict_refs (remove_node a n)).
Proof.
  induction n as [data | r t c kids IH] using node_ind_kids; [simpl; tauto|].
  unfold strict_refs. simpl.
  induction IH as [|k kids Hk _ IHkids]; simpl; [tauto|].
  destruct (has_ref a (remove_node a k)) eqn:E; simpl; [exact IHkids|].
  rewrite in_app_iff. intros [H|H]; [|exact (IHkids H)].
  destruct k as [|r' t' c' ks]; simpl in *; [tauto|].
  destruct H as [->|H]; [rewrite Nat.eqb_refl in E; discriminate|exact (Hk H)].
Qed.

(** The references after an insertion: those of the tree, and those of
    the new element once for each element that carries [b] below the
    root. *)
Lemma refs_insert_after_Permutation (b : ref) (new n : node) :
  refs (insert_after b new n)
    ≡ₚ concat (repeat (refs new) (count_occ Nat.eq_dec (strict_refs n) b)) ++ refs n.
Proof.
  induction n as [data | r t c kids IH] using node_ind_kids; [reflexivity|].
  unfold strict_refs. simpl.
  rewrite <- Permutation_middle. apply perm_skip.
  induction IH as [|k kids Hk _ IHkids]; simpl; [reflexivity|].
  rewrite count_occ_app, repeat_app, concat_app.
  assert (Hhere : flat_map refs (if has_ref b k then [insert_after b new k; new]
                                  else [insert_after b new k])
                  ≡ₚ concat (repeat (refs new) (count_occ Nat.eq_dec (refs k) b)) ++ refs k).
  { destruct k as [data | r' t' c' ks].
    - reflexivity.
    - cbn [has_ref]. cbn [refs count_occ]. fold (strict_refs (Elem r' t' c' ks)) in *.
      change (flat_map refs ks) with (strict_refs (Elem r' t' c' ks)).
      destruct (Nat.eq_dec r' b) as [->|Hne].
      + rewrite Nat.eqb_refl. cbn [flat_map]. rewrite app_nil_r, Hk.
        cbn [repeat concat refs]. fold (refs new).
        rewrite (Permutation_app_comm _ (refs new)). rewrite <- !app_assoc.
        reflexivity.
      + apply Nat.eqb_neq in Hne as ->. cbn [flat_map]. rewrite app_nil_r. exact Hk. }
  rewrite flat_map_app, Hhere, IHkids.
  rewrite <- !app_assoc. apply Permutation_app_head.
  rewrite !app_assoc. apply Permutation_app_tail. apply Permutation_app_comm.
Qed.

Lemma insert_after_NoDup (b a : ref) (new n : node) :
  refs new = [a] -> ~ In a (refs n) -> NoDup (refs n) ->
  NoDup (refs (insert_after b new n)).
Proof.
  intros Hnew Ha Hn. rewrite refs_insert_after_Permutation, Hnew.
  assert (Hcount : (count_occ Nat.eq_dec (strict_refs n) b <= 1)%nat).
  { destruct n as [|r t c kids]; [simpl; lia|].
    unfold strict_refs. simpl in *. apply NoDup_ListNoDup in Hn.
    inversion Hn as [|? ? _ Hkids]; subst.
    apply (proj1 (List.NoDup_count_occ Nat.eq_dec _) Hkids). }
  destruct (count_occ Nat.eq_dec (strict_refs n) b) as [|[|k]]; [exact Hn| |lia].
  simpl. apply NoDup_cons. split; [|exact Hn]. rewrite list_elem_of_In. exact Ha.
Qed.

End TreeEdits.

(** * Further properties of the session *)

Section Selection.
Import JS Eff Dom Translator.

Variable selector_valid : jsstring -> bool.
Variable selector_matches : jsstring -> node -> located -> bool.

Lemma existsb_filter_absorb {A} (p g : A -> bool) (l : list A) :
  (forall x, g x = true -> p x = true) ->
  existsb g (List.filter p l) = existsb g l.
Proof.
  intros H. induction l as [|x l IH]; simpl; [reflexivity|].
  destruct (p x) eqn:Hp; simpl; [rewrite IH; reflexivity|].
  destruct (g x) eqn:Hg; [rewrite (H _ Hg) in Hp; discriminate|exact IH].
Qed.

(** X5. The selection depends on the settings only through the skip
    selectors that are not empty and that parse: settings that agree on
    those give the same skip areas and the same blocks, whatever else
    they hold. An empty or malformed selector is as good as absent. *)
Theorem collectBlocks_usable_selectors (st st' : KissTranslatorSettings) (doc : node) :
  let usable := fun sel => str_truthy sel && selector_valid sel in
  List.filter usable (skipSelectors st) = List.filter usable (skipSelectors st') ->
  (forall c, isInSkipArea selector_valid selector_matches st doc c
             = isInSkipArea selector_valid selector_matches st' doc c) /\
  (forall root, selected selector_valid selector_matches st doc root
                = selected selector_valid selector_matches st' doc root) /\
  (forall root s, document s = doc -> settings s = st ->
     collectBlocks selector_valid selector_matches root (set_settings st' s)
       = (Returned (blocks_of selector_valid selector_matches root s), set_settings st' s)).
Proof.
  intros usable Hsame.
  assert (Hskip : forall c, isInSkipArea selector_valid selector_matches st doc c
                            = isInSkipArea selector_valid selector_matches st' doc c).
  { intros c. unfold isInSkipArea.
    rewrite <- (existsb_filter_absorb usable _ (skipSelectors st)),
            <- (existsb_filter_absorb usable _ (skipSelectors st')).
    - rewrite Hsame. reflexivity.
    - intros sel H. unfold usable, closest in *.
      destruct (str_truthy sel); [|discriminate]. destruct (selector_valid sel); auto.
    - intros sel H. unfold usable, closest in *.
      destruct (str_truthy sel); [|discriminate]. destruct (selector_valid sel); auto. }
  assert (Hsel : forall root, selected selector_valid selector_matches st doc root
                              = selected selector_valid selector_matches st' doc root).
  { intros root. unfold selected. apply List.filter_ext. intros c.
    unfold keeps. rewrite Hskip. reflexivity. }
  split; [exact Hskip|]. split; [exact Hsel|].
  intros root s <- <-. unfold collectBlocks, blocks_of, bind, get, ret. simpl.
  rewrite Hsel. reflexivity.
Qed.


End Selection.

Section Housekeeping.
Import JS Eff Dom Translator.

Variable fetch : list Event -> Request -> FetchResult.

(** X7. What [translateText] returns is served from the cache from then
    on: asked again for the same text, with whatever backend and whatever
    settings, the session returns the same translation and changes
    nothing, so that no request is issued. *)
Theorem translateText_result_cached (text : jsstring) (s s0 : State) (v : jsval)
    (fetch' : list Event -> Request -> FetchResult) (st : KissTranslatorSettings) :
  translateText fetch text s = (Returned v, s0) ->
  translateText fetch' text (set_settings st s0) = (Returned v, set_settings st s0).
Proof.
  intros H. apply translateText_returns in H as (Hv & _ & _ & _ & _ & _ & Hc & _).
  apply translateText_hit; assumption.
Qed.

Lemma strict_refs_remove_node_In (a x : ref) (n : node) :
  In x (strict_refs (remove_node a n)) -> In x (strict_refs n).
Proof.
  destruct n as [|r t c kids]; [simpl; tauto|]. unfold strict_refs. simpl.
  rewrite !in_flat_map. intros (k & Hk & Hx).
  apply List.filter_In in Hk as [Hk _]. apply in_map_iff in Hk as (k0 & <- & Hk0).
  exists k0. split; [exact Hk0|].
  pose proof (refs_remove_node a k0) as Hsub.
  apply list_elem_of_In. eapply elem_of_sublist; [|exact Hsub]. apply list_elem_of_In, Hx.
Qed.

Lemma strict_refs_fold_remove (l : list (ref * ref)) (d : node) (x : ref) :
  In x (strict_refs (fold_left (fun doc pair => remove_node (snd pair) doc) l d)) ->
  In x (strict_refs d) /\ ~ In x (map snd l).
Proof.
  revert d. induction l as [|p l IH]; intros d; simpl; [tauto|].
  intros H. apply IH in H as [H Hl]. split; [exact (strict_refs_remove_node_In _ _ _ H)|].
  intros [E|Hin]; [|exact (Hl Hin)]. subst x. exact (strict_refs_remove_node _ _ H).
Qed.

Lemma clear_removes_annotations_at (s : State) :
  (forall b a, In (b, a) (translated s) ->
               ~ In a (strict_refs (document (cleared s)))) /\
  (forall x, In x (strict_refs (document (cleared s))) -> In x (strict_refs (document s))).
Proof.
  destruct (cleared_fields s) as (_ & Hdoc & _). split.
  - intros b a Hin H. rewrite Hdoc in H. apply strict_refs_fold_remove in H as [_ H].
    apply H. apply in_map_iff. exists (b, a). auto.
  - intros x H. rewrite Hdoc in H. apply strict_refs_fold_remove in H as [H _]. exact H.
Qed.

(** X8. [clear] takes every tracked annotation out of the tree and adds
    nothing to it; afterwards the session tracks nothing,
    [hasTranslations] answers [false], and clearing again changes
    nothing. *)
Theorem clear_removes_annotations (s : State) :
  (forall b a, In (b, a) (translated s) ->
               ~ In a (strict_refs (document (cleared s)))) /\
  (forall x, In x (strict_refs (document (cleared s))) -> In x (strict_refs (document s))) /\
  hasTranslations (cleared s) = (Returned false, cleared s) /\
  cleared (cleared s) = cleared s.
Proof.
  destruct (cleared_fields s) as (Htr & Hdoc & _).
  split; [|split; [|split]].
  - intros b a Hin H. rewrite Hdoc in H. apply strict_refs_fold_remove in H as [_ H].
    apply H. apply in_map_iff. exists (b, a). auto.
  - intros x H. rewrite Hdoc in H. apply strict_refs_fold_remove in H as [H _]. exact H.
  - unfold hasTranslations, gets. rewrite Htr. reflexivity.
  - destruct s as [v st tr ca doc nx ev]. unfold cleared, clear, restoreOriginalVisibility,
      bind, modify. simpl. reflexivity.
Qed.

Lemma class_add_idem (c : jsstring) (l : list jsstring) :
  class_add c (class_add c l) = class_add c l.
Proof.
  unfold class_add. destruct (existsb (str_eqb c) l) eqn:E; [rewrite E; reflexivity|].
  rewrite existsb_app. simpl. unfold str_eqb at 2. rewrite bool_decide_true by reflexivity.
  rewrite orb_true_r. reflexivity.
Qed.

Lemma class_remove_idem (c : jsstring) (l : list jsstring) :
  class_remove c (class_remove c l) = class_remove c l.
Proof.
  unfold class_remove. induction l as [|x l IH]; simpl; [reflexivity|].
  destruct (str_eqb c x) eqn:E; simpl; [exact IH|]. rewrite E. simpl. rewrite IH. reflexivity.
Qed.

Lemma class_lists_fold_update (f : list jsstring -> list jsstring) (l : list (ref * ref))
    (d : node) :
  (forall c, f (f c) = f c) ->
  class_lists (fold_left (fun doc pair => update_classes f (fst pair) doc) l d)
    = map (fun rc => (fst rc, if existsb (fun p => Nat.eqb (fst p) (fst rc)) l
                              then f (snd rc) else snd rc))
          (class_lists d).
Proof.
  intros Hf. revert d. induction l as [|p l IH]; intros d; simpl.
  - rewrite <- (map_id (class_lists d)) at 1. apply map_ext. intros [r c]. reflexivity.
  - rewrite IH, class_lists_update_classes, map_map. apply map_ext. intros [r c]. simpl.
    unfold ref in *. rewrite (Nat.eqb_sym (fst p) r).
    destruct (Nat.eqb r (fst p)); simpl; [|reflexivity].
    destruct (existsb _ l); [rewrite Hf|]; reflexivity.
Qed.

Lemma refs_fold_update (f : list jsstring -> list jsstring) (l : list (ref * ref))
    (d : node) :
  refs (fold_left (fun doc pair => update_classes f (fst pair) doc) l d) = refs d.
Proof.
  revert d. induction l as [|p l IH]; intros d; simpl; [reflexivity|].
  rewrite IH. apply refs_update_classes.
Qed.

Lemma innerText_fold_update (f : list jsstring -> list jsstring) (l : list (ref * ref))
    (d : node) :
  innerText (fold_left (fun doc pair => update_classes f (fst pair) doc) l d) = innerText d.
Proof.
  revert d. induction l as [|p l IH]; intros d; simpl; [reflexivity|].
  rewrite IH. apply innerText_update_classes.
Qed.

Lemma applyOriginalVisibility_fold (s : State) :
  applyOriginalVisibility s =
    (Returned tt,
     set_document
       (fold_left
          (fun doc pair =>
             update_classes (if hideOriginal (settings s)
                             then class_add HIDE_ORIGINAL_CLASS
                             else class_remove HIDE_ORIGINAL_CLASS) (fst pair) doc)
          (translated s) (document s)) s).
Proof.
  unfold applyOriginalVisibility, hideOriginal_, restoreOriginalVisibility, bind, gets,
    modify, add_class, remove_class.
  destruct (hideOriginal (settings s)); reflexivity.
Qed.

Lemma applyOriginalVisibility_marks_at (s : State) :
  let s' := snd (applyOriginalVisibility s) in
  class_lists (document s')
    = map (fun rc =>
             (fst rc,
              if existsb (fun p => Nat.eqb (fst p) (fst rc)) (translated s)
              then (if hideOriginal (settings s)
                    then class_add HIDE_ORIGINAL_CLASS (snd rc)
                    else class_remove HIDE_ORIGINAL_CLASS (snd rc))
              else snd rc))
          (class_lists (document s)) /\
  refs (document s') = refs (document s) /\
  trace s' = trace s /\ next_ref s' = next_ref s.
Proof.
  cbn zeta. rewrite applyOriginalVisibility_fold.
  cbn [snd document set_document trace next_ref].
  split; [|split; [apply refs_fold_update|split; reflexivity]].
  destruct (hideOriginal (settings s)).
  - apply class_lists_fold_update, class_add_idem.
  - apply class_lists_fold_update, class_remove_idem.
Qed.

(** X9. [applyOriginalVisibility] touches class lists only, and only
    those of the translated originals: each of them gets
    [HIDE_ORIGINAL_CLASS] added when the setting asks to hide and removed
    otherwise; every other element keeps its class list, and the elements
    and the text of the tree stay as they are. Applying it again changes
    nothing. *)
Theorem applyOriginalVisibility_marks_originals (s : State) :
  exists s',
    applyOriginalVisibility s = (Returned tt, s') /\
    class_lists (document s')
      = map (fun rc =>
               (fst rc,
                if existsb (fun p => Nat.eqb (fst p) (fst rc)) (translated s)
                then (if hideOriginal (settings s)
                      then class_add HIDE_ORIGINAL_CLASS (snd rc)
                      else class_remove HIDE_ORIGINAL_CLASS (snd rc))
                else snd rc))
            (class_lists (document s)) /\
    refs (document s') = refs (document s) /\
    innerText (document s') = innerText (document s) /\
    translated s' = translated s /\ settings s' = settings s /\ cache s' = cache s /\
    trace s' = trace s /\
    class_lists (document (snd (applyOriginalVisibility s'))) = class_lists (document s').
Proof.
  eexists. split; [apply applyOriginalVisibility_fold|].
  set (f := if hideOriginal (settings s) then class_add HIDE_ORIGINAL_CLASS
            else class_remove HIDE_ORIGINAL_CLASS).
  assert (Hf : forall c, f (f c) = f c).
  { intros c. unfold f. destruct (hideOriginal (settings s));
      [apply class_add_idem | apply class_remove_idem]. }
  assert (Hcl : forall d,
             class_lists (fold_left (fun doc pair => update_classes f (fst pair) doc)
                            (translated s) d)
             = map (fun rc =>
                      (fst rc,
                       if existsb (fun p => Nat.eqb (fst p) (fst rc)) (translated s)
                       then (if hideOriginal (settings s)
                             then class_add HIDE_ORIGINAL_CLASS (snd rc)
                             else class_remove HIDE_ORIGINAL_CLASS (snd rc))
                       else snd rc)) (class_lists d)).
  { intros d. rewrite (class_lists_fold_update f _ _ Hf). apply map_ext. intros [r c].
    unfold f. simpl. destruct (hideOriginal (settings s)); reflexivity. }
  cbn [document set_document translated settings cache trace].
  split; [apply Hcl|]. split; [apply refs_fold_update|].
  split; [apply innerText_fold_update|].
  do 4 (split; [reflexivity|]).
  rewrite applyOriginalVisibility_fold.
  cbn [snd document set_document translated settings].
  rewrite Hcl, Hcl, map_map. apply map_ext. intros [r c]. simpl.
  match goal with
  | |- context [existsb ?g (translated s)] => destruct (existsb g (translated s))
  end; [|reflexivity].
  fold f. destruct (hideOriginal (settings s)); unfold f;
    [rewrite class_add_idem | rewrite class_remove_idem]; reflexivity.
Qed.

End Housekeeping.

Section Runs.
Import JS Eff Dom Translator.

Variable fetch : list Event -> Request -> FetchResult.
Variable selector_valid : jsstring -> bool.
Variable selector_matches : jsstring -> node -> located -> bool.

(** What one [translateBlock] does to the session: nothing but to the
    cache and the events, or that and one annotation. *)
Lemma translateBlock_cases (b : ref) (s s' : State) (res : outcome Error unit) :
  translateBlock fetch b s = (res, s') ->
  exists s0,
    view s0 = view s /\ settings s0 = settings s /\ translated s0 = translated s /\
    document s0 = document s /\ next_ref s0 = next_ref s /\
    (s' = s0 \/ exists v, res = Returned tt /\ s' = annotated b v s0).
Proof.
  rewrite translateBlock_run.
  destruct (length (block_text b s) <? 2)%nat.
  - intros [= <- <-]. exists s. repeat split; auto.
  - destruct (translateText fetch (block_text b s) s) as [[v|e] s0] eqn:Ht.
    + apply translateText_returns in Ht as (_ & Hv & Hst & Htr & Hd & Hn & _).
      destruct (truthy v); intros [= <- <-]; exists s0; (do 5 (split; [assumption|]));
        [right; exists v; auto | left; reflexivity].
    + apply translateText_throws in Ht as ((Hv & Hst & Htr & _ & Hd & Hn) & _).
      intros [= <- <-]. exists s0. do 5 (split; [assumption|]). left. reflexivity.
Qed.

Lemma annotated_well_formed (b : ref) (v : jsval) (s : State) :
  well_formed s -> well_formed (annotated b v s).
Proof.
  intros [Hnd Hb]. unfold well_formed, annotated. simpl. split.
  - apply insert_after_NoDup with (a := next_ref s); [apply annotation_refs| |exact Hnd].
    intros H. apply Hb in H. lia.
  - intros x Hx. apply refs_insert_after_incl in Hx as [Hx|Hx].
    + apply Hb in Hx. lia.
    + rewrite annotation_refs in Hx. destruct Hx as [<-|[]]. lia.
Qed.

Lemma well_formed_same_tree (s s' : State) :
  document s' = document s -> next_ref s' = next_ref s ->
  well_formed s -> well_formed s'.
Proof. unfold well_formed. intros -> ->. auto. Qed.

Lemma translateBlock_well_formed (b : ref) (s s' : State) (res : outcome Error unit) :
  translateBlock fetch b s = (res, s') -> well_formed s -> well_formed s'.
Proof.
  intros H Hwf. apply translateBlock_cases in H as (s0 & _ & _ & _ & Hd & Hn & Hs').
  pose proof (well_formed_same_tree _ _ Hd Hn Hwf) as Hwf0.
  destruct Hs' as [->|(v & _ & ->)]; [exact Hwf0|apply annotated_well_formed, Hwf0].
Qed.

Lemma for_each_well_formed (blocks : list ref) (s s' : State) (res : outcome Error unit) :
  for_each (translateBlock fetch) blocks s = (res, s') -> well_formed s -> well_formed s'.
Proof.
  revert s. induction blocks as [|b blocks IH]; intros s; simpl.
  - unfold ret. intros [= <- <-]. auto.
  - unfold bind. destruct (translateBlock fetch b s) as [[[]|e] s1] eqn:Hb.
    + intros H Hwf. apply (IH _ H). exact (translateBlock_well_formed _ _ _ _ Hb Hwf).
    + intros [= <- <-] Hwf. exact (translateBlock_well_formed _ _ _ _ Hb Hwf).
Qed.

Lemma applyOriginalVisibility_well_formed (s : State) :
  well_formed s -> well_formed (snd (applyOriginalVisibility s)).
Proof.
  rewrite applyOriginalVisibility_fold. unfold well_formed. simpl.
  rewrite refs_fold_update. auto.
Qed.

Lemma effective_root_None (rootOverride : option ref) (s : State) :
  effective_root rootOverride s = None ->
  rootOverride = None /\ ref_of (document s) = None /\
  translate fetch selector_valid selector_matches rootOverride s = (Thrown NoTarget, s).
Proof.
  unfold effective_root, translate. destruct rootOverride as [r|]; [discriminate|].
  unfold findPreviewRoot, bind, get, ret, throw. simpl.
  destruct (view s) as [c|]; simpl.
  - destruct (or_else _ _) eqn:E; simpl; [discriminate|].
    intros _. split; [reflexivity|]. split; [|reflexivity].
    unfold or_else at 1 in E.
    match type of E with
    | match ?x with _ => _ end = _ => destruct x; [discriminate|exact E]
    end.
  - destruct (ref_of (document s)); [discriminate|auto].
Qed.

(** X10. [translate] keeps the tree well formed, however it ends: the
    elements still carry distinct references, all handed out already, so
    that an annotation never shares its reference with another element. *)
Theorem translate_keeps_well_formed (rootOverride : option ref) (s s' : State)
    (res : outcome Error unit) :
  well_formed s ->
  translate fetch selector_valid selector_matches rootOverride s = (res, s') ->
  well_formed s'.
Proof.
  intros Hwf. destruct (effective_root rootOverride s) as [r|] eqn:Hr.
  - rewrite (translate_run _ _ _ _ _ _ Hr).
    destruct (for_each _ _ _) as [[[]|e] s2] eqn:Hloop.
    + intros H. apply for_each_well_formed in Hloop; [|apply cleared_well_formed, Hwf].
      apply applyOriginalVisibility_well_formed in Hloop. rewrite H in Hloop. exact Hloop.
    + intros [= <- <-].
      apply for_each_well_formed in Hloop; [exact Hloop|apply cleared_well_formed, Hwf].
  - apply effective_root_None in Hr as (_ & _ & ->). intros [= <- <-]. exact Hwf.
Qed.

End Runs.

Section RoundTrip.
Import JS Eff Dom Translator.

Variable fetch : list Event -> Request -> FetchResult.
Variable selector_valid : jsstring -> bool.
Variable selector_matches : jsstring -> node -> located -> bool.

Lemma map_set_fresh (k v : ref) (m : list (ref * ref)) :
  map_get k m = None -> map_set k v m = m ++ [(k, v)].
Proof.
  induction m as [|[k' v'] m IH]; simpl; [reflexivity|].
  destruct (Nat.eqb k' k); [discriminate|]. intros H. rewrite (IH H). reflexivity.
Qed.

Lemma fold_remove_insert_comm (l : list (ref * ref)) (b : ref) (new d : node) :
  (forall p, In p l -> snd p <> b /\ ~ In (snd p) (refs new)) ->
  fold_left (fun doc pair => remove_node (snd pair) doc) l (insert_after b new d)
    = insert_after b new (fold_left (fun doc pair => remove_node (snd pair) doc) l d).
Proof.
  revert d. induction l as [|p l IH]; intros d Hl; simpl; [reflexivity|].
  destruct (Hl p (or_introl eq_refl)) as [Hb Hnew].
  rewrite remove_node_insert_after_comm.
  - apply IH. intros q Hq. apply Hl. right. exact Hq.
  - exact Hb.
  - destruct (has_ref (snd p) new) eqn:E; [apply has_ref_refs in E; tauto|reflexivity].
  - apply remove_node_absent, Hnew.
Qed.

Lemma remove_fold_update_comm (f : list jsstring -> list jsstring) (a : ref)
    (l : list (ref * ref)) (d : node) :
  remove_node a (fold_left (fun doc pair => update_classes f (fst pair) doc) l d)
    = fold_left (fun doc pair => update_classes f (fst pair) doc) l (remove_node a d).
Proof.
  revert d. induction l as [|p l IH]; intros d; simpl; [reflexivity|].
  rewrite IH, remove_node_update_classes. reflexivity.
Qed.

Lemma fold_remove_fold_update_comm (f : list jsstring -> list jsstring)
    (l l' : list (ref * ref)) (d : node) :
  fold_left (fun doc pair => remove_node (snd pair) doc) l
    (fold_left (fun doc pair => update_classes f (fst pair) doc) l' d)
  = fold_left (fun doc pair => update_classes f (fst pair) doc) l'
      (fold_left (fun doc pair => remove_node (snd pair) doc) l d).
Proof.
  revert d. induction l as [|p l IH]; intros d; simpl; [reflexivity|].
  rewrite remove_fold_update_comm. apply IH.
Qed.

Lemma cleared_document (s : State) :
  document (cleared s)
    = fold_left (fun doc pair => remove_node (snd pair) doc) (translated s) (document s).
Proof. exact (proj1 (proj2 (cleared_fields s))). Qed.

Lemma annotated_swept (s1 s : State) (b : ref) (v : jsval) :
  loop_inv s1 s -> (b < next_ref s1)%nat -> map_get b (translated s) = None ->
  document (cleared (annotated b v s)) = document (cleared s).
Proof.
  intros Hinv Hb Hfresh. rewrite !cleared_document. unfold annotated. simpl.
  rewrite (map_set_fresh _ _ _ Hfresh), fold_left_app. simpl.
  rewrite fold_remove_insert_comm.
  - apply remove_node_insert_after; [simpl; apply Nat.eqb_refl|].
    intros Hin.
    assert (Hin' : In (next_ref s) (refs (document s))).
    { apply list_elem_of_In. eapply elem_of_sublist; [|apply refs_fold_remove].
      apply list_elem_of_In. exact Hin. }
    apply (inv_bound _ _ Hinv) in Hin'. lia.
  - intros [b' a'] Hp. destruct (inv_pairs _ _ Hinv _ _ Hp) as (Hb' & Ha' & _).
    split; [simpl; lia|]. rewrite annotation_refs. simpl. intros [E|[]]. lia.
Qed.

Lemma translateBlock_swept (s1 s s' : State) (b : ref) (res : outcome Error unit) :
  loop_inv s1 s -> (b < next_ref s1)%nat -> map_get b (translated s) = None ->
  translateBlock fetch b s = (res, s') -> document (cleared s') = document (cleared s).
Proof.
  intros Hinv Hb Hfresh H. rewrite translateBlock_run in H.
  destruct (length (block_text b s) <? 2)%nat; [injection H as <- <-; reflexivity|].
  destruct (translateText fetch (block_text b s) s) as [[v|e] s0] eqn:Ht.
  - pose proof Ht as Ht'.
    apply translateText_returns in Ht' as (_ & Hv & Hst & Htr & Hd & Hn & _).
    destruct (truthy v) eqn:Htv; injection H as <- <-.
    + rewrite <- (annotated_swept s1 s b v Hinv Hb Hfresh).
      rewrite !cleared_document. unfold annotated. simpl. rewrite Htr, Hd, Hn. reflexivity.
    + rewrite !cleared_document, Htr, Hd. reflexivity.
  - apply translateText_throws in Ht as ((_ & _ & Htr & _ & Hd & _) & _).
    injection H as <- <-. rewrite !cleared_document, Htr, Hd. reflexivity.
Qed.

Lemma for_each_swept (s1 : State) (blocks : list ref) (s s' : State)
    (res : outcome Error unit) :
  loop_inv s1 s -> List.NoDup blocks ->
  (forall b, In b blocks -> block_ok s1 b /\ map_get b (translated s) = None) ->
  for_each (translateBlock fetch) blocks s = (res, s') -> document (cleared s') = document (cleared s).
Proof.
  revert s. induction blocks as [|b blocks IH]; intros s Hinv Hnd Hok; cbn [for_each].
  - unfold ret. intros [= <- <-]. reflexivity.
  - unfold bind. destruct (translateBlock fetch b s) as [[[]|e] s2] eqn:Hb.
    + destruct (Hok b (or_introl eq_refl)) as [Hbok Hfresh].
      pose proof (translateBlock_swept s1 s s2 b _ Hinv (proj1 Hbok) Hfresh Hb) as Hstep.
      destruct (translateBlock_step fetch s1 s s2 b Hinv Hbok Hb) as (Hinv2 & _ & _).
      inversion Hnd as [|? ? Hnotin Hnd']; subst.
      intros Hrest. rewrite <- Hstep. apply (IH s2 Hinv2 Hnd'); [|exact Hrest].
      intros b' Hb'. split; [apply Hok; right; exact Hb'|].
      apply map_get_None. intros a' Hin.
      destruct (translateBlock_keys fetch b s s2 _ Hb b' a' Hin) as [Hold| ->].
      * destruct (Hok b' (or_intror Hb')) as [_ Hnone].
        assert (Hsome : is_Some (map_get b' (translated s))).
        { clear -Hold. induction (translated s) as [|[k w] m IHm]; [destruct Hold|].
          simpl. destruct (Nat.eqb k b') eqn:E; [eexists; reflexivity|].
          apply IHm. destruct Hold as [Hx|Hx]; [|exact Hx].
          injection Hx as -> ->. rewrite Nat.eqb_refl in E. discriminate. }
        rewrite Hnone in Hsome. destruct Hsome as [? Hx]. discriminate.
      * contradiction.
    + destruct (Hok b (or_introl eq_refl)) as [Hbok Hfresh].
      intros [= <- <-].
      exact (translateBlock_swept s1 s s2 b _ Hinv (proj1 Hbok) Hfresh Hb).
Qed.

Lemma translate_loop_swept (s : State) (r : ref) (s2 : State) (res : outcome Error unit) :
  well_formed s ->
  for_each (translateBlock fetch)
    (blocks_of selector_valid selector_matches r (cleared s)) (cleared s) = (res, s2) ->
  document (cleared s2) = document (cleared s).
Proof.
  intros Hwf Hloop.
  pose proof (cleared_well_formed _ Hwf) as Hwfc.
  destruct (cleared_fields s) as (Htr & _).
  pose proof (loop_inv_start _ Hwfc Htr) as Hinv.
  apply (for_each_swept (cleared s) _ (cleared s) s2 res Hinv) in Hloop.
  - rewrite Hloop. destruct s as [v st tr ca doc nx ev].
    unfold cleared, clear, restoreOriginalVisibility, bind, modify. reflexivity.
  - apply NoDup_ListNoDup, blocks_NoDup, (proj1 Hwfc).
  - intros b Hb. split; [exact (selected_block_ok _ _ _ _ _ Hwfc Hb)|].
    rewrite Htr. reflexivity.
Qed.

Lemma update_classes_fixed (f : list jsstring -> list jsstring) (x : ref) (n : node) :
  (forall rc, In rc (class_lists n) -> f (snd rc) = snd rc) ->
  update_classes f x n = n.
Proof.
  induction n as [data | r t c kids IH] using node_ind_kids; simpl; [reflexivity|].
  intros H. f_equal.
  - destruct (Nat.eqb r x); [|reflexivity]. exact (H (r, c) (or_introl eq_refl)).
  - assert (Hk : forall rc, In rc (flat_map class_lists kids) -> f (snd rc) = snd rc).
    { intros rc Hrc. apply H. right. exact Hrc. }
    clear H. induction IH as [|k kids Hk' _ IHkids]; simpl; [reflexivity|].
    rewrite Hk', IHkids; [reflexivity| |];
      intros rc Hrc; apply Hk; simpl; apply in_app_iff; auto.
Qed.

Lemma fold_update_fixed (f : list jsstring -> list jsstring) (l : list (ref * ref))
    (d : node) :
  (forall rc, In rc (class_lists d) -> f (snd rc) = snd rc) ->
  fold_left (fun doc pair => update_classes f (fst pair) doc) l d = d.
Proof.
  intros H. induction l as [|p l IH]; simpl; [reflexivity|].
  rewrite update_classes_fixed; assumption.
Qed.

Lemma class_remove_absent (c : jsstring) (l : list jsstring) :
  existsb (str_eqb c) l = false -> class_remove c l = l.
Proof.
  unfold class_remove. induction l as [|x l IH]; simpl; [reflexivity|].
  destruct (str_eqb c x); simpl; [discriminate|]. intros H. rewrite (IH H). reflexivity.
Qed.

(** X11. [translate] followed by [clear] undoes the annotations exactly.
    After a run that returned, the tree is the one [clear] would have left
    before the run, but for [HIDE_ORIGINAL_CLASS], added to or removed from
    the translated originals as the setting asks; after a run that threw,
    it is that tree itself. With originals shown and the class nowhere in
    the tree, the round trip gives back the tree as it was. *)
Theorem translate_then_clear (rootOverride : option ref) (s s' : State)
    (res : outcome Error unit) :
  well_formed s ->
  translate fetch selector_valid selector_matches rootOverride s = (res, s') ->
  translated (cleared s') = [] /\
  document (cleared s')
    = match res with
      | Returned _ =>
          fold_left
            (fun doc pair =>
               update_classes (if hideOriginal (settings s)
                               then class_add HIDE_ORIGINAL_CLASS
                               else class_remove HIDE_ORIGINAL_CLASS) (fst pair) doc)
            (translated s') (document (cleared s))
      | Thrown _ => document (cleared s)
      end /\
  (hideOriginal (settings s) = false ->
   (forall rc, In rc (class_lists (document s)) ->
               existsb (str_eqb HIDE_ORIGINAL_CLASS) (snd rc) = false) ->
   document (cleared s') = document (cleared s)).
Proof.
  intros Hwf Hrun.
  assert (Hdoc : document (cleared s')
    = match res with
      | Returned _ =>
          fold_left
            (fun doc pair =>
               update_classes (if hideOriginal (settings s)
                               then class_add HIDE_ORIGINAL_CLASS
                               else class_remove HIDE_ORIGINAL_CLASS) (fst pair) doc)
            (translated s') (document (cleared s))
      | Thrown _ => document (cleared s)
      end).
  { destruct (effective_root rootOverride s) as [r|] eqn:Hr.
    - rewrite (translate_run _ _ _ _ _ _ Hr) in Hrun.
      destruct (for_each _ _ _) as [[[]|e] s2] eqn:Hloop.
      + pose proof (translate_loop_swept _ _ _ _ Hwf Hloop) as Hswept.
        assert (Hst : settings s2 = settings s).
        { pose proof (cleared_well_formed _ Hwf) as Hwfc.
          destruct (cleared_fields s) as (Htr & _ & Hst & _).
          pose proof (loop_inv_start _ Hwfc Htr) as Hinv.
          destruct (for_each_inv fetch (cleared s) _ (cleared s) s2 Hinv
                      (fun b Hb => selected_block_ok _ _ _ _ _ Hwfc Hb) Hloop)
            as (Hinv2 & _).
          rewrite (inv_settings _ _ Hinv2). exact Hst. }
        rewrite applyOriginalVisibility_fold in Hrun. injection Hrun as <- <-.
        rewrite cleared_document. cbn [translated document set_document].
        rewrite fold_remove_fold_update_comm, <- cleared_document, Hswept, Hst.
        reflexivity.
      + injection Hrun as <- <-. exact (translate_loop_swept _ _ _ _ Hwf Hloop).
    - apply (effective_root_None fetch selector_valid selector_matches) in Hr
        as (_ & _ & Hno).
      rewrite Hno in Hrun. injection Hrun as <- <-. reflexivity. }
  split; [exact (proj1 (cleared_fields s'))|]. split; [exact Hdoc|].
  intros Hshow Hnone. rewrite Hdoc. destruct res as [[]|e]; [|reflexivity].
  rewrite Hshow. apply fold_update_fixed. intros rc Hrc.
  apply class_remove_absent, Hnone.
  destruct (cleared_fields s) as (_ & Hd & _). rewrite Hd in Hrc.
  apply list_elem_of_In. eapply elem_of_sublist; [|apply class_lists_fold_remove].
  apply list_elem_of_In. exact Hrc.
Qed.

End RoundTrip.

Section Requests.
Import JS Eff Dom Translator.

Variable fetch : list Event -> Request -> FetchResult.
Variable selector_valid : jsstring -> bool.
Variable selector_matches : jsstring -> node -> located -> bool.

Lemma translateWithOpenAI_sends (text : jsstring) (s s' : State)
    (res : outcome Error jsval) :
  translateWithOpenAI fetch text s = (res, s') ->
  s' = s \/ s' = log_event (Fetched (chat_request (settings s) text)) s.
Proof.
  unfold translateWithOpenAI, bind, gets. simpl.
  repeat (match goal with
          | |- context [if ?c then _ else _] => destruct c
          end; simpl; try (intros [= _ <-]; left; reflexivity)).
  destruct (do_fetch fetch _ s) as [[r|e] s1] eqn:Hf;
    apply do_fetch_frame in Hf; subst s1;
    [|intros [= _ <-]; right; reflexivity].
  intros H. right.
  repeat match type of H with
         | context [match ?x with _ => _ end] => destruct x
         end; injection H as _ <-; reflexivity.
Qed.

Lemma translateWithSimple_sends (text : jsstring) (s s' : State)
    (res : outcome Error jsval) :
  translateWithSimple fetch text s = (res, s') ->
  s' = s \/ s' = log_event (Fetched (simple_request (settings s) text)) s.
Proof.
  unfold translateWithSimple, bind, gets. simpl.
  repeat (match goal with
          | |- context [if ?c then _ else _] => destruct c
          end; simpl; try (intros [= _ <-]; left; reflexivity)).
  destruct (do_fetch fetch _ s) as [[r|e] s1] eqn:Hf;
    apply do_fetch_frame in Hf; subst s1;
    [|intros [= _ <-]; right; reflexivity].
  intros H. right.
  repeat match type of H with
         | context [match ?x with _ => _ end] => destruct x
         end; injection H as _ <-; reflexivity.
Qed.

(** The events of one backend call, with the request spelled out. *)
Lemma callBackend_sends (api : ApiType) (text : jsstring) (s s' : State)
    (res : outcome Error jsval) :
  callBackend fetch api text s = (res, s') ->
  exists sent,
    trace s' = trace s ++ BackendCalled api text :: sent /\
    (sent = [] \/
     sent = [Fetched (match api with
                      | openai => chat_request (settings s) text
                      | simple => simple_request (settings s) text
                      end)]).
Proof.
  unfold callBackend, bind, modify. intros H.
  destruct api.
  - apply translateWithSimple_sends in H as [-> | ->].
    + exists []. split; [reflexivity|left; reflexivity].
    + eexists. split; [simpl; rewrite <- app_assoc; reflexivity|right; reflexivity].
  - apply translateWithOpenAI_sends in H as [-> | ->].
    + exists []. split; [reflexivity|left; reflexivity].
    + eexists. split; [simpl; rewrite <- app_assoc; reflexivity|right; reflexivity].
Qed.

(** The events of one [translateBlock]: none, or one backend call for the
    text of the block, which is not cached and has two code units or
    more. *)
Lemma translateBlock_sends (b : ref) (s s' : State) (res : outcome Error unit) :
  translateBlock fetch b s = (res, s') ->
  trace s' = trace s \/
  (cached (block_text b s) s = false /\ (2 <= length (block_text b s))%nat /\
   exists sent,
     trace s' = trace s ++ BackendCalled (apiType (settings s)) (block_text b s) :: sent /\
     (sent = [] \/
      sent = [Fetched (match apiType (settings s) with
                       | openai => chat_request (settings s) (block_text b s)
                       | simple => simple_request (settings s) (block_text b s)
                       end)])).
Proof.
  rewrite translateBlock_run.
  destruct (length (block_text b s) <? 2)%nat eqn:Hlen; [intros [= _ <-]; left; reflexivity|].
  apply Nat.ltb_ge in Hlen. rewrite translateText_run.
  destruct (cached (block_text b s) s) eqn:Hc.
  - destruct (truthy _); intros [= _ <-]; left; reflexivity.
  - destruct (callBackend fetch _ _ s) as [[v|e] s1] eqn:Hb;
      apply callBackend_sends in Hb as (sent & Htr & Hsent).
    + destruct (truthy v) eqn:Hv; cbn iota beta; rewrite ?Hv; intros [= _ <-]; right;
        (split; [reflexivity|]); (split; [exact Hlen|]); exists sent;
        (split; [exact Htr|exact Hsent]).
    + intros [= _ <-]. right. split; [reflexivity|]. split; [exact Hlen|].
      exists sent. split; auto.
Qed.

Lemma for_each_events (P : Event -> Prop) (I : State -> Prop) (blocks : list ref) :
  (forall b s s' res,
      In b blocks -> I s -> translateBlock fetch b s = (res, s') ->
      (res = Returned tt -> I s') /\
      exists evs, trace s' = trace s ++ evs /\ Forall P evs) ->
  forall s s' res,
    I s -> for_each (translateBlock fetch) blocks s = (res, s') ->
    exists evs, trace s' = trace s ++ evs /\ Forall P evs.
Proof.
  induction blocks as [|b blocks IH]; intros Hstep s s' res HI; cbn [for_each].
  - unfold ret. intros [= _ <-]. exists []. split; [rewrite app_nil_r; reflexivity|constructor].
  - unfold bind. destruct (translateBlock fetch b s) as [[[]|e] s1] eqn:Hb.
    + destruct (Hstep b s s1 _ (or_introl eq_refl) HI Hb) as (HI1 & evs1 & Ht1 & HP1).
      intros Hrest. apply IH in Hrest as (evs2 & Ht2 & HP2);
        [|intros b' x x' r' Hb'; apply Hstep; right; exact Hb'|apply HI1; reflexivity].
      exists (evs1 ++ evs2). split; [rewrite Ht2, Ht1, app_assoc; reflexivity|].
      apply Forall_app. auto.
    + destruct (Hstep b s s1 _ (or_introl eq_refl) HI Hb) as (_ & evs1 & Ht1 & HP1).
      intros [= _ <-]. exists evs1. auto.
Qed.

Lemma translate_events (P : Event -> Prop) (rootOverride : option ref) (s s' : State)
    (res : outcome Error unit) :
  (forall r s2 res2,
      effective_root rootOverride s = Some r ->
      for_each (translateBlock fetch)
        (blocks_of selector_valid selector_matches r (cleared s)) (cleared s) = (res2, s2) ->
      exists evs, trace s2 = trace (cleared s) ++ evs /\ Forall P evs) ->
  translate fetch selector_valid selector_matches rootOverride s = (res, s') ->
  exists evs, trace s' = trace s ++ evs /\ Forall P evs.
Proof.
  intros Hloop. destruct (effective_root rootOverride s) as [r|] eqn:Hr.
  - rewrite (translate_run _ _ _ _ _ _ Hr).
    destruct (for_each _ _ _) as [[[]|e] s2] eqn:Hfe;
      destruct (Hloop r s2 _ eq_refl Hfe) as (evs & Ht & HP);
      rewrite (proj2 (proj2 (proj2 (proj2 (proj2 (proj2 (cleared_fields s))))))) in Ht.
    + rewrite applyOriginalVisibility_fold. intros [= _ <-]. exists evs. auto.
    + intros [= _ <-]. exists evs. auto.
  - apply (effective_root_None fetch selector_valid selector_matches) in Hr as (_ & _ & ->).
    intros [= _ <-]. exists []. split; [rewrite app_nil_r; reflexivity|constructor].
Qed.

(** X12. Whatever [translate] sends goes to the configured address: every
    request of a run is a POST to [apiUrl] as the session holds it, with
    a JSON body; it carries the API key as a bearer token when the chat
    backend is selected and no authorization header otherwise; and every
    backend call is for the selected backend. *)
Theorem translate_requests_configured_backend (rootOverride : option ref)
    (s s' : State) (res : outcome Error unit) :
  translate fetch selector_valid selector_matches rootOverride s = (res, s') ->
  exists evs,
    trace s' = trace s ++ evs /\
    Forall (fun e =>
              match e with
              | BackendCalled api _ => api = apiType (settings s)
              | Fetched req =>
                  req_url req = apiUrl (settings s) /\
                  req_method req = lit "POST" /\
                  req_content_type req = lit "application/json" /\
                  req_authorization req =
                    match apiType (settings s) with
                    | openai => Some (lit "Bearer " ++ apiKey (settings s))
                    | simple => None
                    end
              end) evs.
Proof.
  apply translate_events. intros r s2 res2 _.
  apply for_each_events with (I := fun x => settings x = settings s).
  - intros b x x' res' _ Hst Hb. split.
    + intros _. apply translateBlock_cases in Hb as (s0 & _ & Hst0 & _ & _ & _ & Hx).
      destruct Hx as [->|(v & _ & ->)]; simpl; congruence.
    + apply translateBlock_sends in Hb as [Hsame|(_ & _ & sent & Htr & Hsent)].
      * exists []. split; [rewrite app_nil_r; exact Hsame|constructor].
      * rewrite Hst in Htr, Hsent. eexists. split; [exact Htr|].
        constructor; [reflexivity|].
        destruct Hsent as [->| ->]; [constructor|].
        constructor; [|constructor].
        destruct (apiType (settings s)); (split; [|split; [|split]]); reflexivity.
  - exact (proj1 (proj2 (proj2 (cleared_fields s)))).
Qed.

(** X13. Only the texts of the selected blocks are sent, and none that
    were cached: every backend call of a run is for the normalized text of
    a block collected at its start, a text of 2 to 160 code units that the
    cache did not hold. *)
Theorem translate_sends_block_texts (rootOverride : option ref) (s s' : State)
    (res : outcome Error unit) (r : ref) :
  well_formed s ->
  effective_root rootOverride s = Some r ->
  translate fetch selector_valid selector_matches rootOverride s = (res, s') ->
  exists evs,
    trace s' = trace s ++ evs /\
    Forall (fun e =>
              match e with
              | BackendCalled _ t =>
                  (exists b, In b (blocks_of selector_valid selector_matches r (cleared s)) /\
                             t = block_text b (cleared s)) /\
                  (2 <= length t <= 160)%nat /\ cached t s = false
              | Fetched _ => True
              end) evs.
Proof.
  intros Hwf Hr. apply translate_events. intros r' s2 res2 Hr'.
  assert (r' = r) as -> by congruence.
  pose proof (cleared_well_formed _ Hwf) as Hwfc.
  destruct (cleared_fields s) as (Htr & _ & Hst & Hca & _).
  apply for_each_events with (I := loop_inv (cleared s));
    [|exact (loop_inv_start _ Hwfc Htr)].
  intros b x x' res' Hb Hinv Hrun.
  pose proof (selected_block_ok _ _ _ _ _ Hwfc Hb) as Hok.
  split.
  - intros ->. exact (proj1 (translateBlock_step fetch _ _ _ _ Hinv Hok Hrun)).
  - destruct (block_text_stable _ _ _ Hinv Hok) as [Htext Hlen].
    apply translateBlock_sends in Hrun as [Hsame|(Hc & _ & sent & Htrace & Hsent)].
    + exists []. split; [rewrite app_nil_r; exact Hsame|constructor].
    + eexists. split; [exact Htrace|].
      constructor; [|destruct Hsent as [->| ->]; repeat constructor].
      rewrite Htext in *. split; [exists b; auto|]. split; [split; [exact Hlen|]|].
      * destruct (selected_in_tree selector_valid selector_matches _ _ _ _
                    (proj1 Hwfc) Hb) as (c & Hc' & _ & Hsub & _).
        apply List.filter_In in Hc' as [_ Hkeep].
        apply keeps_Eligible in Hkeep as (_ & _ & _ & _ & Hbound).
        unfold block_text, innerText_of. rewrite Hsub. lia.
      * destruct (cached (block_text b (cleared s)) s) eqn:Hcs; [|reflexivity].
        assert (Hcc : cached (block_text b (cleared s)) (cleared s) = true).
        { unfold cached in *. rewrite Hca. exact Hcs. }
        unfold cached in Hc. rewrite (inv_cache _ _ Hinv _ Hcc) in Hc.
        unfold cached in Hcc. congruence.
Qed.

End Requests.

Section Loops.
Import JS Eff Dom Translator.

Variable fetch : list Event -> Request -> FetchResult.
Variable selector_valid : jsstring -> bool.
Variable selector_matches : jsstring -> node -> located -> bool.

(** A run that returned, taken apart: the loop went through all the
    blocks and the originals were then shown or hidden. *)
Lemma translate_returned (rootOverride : option ref) (s s' : State) (r : ref) :
  well_formed s ->
  effective_root rootOverride s = Some r ->
  translate fetch selector_valid selector_matches rootOverride s = (Returned tt, s') ->
  exists s2,
    for_each (translateBlock fetch)
      (blocks_of selector_valid selector_matches r (cleared s)) (cleared s)
      = (Returned tt, s2) /\
    applyOriginalVisibility s2 = (Returned tt, s') /\
    loop_inv (cleared s) s2 /\
    (forall b, In b (blocks_of selector_valid selector_matches r (cleared s)) ->
               is_Some (map_get b (translated s2))) /\
    well_formed s2.
Proof.
  intros Hwf Hr. rewrite (translate_run _ _ _ _ _ _ Hr).
  destruct (for_each _ _ _) as [[[]|e] s2] eqn:Hloop; [|discriminate].
  intros Happly. exists s2. split; [reflexivity|]. split; [exact Happly|].
  pose proof (cleared_well_formed _ Hwf) as Hwfc.
  destruct (cleared_fields s) as (Htr & _).
  destruct (for_each_inv fetch (cleared s) _ (cleared s) s2 (loop_inv_start _ Hwfc Htr)
              (fun b Hb => selected_block_ok _ _ _ _ _ Hwfc Hb) Hloop)
    as (Hinv & _ & Hall).
  split; [exact Hinv|]. split; [exact Hall|].
  exact (for_each_well_formed fetch _ _ _ _ Hloop Hwfc).
Qed.

(** A loop over blocks whose texts are all cached annotates each of them
    from the cache. *)
Lemma for_each_from_cache (s1 : State) (blocks : list ref) (s : State) :
  loop_inv s1 s -> cache s = cache s1 ->
  (forall b, In b blocks -> block_ok s1 b /\ cached (block_text b s1) s1 = true) ->
  exists s', for_each (translateBlock fetch) blocks s = (Returned tt, s') /\
             cache s' = cache s /\ trace s' = trace s.
Proof.
  revert s. induction blocks as [|b blocks IH]; intros s Hinv Hcache Hall; cbn [for_each].
  - exists s. auto.
  - destruct (Hall b (or_introl eq_refl)) as [Hok Hc].
    destruct (block_text_stable _ _ _ Hinv Hok) as [Htext Hlen].
    assert (Hrun : translateBlock fetch b s
                   = (Returned tt,
                      annotated b (default VUndefined (cache s !! block_text b s)) s)).
    { rewrite translateBlock_run.
      assert ((length (block_text b s) <? 2)%nat = false) as -> by (apply Nat.ltb_ge; lia).
      rewrite translateText_run.
      assert (Hcs : cached (block_text b s) s = true).
      { unfold cached in *. rewrite Htext, Hcache. exact Hc. }
      rewrite Hcs. unfold cached in Hcs. rewrite Hcs. reflexivity. }
    unfold bind. rewrite Hrun.
    destruct (translateBlock_step fetch _ _ _ _ Hinv Hok Hrun) as (Hinv' & _).
    destruct (IH _ Hinv') as (s' & Hs' & Hc' & Ht').
    + exact Hcache.
    + intros b' Hb'. apply Hall. right. exact Hb'.
    + exists s'. split; [exact Hs'|]. split; [rewrite Hc' | rewrite Ht']; reflexivity.
Qed.

End Loops.

Section Again.
Import JS Eff Dom Translator.

Variable fetch : list Event -> Request -> FetchResult.
Variable selector_valid : jsstring -> bool.
Variable selector_matches : jsstring -> node -> located -> bool.

(** X14. Translating the same page again costs nothing. After a run
    that returned, with originals shown and [HIDE_ORIGINAL_CLASS] nowhere
    in the tree, a second run on the same root returns too, whatever the
    backend would answer now: no backend call is made and no request
    issued, the cache is unchanged, and every block translated before is
    translated again. *)
Theorem retranslate_issues_no_request (rootOverride : option ref) (s s' : State)
    (r : ref) (fetch' : list Event -> Request -> FetchResult) :
  well_formed s ->
  effective_root rootOverride s = Some r ->
  effective_root rootOverride s' = Some r ->
  hideOriginal (settings s) = false ->
  (forall rc, In rc (class_lists (document s)) ->
              existsb (str_eqb HIDE_ORIGINAL_CLASS) (snd rc) = false) ->
  translate fetch selector_valid selector_matches rootOverride s = (Returned tt, s') ->
  exists s'',
    translate fetch' selector_valid selector_matches rootOverride s' = (Returned tt, s'') /\
    trace s'' = trace s' /\ cache s'' = cache s' /\
    (forall b, In b (blocks_of selector_valid selector_matches r (cleared s)) ->
               is_Some (map_get b (translated s'')) /\ cached (block_text b (cleared s)) s' = true).
Proof.
  intros Hwf Hr Hr' Hshow Hnone Hrun.
  destruct (translate_returned fetch selector_valid selector_matches _ _ _ _ Hwf Hr Hrun) as (s2 & Hloop & Happly & Hinv & Hall & Hwf2).
  rewrite applyOriginalVisibility_fold in Happly. injection Happly as Hs'.
  assert (Hst2 : settings s2 = settings s).
  { rewrite (inv_settings _ _ Hinv). exact (proj1 (proj2 (proj2 (cleared_fields s)))). }
  assert (Hwf' : well_formed s').
  { rewrite <- Hs'. unfold well_formed. simpl. rewrite refs_fold_update. exact Hwf2. }
  pose proof (cleared_well_formed _ Hwf') as Hwfc'.
  destruct (cleared_fields s') as (Htr' & _ & Hst' & Hca' & _ & _ & Htrace').
  assert (Hdoc : document (cleared s') = document (cleared s)).
  { rewrite cleared_document, <- Hs'. cbn [translated document set_document].
    rewrite fold_remove_fold_update_comm, <- cleared_document.
    rewrite (translate_loop_swept fetch selector_valid selector_matches _ _ _ _ Hwf Hloop).
    rewrite Hst2, Hshow. apply fold_update_fixed. intros rc Hrc.
    apply class_remove_absent, Hnone. rewrite cleared_document in Hrc.
    apply list_elem_of_In. eapply elem_of_sublist; [|apply class_lists_fold_remove].
    apply list_elem_of_In. exact Hrc. }
  assert (Hsettings : settings (cleared s') = settings (cleared s)).
  { rewrite Hst', <- Hs'. cbn [settings set_document]. rewrite Hst2.
    symmetry. exact (proj1 (proj2 (proj2 (cleared_fields s)))). }
  assert (Hblocks : blocks_of selector_valid selector_matches r (cleared s')
                    = blocks_of selector_valid selector_matches r (cleared s)).
  { unfold blocks_of. rewrite Hdoc, Hsettings. reflexivity. }
  assert (Htexts : forall b, block_text b (cleared s') = block_text b (cleared s)).
  { intros b. unfold block_text. rewrite Hdoc. reflexivity. }
  assert (Hcached : forall b,
             In b (blocks_of selector_valid selector_matches r (cleared s)) ->
             cached (block_text b (cleared s)) s' = true).
  { intros b Hb. destruct (Hall b Hb) as [a Ha]. apply map_get_In in Ha.
    destruct (inv_pairs _ _ Hinv _ _ Ha) as (_ & _ & v & Hv & Htv & _).
    rewrite <- Hs'. unfold cached. cbn [cache set_document]. rewrite Hv. exact Htv. }
  destruct (for_each_from_cache fetch' (cleared s')
              (blocks_of selector_valid selector_matches r (cleared s')) (cleared s')
              (loop_inv_start _ Hwfc' Htr') eq_refl) as (s3 & Hloop' & Hc3 & Ht3).
  { intros b Hb. split; [exact (selected_block_ok _ _ _ _ _ Hwfc' Hb)|].
    rewrite Hblocks in Hb. rewrite Htexts. unfold cached. rewrite Hca'.
    exact (Hcached b Hb). }
  destruct (for_each_inv fetch' (cleared s') _ (cleared s') s3 (loop_inv_start _ Hwfc' Htr')
              (fun b Hb => selected_block_ok _ _ _ _ _ Hwfc' Hb) Hloop')
    as (_ & _ & Hall').
  eexists. split.
  - rewrite (translate_run _ _ _ _ _ _ Hr'), Hloop'. apply applyOriginalVisibility_fold.
  - cbn [trace cache translated set_document].
    split; [congruence|]. split; [congruence|].
    intros b Hb. split; [|exact (Hcached b Hb)].
    apply Hall'. rewrite Hblocks. exact Hb.
Qed.

End Again.

Section Targets.
Import JS Eff Dom Translator.

Variable fetch : list Event -> Request -> FetchResult.

Lemma descendants_elements (anc : list node) (n : node) (d : located) :
  In d (descendants anc n) -> exists r, loc_ref d = Some r.
Proof.
  revert anc. induction n as [data | r t c kids IH] using node_ind_kids; intros anc;
    simpl; [tauto|].
  rewrite in_flat_map. intros (k & Hk & Hd).
  rewrite List.Forall_forall in IH. specialize (IH k Hk).
  destruct k as [|r' t' c' ks]; [destruct Hd|].
  destruct Hd as [<-|Hd]; [exists r'; reflexivity|exact (IH _ Hd)].
Qed.

Lemma querySelector_Some (p : located -> bool) (c : ref) (doc : node) (r : ref) :
  querySelector p c doc = Some r ->
  exists lc d, locate c doc = Some lc /\
               In d (descendants (loc_ancestors lc) (loc_node lc)) /\
               p d = true /\ loc_ref d = Some r.
Proof.
  unfold querySelector. destruct (locate c doc) as [lc|]; [|discriminate].
  destruct (List.find p _) as [d|] eqn:Hf; [|discriminate].
  apply find_some in Hf as [Hin Hp]. intros H. exists lc, d. auto.
Qed.

Lemma querySelector_None (p : located -> bool) (c : ref) (doc : node) (lc d : located) :
  querySelector p c doc = None -> locate c doc = Some lc ->
  In d (descendants (loc_ancestors lc) (loc_node lc)) -> p d = false.
Proof.
  unfold querySelector. intros H Hlc Hd. rewrite Hlc in H.
  destruct (List.find p _) as [d'|] eqn:Hf.
  - apply find_some in Hf as [Hin _].
    apply descendants_elements in Hin as [r Hr]. unfold loc_ref in Hr. congruence.
  - exact (find_none _ _ Hf _ Hd).
Qed.

(** X15. [findPreviewRoot] changes nothing and finds the preview surface
    of the view when there is one, and the body otherwise. Its answer is
    the root of the tree or an element below the view's container that
    carries [markdown-preview-view] or [markdown-reading-view]; when the
    container holds such an element the answer is one of them, and one
    with [markdown-preview-view] if any has it; without a view the answer
    is the root. *)
Theorem findPreviewRoot_target (s : State) :
  exists o,
    findPreviewRoot s = (Returned o, s) /\
    (o = None -> ref_of (document s) = None) /\
    (view s = None -> o = ref_of (document s)) /\
    (forall r, o = Some r ->
       ref_of (document s) = Some r \/
       exists c lc d,
         view s = Some c /\ locate c (document s) = Some lc /\
         In d (descendants (loc_ancestors lc) (loc_node lc)) /\ loc_ref d = Some r /\
         (has_class PREVIEW_VIEW (loc_node d) = true \/
          has_class READING_VIEW (loc_node d) = true)) /\
    (forall c lc d,
       view s = Some c -> locate c (document s) = Some lc ->
       In d (descendants (loc_ancestors lc) (loc_node lc)) ->
       has_class PREVIEW_VIEW (loc_node d) = true \/
       has_class READING_VIEW (loc_node d) = true ->
       exists d' r,
         o = Some r /\ In d' (descendants (loc_ancestors lc) (loc_node lc)) /\
         loc_ref d' = Some r /\
         (has_class PREVIEW_VIEW (loc_node d') = true \/
          has_class READING_VIEW (loc_node d') = true) /\
         (has_class PREVIEW_VIEW (loc_node d) = true ->
          has_class PREVIEW_VIEW (loc_node d') = true)).
Proof.
  eexists. split; [reflexivity|]. cbn beta.
  destruct (view s) as [c|] eqn:Hview.
  2:{ simpl. split; [auto|]. split; [auto|]. split; [auto|]. discriminate. }
  set (q1 := querySelector
               (fun c0 => has_class PREVIEW_VIEW (loc_node c0)
                          && existsb (has_class READING_VIEW) (loc_ancestors c0))
               c (document s)).
  set (q2 := querySelector (fun c0 => has_class PREVIEW_VIEW (loc_node c0)) c (document s)).
  set (q3 := querySelector (fun c0 => has_class READING_VIEW (loc_node c0)) c (document s)).
  assert (Hsame : forall lc lc', locate c (document s) = Some lc ->
                                 locate c (document s) = Some lc' -> lc' = lc)
    by (intros; congruence).
  split; [|split; [discriminate|split]].
  - destruct q1, q2, q3; simpl; (discriminate || auto).
  - intros r Hr.
    assert (Hq : q1 = Some r \/ q2 = Some r \/ q3 = Some r \/
                 ref_of (document s) = Some r).
    { revert Hr. destruct q1, q2, q3; simpl; auto. }
    destruct Hq as [Hq|[Hq|[Hq|Hq]]]; [| | |left; exact Hq];
      apply querySelector_Some in Hq as (lc & d & Hlc & Hd & Hp & Hdr);
      right; exists c, lc, d; (do 4 (split; [auto|])); auto.
    apply andb_prop in Hp as [Hp _]. left. exact Hp.
  - intros c' lc d [= <-] Hlc Hd Hclass.
    destruct q1 as [r1|] eqn:H1.
    { apply querySelector_Some in H1 as (lc1 & d1 & Hlc1 & Hd1 & Hp1 & Hr1).
      rewrite (Hsame _ _ Hlc Hlc1) in *. apply andb_prop in Hp1 as [Hp1 _].
      exists d1, r1. simpl. auto 6. }
    destruct q2 as [r2|] eqn:H2.
    { apply querySelector_Some in H2 as (lc2 & d2 & Hlc2 & Hd2 & Hp2 & Hr2).
      rewrite (Hsame _ _ Hlc Hlc2) in *. exists d2, r2. simpl. auto 6. }
    pose proof (querySelector_None _ _ _ _ _ H2 Hlc Hd) as Hnot. cbn beta in Hnot.
    destruct Hclass as [Hp|Hp]; [congruence|].
    destruct q3 as [r3|] eqn:H3.
    { apply querySelector_Some in H3 as (lc3 & d3 & Hlc3 & Hd3 & Hp3 & Hr3).
      rewrite (Hsame _ _ Hlc Hlc3) in *. exists d3, r3. simpl.
      split; [reflexivity|]. split; [exact Hd3|]. split; [exact Hr3|].
      split; [auto|]. congruence. }
    pose proof (querySelector_None _ _ _ _ _ H3 Hlc Hd) as Hnot3. cbn beta in Hnot3.
    congruence.
Qed.

Lemma trimStart_spaces (c : jsstring) :
  Forall (fun x => is_space x = true) c -> trimStart c = [].
Proof. induction 1 as [|x c Hx _ IH]; simpl; [reflexivity|]. rewrite Hx. exact IH. Qed.

(** X16. The chat backend's answer is trimmed before it is used, and an
    answer that is empty after trimming is rejected: a completion whose
    content is a string is cached and returned without its leading and
    trailing white space, and one that holds white space only makes
    [translateText] throw the empty-translation error, with nothing
    cached. *)
Theorem chat_reply_trimmed (s : State) (text : jsstring) (res : Response) (data : jsval)
    (c : jsstring) :
  let called := log_event (BackendCalled openai text) s in
  let sent := log_event (Fetched (chat_request (settings s) text)) called in
  apiType (settings s) = openai ->
  chat_configured (settings s) ->
  cached text s = false ->
  fetch (trace called) (chat_request (settings s) text) = FetchResolved res ->
  ok res = true ->
  body_json res = Some data ->
  completion_content data = VStr c ->
  translateText fetch text s
    = (if str_truthy (trim c)
       then (Returned (VStr (trim c)), set_cache (<[text := VStr (trim c)]> (cache s)) sent)
       else (Thrown EmptyTranslation, sent)) /\
  (Forall (fun x => is_space x = true) c ->
   translateText fetch text s = (Thrown EmptyTranslation, sent) /\ cache sent = cache s).
Proof.
  intros called sent Hapi Hconf Hmiss Hfetch Hok Hjson Hcontent.
  assert (Hrun : translateText fetch text s
    = (if str_truthy (trim c)
       then (Returned (VStr (trim c)), set_cache (<[text := VStr (trim c)]> (cache s)) sent)
       else (Thrown EmptyTranslation, sent))).
  { rewrite translateText_run, Hmiss, Hapi. unfold callBackend, bind, modify.
    fold called.
    rewrite (translateWithOpenAI_configured fetch (settings s) text called eq_refl Hconf).
    rewrite Hfetch. cbn zeta. rewrite Hok. cbn [negb]. rewrite Hjson, Hcontent.
    cbn [truthy]. destruct (str_truthy (trim c)); reflexivity. }
  split; [exact Hrun|]. intros Hblank. rewrite Hrun.
  unfold trim. rewrite (trimStart_spaces _ Hblank). split; reflexivity.
Qed.

End Targets.

(** * The settings tab *)

Section SettingsTab.
Import JS Plugin.

Lemma split_pieces (sep : N -> bool) (value : jsstring) :
  Forall (Forall (fun c => sep c = false)) (split sep value).
Proof.
  induction value as [|c rest IH]; simpl; [repeat constructor|].
  destruct (sep c) eqn:Hc; [constructor; [constructor|exact IH]|].
  destruct (split sep rest) as [|piece pieces]; [repeat constructor; exact Hc|].
  inversion IH; subst. constructor; [constructor; assumption|assumption].
Qed.

Lemma split_whole (sep : N -> bool) (x : jsstring) :
  Forall (fun c => sep c = false) x -> split sep x = [x].
Proof.
  induction 1 as [|c x Hc _ IH]; simpl; [reflexivity|]. rewrite Hc, IH. reflexivity.
Qed.

Lemma split_first (sep : N -> bool) (x : jsstring) (c : N) (rest : jsstring) :
  Forall (fun c => sep c = false) x -> sep c = true ->
  split sep (x ++ c :: rest) = x :: split sep rest.
Proof.
  intros Hx Hc. induction Hx as [|d x Hd _ IH]; simpl; [rewrite Hc; reflexivity|].
  rewrite Hd, IH. reflexivity.
Qed.

Lemma split_join (sep : N -> bool) (c : N) (l : list jsstring) :
  sep c = true -> l <> [] ->
  Forall (Forall (fun c => sep c = false)) l ->
  split sep (join [c] l) = l.
Proof.
  intros Hc Hne Hl. induction Hl as [|x l Hx Hl IH]; [contradiction|].
  destruct l as [|y l]; [simpl; apply split_whole, Hx|].
  change (join [c] (x :: y :: l)) with (x ++ c :: join [c] (y :: l)).
  rewrite (split_first _ _ _ _ Hx Hc), IH; [reflexivity|discriminate].
Qed.

Lemma trim_trim (s : jsstring) : trim (trim s) = trim s.
Proof.
  apply trim_id.
  - intros c r E. exact (trim_head _ _ _ E).
  - intros l c E. exact (trimEnd_last _ _ _ E).
Qed.

Lemma trim_keeps (P : N -> Prop) (s : jsstring) : Forall P s -> Forall P (trim s).
Proof.
  intros H. destruct (trim_infix s) as (l1 & l2 & E & _). rewrite E in H.
  apply Forall_app in H as [_ H]. apply Forall_app in H as [H _]. exact H.
Qed.

(** X17. The skip selectors the settings tab stores are clean: none is
    empty, none has white space at either end, none holds a line break or
    a comma (so a selector list such as [h1, h2] is stored as two
    selectors). A list of such selectors survives the round trip through
    the text area: shown and parsed again it is the same list, and so
    parsing what was parsed and shown changes nothing. *)
Theorem parse_skipSelectors_clean :
  (forall value sel,
      In sel (parse_skipSelectors value) ->
      sel <> [] /\ trim sel = sel /\ Forall (fun c => c <> 10%N /\ c <> 44%N) sel) /\
  (forall l,
      (forall sel, In sel l ->
                   sel <> [] /\ trim sel = sel /\
                   Forall (fun c => c <> 10%N /\ c <> 44%N) sel) ->
      parse_skipSelectors (show_skipSelectors l) = l) /\
  (forall value,
      parse_skipSelectors (show_skipSelectors (parse_skipSelectors value))
        = parse_skipSelectors value).
Proof.
  assert (Hsep : forall c, is_separator c = false <-> c <> 10%N /\ c <> 44%N).
  { intros c. unfold is_separator. rewrite orb_false_iff, !N.eqb_neq. reflexivity. }
  assert (Hclean : forall value sel,
             In sel (parse_skipSelectors value) ->
             sel <> [] /\ trim sel = sel /\ Forall (fun c => c <> 10%N /\ c <> 44%N) sel).
  { intros value sel Hin. unfold parse_skipSelectors in Hin.
    apply List.filter_In in Hin as [Hin Hne]. apply in_map_iff in Hin as (piece & <- & Hpiece).
    split; [intros E; rewrite E in Hne; discriminate|]. split; [apply trim_trim|].
    apply trim_keeps. pose proof (split_pieces is_separator value) as Hall.
    rewrite List.Forall_forall in Hall. specialize (Hall piece Hpiece).
    eapply List.Forall_impl; [|exact Hall]. intros c. apply Hsep. }
  assert (Hround : forall l,
             (forall sel, In sel l ->
                          sel <> [] /\ trim sel = sel /\
                          Forall (fun c => c <> 10%N /\ c <> 44%N) sel) ->
             parse_skipSelectors (show_skipSelectors l) = l).
  { intros l Hl. unfold parse_skipSelectors, show_skipSelectors.
    destruct l as [|x l]; [reflexivity|].
    rewrite split_join; [|reflexivity|discriminate|].
    - assert (Hmap : map trim (x :: l) = x :: l).
      { rewrite <- (map_id (x :: l)) at 2. apply map_ext_in. intros sel Hsel.
        exact (proj1 (proj2 (Hl sel Hsel))). }
      rewrite Hmap. apply forallb_filter_id. apply forallb_forall. intros sel Hsel.
      destruct (Hl sel Hsel) as [Hne _]. destruct sel; [contradiction|reflexivity].
    - apply List.Forall_forall. intros sel Hsel. destruct (Hl sel Hsel) as (_ & _ & Hc).
      eapply List.Forall_impl; [|exact Hc]. intros c. apply Hsep. }
  split; [exact Hclean|]. split; [exact Hround|].
  intros value. apply Hround. intros sel. apply Hclean.
Qed.

End SettingsTab.

(** * The commands of the plugin *)

Section Commands.
Import JS Eff Dom Translator Plugin.

Variable fetch : list Event -> Request -> FetchResult.
Variable selector_valid : jsstring -> bool.
Variable selector_matches : jsstring -> node -> located -> bool.

Lemma call_clear (x : Session) (w : World) :
  call clear x w
    = (Returned tt, session_of (cleared (attach x w)), world_of (cleared (attach x w))).
Proof. unfold call. rewrite clear_run. reflexivity. Qed.

Lemma call_clear_fresh (v : option ref) (st : KissTranslatorSettings) (w : World) :
  call clear (new_TranslationSession v st) w
    = (Returned tt, new_TranslationSession v st, w).
Proof. destruct w. reflexivity. Qed.

Lemma call_updateSettings (st : KissTranslatorSettings) (x : Session) (w : World) :
  call (updateSettings st) x w
    = (Returned tt,
       {| s_view := s_view x; s_settings := st; s_translated := s_translated x;
          s_cache := s_cache x |}, w).
Proof. destruct w. reflexivity. Qed.

(** X18. The floating button toggles. When the interface session holds
    translations, [translateUIWithFab] translates nothing: it takes every
    tracked annotation out of the tree, empties the session's mapping,
    shows the notice that the translations are cleared and issues no
    request; the cache is kept, the settings are the plugin's, and the
    note session is not touched. *)
Theorem translateUIWithFab_clears (p : KissTranslatorPlugin) (w : World) (u : Session)
    (target : ref) :
  uiSession p = Some u ->
  s_translated u <> [] ->
  ui_target (w_document w) = Some target ->
  exists u' w',
    translateUIWithFab fetch selector_valid selector_matches (p, w)
      = (notify TranslationsCleared (set_uiSession (Some u') p), w') /\
    s_translated u' = [] /\ s_cache u' = s_cache u /\ s_settings u' = p_settings p /\
    w_trace w' = w_trace w /\ w_next_ref w' = w_next_ref w /\
    (forall b a, In (b, a) (s_translated u) -> ~ In a (strict_refs (w_document w'))) /\
    (forall r, In r (strict_refs (w_document w')) -> In r (strict_refs (w_document w))).
Proof.
  intros Hu Hsome Htarget.
  set (x := {| s_view := s_view u; s_settings := p_settings p;
               s_translated := s_translated u; s_cache := s_cache u |}).
  exists (session_of (cleared (attach x w))), (world_of (cleared (attach x w))).
  destruct (cleared_fields (attach x w)) as (Htr & _ & Hst & Hca & _ & Hnx & Htrace).
  destruct (clear_removes_annotations_at (attach x w)) as (Hgone & Hsub).
  split; [|repeat split; auto].
  unfold translateUIWithFab. rewrite Htarget, Hu, call_updateSettings. fold x.
  assert (Hhas : call hasTranslations x w = (Returned true, x, w)).
  { unfold call, hasTranslations, gets. simpl.
    destruct (s_translated u); [contradiction|]. destruct w. reflexivity. }
  rewrite Hhas, call_clear. reflexivity.
Qed.

(** X19. The clear command clears the session of the active view only.
    When the plugin's session belongs to the active view, its tracked
    annotations leave the tree and its cache is kept. When it belongs to
    another view, the command replaces it by a new session and changes
    nothing in the tree: the annotations of the old session stay where
    they are, and no session tracks them any more. Without an active view
    the command does nothing. *)
Theorem clearActive_own_view_only (p : KissTranslatorPlugin) (w : World) (x : Session)
    (v : ref) :
  session p = Some x ->
  (s_view x = Some v ->
   exists x' w',
     clearActive (Some v) (p, w) = (set_session (Some x') p, w') /\
     s_translated x' = [] /\ s_cache x' = s_cache x /\ s_settings x' = p_settings p /\
     w_trace w' = w_trace w /\
     (forall b a, In (b, a) (s_translated x) -> ~ In a (strict_refs (w_document w')))) /\
  (s_view x <> Some v ->
   clearActive (Some v) (p, w)
     = (set_session (Some (new_TranslationSession (Some v) (p_settings p))) p, w)) /\
  clearActive None (p, w) = (p, w).
Proof.
  intros Hx. split; [|split; [|reflexivity]].
  - intros Hview.
    set (y := {| s_view := s_view x; s_settings := p_settings p;
                 s_translated := s_translated x; s_cache := s_cache x |}).
    exists (session_of (cleared (attach y w))), (world_of (cleared (attach y w))).
    destruct (cleared_fields (attach y w)) as (Htr & _ & Hst & Hca & _ & _ & Htrace).
    destruct (clear_removes_annotations_at (attach y w)) as (Hgone & _).
    split; [|repeat split; auto].
    unfold clearActive, ensureSession. rewrite Hx.
    rewrite bool_decide_true by exact Hview.
    rewrite call_updateSettings. fold y. cbn [session set_session].
    rewrite call_clear. reflexivity.
  - intros Hview. unfold clearActive, ensureSession. rewrite Hx.
    rewrite bool_decide_false by exact Hview. cbn [session set_session].
    rewrite call_clear_fresh. reflexivity.
Qed.

Lemma set_hideOriginal_twice (b : bool) (st : KissTranslatorSettings) :
  set_hideOriginal (hideOriginal st) (set_hideOriginal b st) = st.
Proof. destruct st. reflexivity. Qed.

Lemma toggleOriginal_settings (p : KissTranslatorPlugin) (w : World) :
  p_settings (fst (toggleOriginal (p, w)))
    = set_hideOriginal (negb (hideOriginal (p_settings p))) (p_settings p).
Proof.
  unfold toggleOriginal.
  change (session (saveSettings (set_p_settings _ p))) with (session p).
  destruct (session p) as [x|]; [|reflexivity].
  destruct (call _ x w) as [[? ?] ?]. reflexivity.
Qed.

Lemma toggleOriginal_run (p : KissTranslatorPlugin) (w : World) :
  let st := set_hideOriginal (negb (hideOriginal (p_settings p))) (p_settings p) in
  let p1 := saveSettings (set_p_settings st p) in
  toggleOriginal (p, w)
    = (notify (if hideOriginal st then OriginalHidden else OriginalShown)
         match session p with
         | Some x =>
             set_session (Some {| s_view := s_view x; s_settings := st;
                                  s_translated := s_translated x;
                                  s_cache := s_cache x |}) p1
         | None => p1
         end,
       match session p with
       | Some x =>
           world_of (snd (applyOriginalVisibility
                            (attach {| s_view := s_view x; s_settings := st;
                                       s_translated := s_translated x;
                                       s_cache := s_cache x |} w)))
       | None => w
       end).
Proof.
  intros st p1. unfold toggleOriginal. fold st. fold p1.
  change (session p1) with (session p).
  destruct (session p) as [x|]; [|reflexivity].
  assert (Hcall : call (updateSettings st ;;; applyOriginalVisibility)%eff x w
                  = (Returned tt,
                     {| s_view := s_view x; s_settings := st;
                        s_translated := s_translated x; s_cache := s_cache x |},
                     world_of (snd (applyOriginalVisibility
                                      (attach {| s_view := s_view x; s_settings := st;
                                                 s_translated := s_translated x;
                                                 s_cache := s_cache x |} w))))).
  { unfold call, bind, updateSettings, modify.
    change (set_settings st (attach x w))
      with (attach {| s_view := s_view x; s_settings := st;
                      s_translated := s_translated x; s_cache := s_cache x |} w).
    rewrite applyOriginalVisibility_fold. destruct w. reflexivity. }
  rewrite Hcall. reflexivity.
Qed.

(** X20. [toggleOriginal] flips the setting, saves the settings and, when
    the plugin has a note session, hands it the new settings and applies
    them: each translated original of that session gets
    [HIDE_ORIGINAL_CLASS] added if originals are now hidden and removed if
    they are now shown, and nothing else in the tree changes. The
    interface session is left as it is, no request is issued, and
    toggling twice gives back the settings. *)
Theorem toggleOriginal_flips (p : KissTranslatorPlugin) (w : World) :
  let st := set_hideOriginal (negb (hideOriginal (p_settings p))) (p_settings p) in
  exists p' w',
    toggleOriginal (p, w) = (p', w') /\
    p_settings p' = st /\ saved p' = saved p ++ [st] /\
    notices p' = notices p ++ [if hideOriginal st then OriginalHidden else OriginalShown] /\
    uiSession p' = uiSession p /\
    w_trace w' = w_trace w /\ w_next_ref w' = w_next_ref w /\
    refs (w_document w') = refs (w_document w) /\
    match session p with
    | None => session p' = None /\ w' = w
    | Some x =>
        session p' = Some {| s_view := s_view x; s_settings := st;
                             s_translated := s_translated x; s_cache := s_cache x |} /\
        class_lists (w_document w')
          = map (fun rc =>
                   (fst rc,
                    if existsb (fun pr => Nat.eqb (fst pr) (fst rc)) (s_translated x)
                    then (if hideOriginal st
                          then class_add HIDE_ORIGINAL_CLASS (snd rc)
                          else class_remove HIDE_ORIGINAL_CLASS (snd rc))
                    else snd rc))
                (class_lists (w_document w))
    end /\
    p_settings (fst (toggleOriginal (p', w'))) = p_settings p.
Proof.
  intros st.
  assert (Hback : set_hideOriginal (negb (hideOriginal st)) st = p_settings p).
  { unfold st. destruct (p_settings p) as [? ? ? ? ? ? ? ? ? h ?]. simpl.
    rewrite negb_involutive. reflexivity. }
  eexists _, _. split; [apply toggleOriginal_run|]. fold st.
  cbn [p_settings saved notices uiSession notify fst].
  destruct (session p) as [x|] eqn:Hx.
  - set (y := {| s_view := s_view x; s_settings := st;
                 s_translated := s_translated x; s_cache := s_cache x |}).
    destruct (applyOriginalVisibility_marks_at (attach y w))
      as (Hcl & Hrefs & Htrace & Hnext).
    cbn [p_settings saved notices uiSession session set_session saveSettings
         set_p_settings].
    do 4 (split; [reflexivity|]).
    split; [exact Htrace|]. split; [exact Hnext|]. split; [exact Hrefs|].
    split; [split; [reflexivity|exact Hcl]|].
    rewrite toggleOriginal_settings. exact Hback.
  - cbn [p_settings saved notices uiSession session set_session saveSettings
         set_p_settings].
    do 7 (split; [reflexivity|]). split; [split; [exact Hx|reflexivity]|].
    rewrite toggleOriginal_settings. exact Hback.
Qed.


End Commands.

(** * Templates without surprises *)

Section Templates.
Import JS Translator Templates.

Lemma replace_scan_plain (pat repl : jsstring) (k : nat) (bef bef' s : jsstring) :
  ~ In 36%N repl ->
  replace_scan pat repl k bef s = replace_scan pat repl k bef' s.
Proof.
  intros Hplain. revert k bef bef'. induction s as [|c r IH]; intros k bef bef'; simpl;
    [reflexivity|].
  destruct k as [|k]; [|apply IH].
  destruct (starts_with pat (c :: r)).
  - rewrite !(expand_replacement_plain _ _ _ _ Hplain). f_equal. apply IH.
  - f_equal. apply IH.
Qed.

Lemma replace_scan_skip (pat repl : jsstring) (l bef r : jsstring) :
  exists bef', replace_scan pat repl (length l) bef (l ++ r)
               = replace_scan pat repl 0 bef' r.
Proof.
  revert bef. induction l as [|c l IH]; intros bef; simpl; [exists bef; reflexivity|].
  destruct r as [|d r'] eqn:Hr.
  - destruct (IH (c :: bef)) as (bef' & E). exists bef'.
    rewrite app_nil_r in *. destruct l; simpl in *; exact E.
  - apply IH.
Qed.

Lemma starts_with_app (p s : jsstring) : starts_with p (p ++ s) = true.
Proof. induction p as [|c p IH]; simpl; [reflexivity|]. rewrite N.eqb_refl. exact IH. Qed.

(** The three equations of a replacement whose text holds no dollar
    sign. *)
Lemma replace_all_match (pat repl : jsstring) (c : N) (p r : jsstring) :
  ~ In 36%N repl -> pat = c :: p ->
  replace_all pat repl (pat ++ r) = repl ++ replace_all pat repl r.
Proof.
  intros Hplain ->. unfold replace_all. cbn [app replace_scan].
  change (starts_with (c :: p) (c :: p ++ r)) with (starts_with (c :: p) ((c :: p) ++ r)).
  rewrite starts_with_app, (expand_replacement_plain _ _ _ _ Hplain). f_equal.
  replace (length (c :: p) - 1)%nat with (length p) by (simpl; lia).
  destruct (replace_scan_skip (c :: p) repl p [c] r) as (bef' & ->).
  apply replace_scan_plain, Hplain.
Qed.

Lemma replace_all_unit (pat repl : jsstring) (c : N) (r : jsstring) :
  ~ In 36%N repl -> starts_with pat (c :: r) = false ->
  replace_all pat repl (c :: r) = c :: replace_all pat repl r.
Proof.
  intros Hplain Hno. unfold replace_all. cbn [replace_scan]. rewrite Hno. f_equal.
  apply replace_scan_plain, Hplain.
Qed.

Lemma replace_all_pass (pat repl : jsstring) (c : N) (p l r : jsstring) :
  ~ In 36%N repl -> pat = c :: p -> ~ In c l ->
  replace_all pat repl (l ++ r) = l ++ replace_all pat repl r.
Proof.
  intros Hplain -> Hl. induction l as [|d l IH]; [reflexivity|]. simpl.
  rewrite replace_all_unit; [|exact Hplain|].
  - rewrite IH; [reflexivity|]. intros H. apply Hl. right. exact H.
  - cbn [starts_with]. destruct (N.eqb_spec c d) as [->|_]; [|reflexivity].
    exfalso. apply Hl. left. reflexivity.
Qed.

Lemma starts_with_other (pat : jsstring) (b c : N) (rest : jsstring) :
  hd_error pat = Some b -> c <> b -> starts_with pat (c :: rest) = false.
Proof.
  destruct pat as [|a p]; [discriminate|]. intros [= ->] Hc. cbn [starts_with].
  destruct (N.eqb_spec b c) as [E|_]; [congruence|reflexivity].
Qed.

Ltac placeholders :=
  change (123%N :: lit "text}") with (lit "{text}");
  change (123%N :: lit "from}") with (lit "{from}");
  change (123%N :: lit "to}") with (lit "{to}").

(** X22. On a template in which every opening brace starts a
    placeholder, and with a text and a source language that hold neither a
    dollar sign nor an opening brace and a target language without dollar
    sign, [fillTemplate] fills the placeholders and does nothing else: it
    agrees with the literal reading, in which each placeholder is replaced
    by its value as it is. *)
Theorem fillTemplate_literal (st : KissTranslatorSettings) (template text : jsstring) :
  plain_template template ->
  ~ In 36%N text -> ~ In 123%N text ->
  ~ In 36%N (or_default (fromLang st) (lit "auto")) ->
  ~ In 123%N (or_default (fromLang st) (lit "auto")) ->
  ~ In 36%N (or_default (toLang st) (lit "zh")) ->
  fillTemplate st template text = fill_literally st template text.
Proof.
  unfold fillTemplate, fill_literally.
  set (from := or_default (fromLang st) (lit "auto")).
  set (to := or_default (toLang st) (lit "zh")).
  intros Htpl Hx1 Hx2 Hf1 Hf2 Ht1.
  induction Htpl as [|c rest Hc _ IH|rest _ IH|rest _ IH|rest _ IH].
  - reflexivity.
  - assert (Hno : forall pat r, hd_error pat = Some 123%N ->
                               starts_with pat (c :: r) = false).
    { intros pat r Hpat. exact (starts_with_other _ _ _ _ Hpat Hc). }
    rewrite (replace_all_unit _ _ _ _ Hx1 (Hno (lit "{text}") _ eq_refl)).
    rewrite (replace_all_unit _ _ _ _ Hf1 (Hno (lit "{from}") _ eq_refl)).
    rewrite (replace_all_unit _ _ _ _ Ht1 (Hno (lit "{to}") _ eq_refl)).
    rewrite IH. cbn [instantiate].
    rewrite (Hno (lit "{text}") _ eq_refl), (Hno (lit "{from}") _ eq_refl),
            (Hno (lit "{to}") _ eq_refl).
    reflexivity.
  - rewrite (replace_all_match _ _ 123%N (lit "text}") _ Hx1 eq_refl).
    rewrite (replace_all_pass _ _ 123%N (lit "from}") _ _ Hf1 eq_refl Hx2).
    rewrite (replace_all_pass _ _ 123%N (lit "to}") _ _ Ht1 eq_refl Hx2).
    placeholders. rewrite IH. reflexivity.
  - change (lit "{from}" ++ rest) with (123%N :: lit "from}" ++ rest) at 1.
    rewrite (replace_all_unit (lit "{text}") text 123%N (lit "from}" ++ rest) Hx1 eq_refl).
    rewrite (replace_all_pass (lit "{text}") text 123%N (lit "text}") (lit "from}") rest
               Hx1 eq_refl) by (vm_compute; intuition discriminate).
    change (123%N :: lit "from}" ++ replace_all (lit "{text}") text rest)
      with (lit "{from}" ++ replace_all (lit "{text}") text rest).
    rewrite (replace_all_match _ _ 123%N (lit "from}") _ Hf1 eq_refl).
    rewrite (replace_all_pass _ _ 123%N (lit "to}") _ _ Ht1 eq_refl Hf2).
    placeholders. rewrite IH. reflexivity.
  - change (lit "{to}" ++ rest) with (123%N :: lit "to}" ++ rest) at 1.
    rewrite (replace_all_unit (lit "{text}") text 123%N (lit "to}" ++ rest) Hx1 eq_refl).
    rewrite (replace_all_pass (lit "{text}") text 123%N (lit "text}") (lit "to}") rest
               Hx1 eq_refl) by (vm_compute; intuition discriminate).
    rewrite (replace_all_unit (lit "{from}") from 123%N
               (lit "to}" ++ replace_all (lit "{text}") text rest) Hf1 eq_refl).
    rewrite (replace_all_pass (lit "{from}") from 123%N (lit "from}") (lit "to}")
               (replace_all (lit "{text}") text rest) Hf1 eq_refl)
      by (vm_compute; intuition discriminate).
    change (123%N :: lit "to}" ++ replace_all (lit "{from}") from
                                     (replace_all (lit "{text}") text rest))
      with (lit "{to}" ++ replace_all (lit "{from}") from
                            (replace_all (lit "{text}") text rest)).
    rewrite (replace_all_match _ _ 123%N (lit "to}") _ Ht1 eq_refl).
    placeholders. rewrite IH. reflexivity.
Qed.

End Templates.

(** * Originals and annotations after a run *)

Section Visibility.
Import JS Eff Dom Translator.

Variable fetch : list Event -> Request -> FetchResult.
Variable selector_valid : jsstring -> bool.
Variable selector_matches : jsstring -> node -> located -> bool.

Lemma subtree_fold_update_map (f : list jsstring -> list jsstring) (l : list (ref * ref))
    (d : node) (r : ref) :
  subtree r (fold_left (fun doc pair => update_classes f (fst pair) doc) l d)
    = option_map (fold_left (fun doc pair => update_classes f (fst pair) doc) l)
                 (subtree r d).
Proof.
  revert d. induction l as [|p l IH]; intros d; simpl.
  - destruct (subtree r d); reflexivity.
  - rewrite IH, subtree_update_classes. destruct (subtree r d); reflexivity.
Qed.

Lemma classList_fold_update (f : list jsstring -> list jsstring) (l : list (ref * ref))
    (n : node) (b : ref) :
  (forall c, f (f c) = f c) -> ref_of n = Some b ->
  classList (fold_left (fun doc pair => update_classes f (fst pair) doc) l n)
    = if existsb (fun p => Nat.eqb (fst p) b) l then f (classList n) else classList n.
Proof.
  intros Hf. revert n. induction l as [|p l IH]; intros n Hn; [reflexivity|].
  destruct n as [|r t c kids]; [discriminate|]. injection Hn as ->.
  cbn [fold_left update_classes existsb]. rewrite IH by reflexivity.
  cbn [classList]. unfold ref in *. rewrite (Nat.eqb_sym (fst p) b).
  destruct (Nat.eqb b (fst p)); cbn [orb]; [|reflexivity].
  destruct (existsb _ l); [apply Hf|reflexivity].
Qed.

Lemma subtree_ref (r : ref) (d el : node) : subtree r d = Some el -> ref_of el = Some r.
Proof.
  unfold subtree, locate. destruct (locate_in [] r d) as [c|] eqn:Hc; [|discriminate].
  intros [= <-]. exact (proj2 (locate_in_sound _ _ _ _ Hc)).
Qed.

Lemma has_class_add (c : jsstring) (l : list jsstring) :
  existsb (str_eqb c) (class_add c l) = true.
Proof.
  unfold class_add. destruct (existsb (str_eqb c) l) eqn:E; [exact E|].
  rewrite existsb_app. simpl. unfold str_eqb at 2. rewrite bool_decide_true by reflexivity.
  apply orb_true_r.
Qed.

Lemma has_class_remove (c : jsstring) (l : list jsstring) :
  existsb (str_eqb c) (class_remove c l) = false.
Proof.
  unfold class_remove. induction l as [|x l IH]; [reflexivity|]. simpl.
  destruct (str_eqb c x) eqn:E; simpl; [exact IH|]. rewrite E. exact IH.
Qed.

(** X23. After a run that returned, the originals are shown or hidden as
    the setting asks: every pair of the mapping joins a block collected
    at the start of the run, still in the tree with its text unchanged and
    carrying [HIDE_ORIGINAL_CLASS] exactly if [hideOriginal] is set, with
    its annotation, which is in the tree and never carries that class. *)
Theorem translate_applies_visibility (rootOverride : option ref) (s s' : State)
    (r b a : ref) :
  well_formed s ->
  effective_root rootOverride s = Some r ->
  translate fetch selector_valid selector_matches rootOverride s = (Returned tt, s') ->
  In (b, a) (translated s') ->
  In b (blocks_of selector_valid selector_matches r (cleared s)) /\
  exists el v,
    subtree b (document s') = Some el /\
    has_class HIDE_ORIGINAL_CLASS el = hideOriginal (settings s) /\
    innerText el = innerText_of b (document (cleared s)) /\
    subtree a (document s') = Some (annotation a v) /\
    has_class HIDE_ORIGINAL_CLASS (annotation a v) = false.
Proof.
  intros Hwf Hr Hrun Hpair.
  destruct (translate_returned fetch selector_valid selector_matches _ _ _ _ Hwf Hr Hrun)
    as (s2 & Hloop & Happly & Hinv & _ & _).
  rewrite applyOriginalVisibility_fold in Happly. injection Happly as <-.
  cbn [translated set_document] in Hpair. cbn [document set_document].
  pose proof (cleared_well_formed _ Hwf) as Hwfc.
  destruct (cleared_fields s) as (Htr & _ & Hst & _).
  assert (Hb : In b (blocks_of selector_valid selector_matches r (cleared s))).
  { destruct (for_each_keys fetch _ _ _ _ Hloop b a Hpair) as [Hold|Hb]; [|exact Hb].
    rewrite Htr in Hold. destruct Hold. }
  split; [exact Hb|].
  destruct (selected_block_ok _ _ _ _ _ Hwfc Hb) as (Hlt & _ & el & Hel & Hleaf & _).
  pose proof (inv_stable _ _ Hinv b el Hlt Hel Hleaf) as Hel2.
  destruct (inv_pairs _ _ Hinv _ _ Hpair) as (_ & Ha & v & _ & _ & Hann).
  set (f := if hideOriginal (settings s2) then class_add HIDE_ORIGINAL_CLASS
            else class_remove HIDE_ORIGINAL_CLASS).
  assert (Hf : forall c, f (f c) = f c).
  { intros c. unfold f. destruct (hideOriginal (settings s2));
      [apply class_add_idem | apply class_remove_idem]. }
  exists (fold_left (fun doc pair => update_classes f (fst pair) doc) (translated s2) el), v.
  split; [rewrite subtree_fold_update_map, Hel2; reflexivity|].
  split; [|split; [|split]].
  - unfold has_class. rewrite (classList_fold_update f _ _ b Hf (subtree_ref _ _ _ Hel)).
    assert (Hkey : existsb (fun p => Nat.eqb (fst p) b) (translated s2) = true).
    { apply existsb_exists. exists (b, a). split; [exact Hpair|apply Nat.eqb_refl]. }
    rewrite Hkey. unfold f. rewrite (inv_settings _ _ Hinv), Hst.
    destruct (hideOriginal (settings s)); [apply has_class_add|apply has_class_remove].
  - rewrite innerText_fold_update. unfold innerText_of. rewrite Hel. reflexivity.
  - apply subtree_fold_update; [|exact Hann].
    intros [b' a'] Hp. destruct (inv_pairs _ _ Hinv _ _ Hp) as (Hb' & _). simpl. lia.
  - vm_compute. reflexivity.
Qed.

End Visibility.

(** * Where the annotations sit *)

Section Placement.
Import JS Eff Dom Translator Siblings.

Variable fetch : list Event -> Request -> FetchResult.
Variable selector_valid : jsstring -> bool.
Variable selector_matches : jsstring -> node -> located -> bool.

Lemma first_some_map {A B C} (f : A -> option B) (g : B -> C) (l : list A) :
  first_some (fun x => option_map g (f x)) l = option_map g (first_some f l).
Proof.
  induction l as [|x l IH]; [reflexivity|]. cbn [first_some].
  change ((fix go (l0 : list A) : option C :=
             match l0 with
             | [] => None
             | x0 :: rest =>
                 match option_map g (f x0) with
                 | Some y => Some y
                 | None => go rest
                 end
             end) l) with (first_some (fun x => option_map g (f x)) l).
  change ((fix go (l0 : list A) : option B :=
             match l0 with
             | [] => None
             | x0 :: rest => match f x0 with Some y => Some y | None => go rest end
             end) l) with (first_some f l).
  destruct (f x); [reflexivity|exact IH].
Qed.

Lemma nextSibling_None (b : ref) (n : node) :
  ~ In b (strict_refs n) -> nextSibling b n = None.
Proof.
  induction n as [data | r t c kids IH] using node_ind_kids; [reflexivity|].
  unfold strict_refs. cbn [childNodes nextSibling]. intros Hb.
  assert (Hafter : after_in b kids = None).
  { clear IH. induction kids as [|k kids IHk]; [reflexivity|]. cbn [after_in].
    simpl in Hb. rewrite in_app_iff in Hb.
    destruct (has_ref b k) eqn:E; [apply has_ref_refs in E; tauto|].
    apply IHk. tauto. }
  rewrite Hafter. apply first_some_None. intros k Hk.
  rewrite List.Forall_forall in IH. apply (IH k Hk).
  intros Hin. apply Hb. apply in_flat_map. exists k. split; [exact Hk|].
  destruct k as [|r' t' c' ks]; [destruct Hin|]. right. exact Hin.
Qed.

Lemma after_in_update_classes (f : list jsstring -> list jsstring) (x b : ref)
    (kids : list node) :
  after_in b (map (update_classes f x) kids)
    = option_map (update_classes f x) (after_in b kids).
Proof.
  induction kids as [|k kids IH]; [reflexivity|]. cbn [map after_in].
  rewrite has_ref_update_classes. destruct (has_ref b k); [|exact IH].
  destruct kids; reflexivity.
Qed.

Lemma nextSibling_update_classes (f : list jsstring -> list jsstring) (x b : ref)
    (n : node) :
  nextSibling b (update_classes f x n)
    = option_map (update_classes f x) (nextSibling b n).
Proof.
  induction n as [data | r t c kids IH] using node_ind_kids; [reflexivity|].
  cbn [update_classes nextSibling]. rewrite after_in_update_classes.
  destruct (after_in b kids); [reflexivity|]. cbn [option_map].
  rewrite <- first_some_map. clear -IH.
  induction IH as [|k kids Hk _ IHkids]; [reflexivity|].
  cbn [map first_some]. rewrite Hk. destruct (nextSibling b k); [reflexivity|].
  exact IHkids.
Qed.

Lemma nextSibling_fold_update (f : list jsstring -> list jsstring) (l : list (ref * ref))
    (d : node) (b a : ref) (v : jsval) :
  (forall p, In p l -> fst p <> a) ->
  nextSibling b d = Some (annotation a v) ->
  nextSibling b (fold_left (fun doc pair => update_classes f (fst pair) doc) l d)
    = Some (annotation a v).
Proof.
  revert d. induction l as [|p l IH]; intros d Hl Hd; [exact Hd|]. simpl.
  apply IH; [intros q Hq; apply Hl; right; exact Hq|].
  rewrite nextSibling_update_classes, Hd. cbn [option_map].
  rewrite annotation_update_classes; [reflexivity|]. apply Hl. left. reflexivity.
Qed.

(** The children after an insertion: each child, and the new element
    after each child that carries [b']. *)
Lemma after_in_insert_other (b b' : ref) (new : node) (kids : list node) :
  b <> b' -> has_ref b new = false ->
  after_in b
    (flat_map (fun k => if has_ref b' k then [insert_after b' new k; new]
                        else [insert_after b' new k]) kids)
    = option_map (insert_after b' new) (after_in b kids).
Proof.
  intros Hne Hnew. induction kids as [|k kids IH]; [reflexivity|].
  cbn [flat_map after_in].
  assert (Hhead : forall rest,
             hd_error (flat_map (fun k => if has_ref b' k
                                          then [insert_after b' new k; new]
                                          else [insert_after b' new k]) rest)
             = option_map (insert_after b' new) (hd_error rest)).
  { intros [|k' rest]; [reflexivity|]. cbn [flat_map]. destruct (has_ref b' k'); reflexivity. }
  destruct (has_ref b' k) eqn:Eb'.
  - assert (has_ref b k = false) as Eb.
    { destruct k as [|r t c ks]; [reflexivity|]. simpl in *.
      apply Nat.eqb_eq in Eb'. apply Nat.eqb_neq. congruence. }
    cbn [app after_in]. rewrite has_ref_insert_after, Eb, Hnew. exact IH.
  - cbn [app after_in]. rewrite has_ref_insert_after.
    destruct (has_ref b k); [apply Hhead|exact IH].
Qed.

Lemma nextSibling_insert_other (b b' : ref) (new n : node) :
  b <> b' -> has_ref b new = false -> nextSibling b new = None ->
  nextSibling b (insert_after b' new n)
    = option_map (insert_after b' new) (nextSibling b n).
Proof.
  intros Hne Hnew Hnone.
  induction n as [data | r t c kids IH] using node_ind_kids; [reflexivity|].
  cbn [insert_after nextSibling]. rewrite (after_in_insert_other _ _ _ _ Hne Hnew).
  destruct (after_in b kids); [reflexivity|]. cbn [option_map].
  rewrite <- first_some_map. clear -IH Hnone.
  induction IH as [|k kids Hk _ IHkids]; [reflexivity|].
  cbn [flat_map]. rewrite first_some_app.
  assert (Hhere : first_some (nextSibling b)
                    (if has_ref b' k then [insert_after b' new k; new]
                     else [insert_after b' new k])
                  = option_map (insert_after b' new) (nextSibling b k)).
  { destruct (has_ref b' k); cbn [first_some]; rewrite Hk, ?Hnone;
      destruct (nextSibling b k); reflexivity. }
  rewrite Hhere. cbn [first_some]. destruct (nextSibling b k); [reflexivity|].
  exact IHkids.
Qed.

Lemma after_in_insert_here (b : ref) (new : node) (kids : list node) :
  existsb (has_ref b) kids = true ->
  after_in b
    (flat_map (fun k => if has_ref b k then [insert_after b new k; new]
                        else [insert_after b new k]) kids)
    = Some new.
Proof.
  induction kids as [|k kids IH]; [discriminate|]. cbn [existsb flat_map].
  destruct (has_ref b k) eqn:E; cbn [app after_in]; rewrite has_ref_insert_after, E.
  - reflexivity.
  - exact IH.
Qed.

Lemma flat_map_insert_absent (b : ref) (new : node) (kids : list node) :
  existsb (has_ref b) kids = false ->
  flat_map (fun k => if has_ref b k then [insert_after b new k; new]
                     else [insert_after b new k]) kids
    = map (insert_after b new) kids.
Proof.
  induction kids as [|k kids IH]; [reflexivity|]. cbn [existsb flat_map map].
  destruct (has_ref b k); [discriminate|]. intros H. rewrite (IH H). reflexivity.
Qed.

Lemma after_in_absent (b : ref) (kids : list node) :
  existsb (has_ref b) kids = false -> after_in b kids = None.
Proof.
  induction kids as [|k kids IH]; [reflexivity|]. cbn [existsb after_in].
  destruct (has_ref b k); [discriminate|exact IH].
Qed.

Lemma nextSibling_insert_here (b : ref) (new n : node) :
  ~ In b (refs new) -> In b (strict_refs n) ->
  nextSibling b (insert_after b new n) = Some new.
Proof.
  intros Hnew.
  induction n as [data | r t c kids IH] using node_ind_kids; [intros []|].
  unfold strict_refs. cbn [childNodes insert_after nextSibling]. intros Hin.
  destruct (existsb (has_ref b) kids) eqn:Ehere.
  - rewrite (after_in_insert_here _ _ _ Ehere). reflexivity.
  - rewrite (flat_map_insert_absent _ _ _ Ehere), after_in_absent
      by (rewrite <- Ehere; clear; induction kids as [|k kids IHk]; [reflexivity|];
          cbn [map existsb]; rewrite has_ref_insert_after, IHk; reflexivity).
    clear r t c. induction IH as [|k kids Hk _ IHkids]; [destruct Hin|].
    cbn [existsb] in Ehere. apply orb_false_iff in Ehere as [Ek Ekids].
    cbn [map first_some].
    destruct (in_dec Nat.eq_dec b (strict_refs k)) as [Hk'|Hk'].
    + rewrite (Hk Hk'). reflexivity.
    + rewrite nextSibling_None.
      * apply IHkids; [|exact Ekids].
        simpl in Hin. apply in_app_iff in Hin as [Hin|Hin]; [|exact Hin].
        exfalso. destruct k as [|r' t' c' ks]; [destruct Hin|].
        destruct Hin as [->|Hin]; [|exact (Hk' Hin)].
        simpl in Ek. rewrite Nat.eqb_refl in Ek. discriminate.
      * intros Hin'. destruct k as [|r' t' c' ks]; [destruct Hin'|].
        assert (Hrefs : In b (refs (insert_after b new (Elem r' t' c' ks)))).
        { right. exact Hin'. }
        apply refs_insert_after_incl in Hrefs as [Hrefs|Hrefs]; [|exact (Hnew Hrefs)].
        destruct Hrefs as [->|Hrefs]; [|exact (Hk' Hrefs)].
        simpl in Ek. rewrite Nat.eqb_refl in Ek. discriminate.
Qed.

Lemma map_get_None_In (k v : ref) (m : list (ref * ref)) :
  map_get k m = None -> ~ In (k, v) m.
Proof.
  induction m as [|[k0 v0] m IH]; simpl; [tauto|].
  destruct (Nat.eqb_spec k0 k) as [->|Hne]; [discriminate|].
  intros H [[= -> _]|Hin]; [congruence|exact (IH H Hin)].
Qed.

Lemma annotation_strict_refs (a : ref) (v : jsval) : strict_refs (annotation a v) = [].
Proof. unfold annotation, strict_refs. simpl. destruct (ToString v); reflexivity. Qed.

Lemma annotated_placed (n1 : ref) (s : State) (b : ref) (v : jsval) :
  (forall x, In x (refs (document s)) -> (x < next_ref s)%nat) ->
  (forall b1 a1, In (b1, a1) (translated s) -> (b1 < n1 <= next_ref s)%nat /\
                                               (a1 < next_ref s)%nat) ->
  (b < n1 <= next_ref s)%nat -> In b (strict_refs (document s)) ->
  map_get b (translated s) = None ->
  placed s -> placed (annotated b v s).
Proof.
  intros Hbound Hpairs Hlt Hstrict Hfresh Hplaced b1 a1.
  unfold annotated. cbn [translated document set_translated set_document].
  rewrite (map_set_fresh _ _ _ Hfresh), in_app_iff.
  assert (Hnew : ~ In (next_ref s) (refs (document s))).
  { intros H. apply Hbound in H. lia. }
  intros [Hold|[[= <- <-]|[]]].
  - destruct (Hplaced _ _ Hold) as (v1 & Hsib & Hsub).
    destruct (Hpairs _ _ Hold) as (Hb1 & Ha1).
    exists v1. split.
    + rewrite nextSibling_insert_other.
      * rewrite Hsib. cbn [option_map].
        rewrite insert_after_leaf; [reflexivity|apply annotation_children].
      * intros ->. exact (map_get_None_In _ _ _ Hfresh Hold).
      * simpl. apply Nat.eqb_neq. lia.
      * apply nextSibling_None. rewrite annotation_strict_refs. intros [].
    + rewrite subtree_insert_after.
      * rewrite Hsub. cbn [option_map].
        rewrite insert_after_leaf; [reflexivity|apply annotation_children].
      * rewrite annotation_refs. intros [E|[]]. lia.
  - exists v. split.
    + apply nextSibling_insert_here; [|exact Hstrict].
      rewrite annotation_refs. intros [E|[]]. lia.
    + apply subtree_insert_after_new; [reflexivity|exact Hnew|exact Hstrict].
Qed.

Lemma translateBlock_placed (s1 s s' : State) (b : ref) :
  loop_inv s1 s -> block_ok s1 b -> map_get b (translated s) = None ->
  placed s -> translateBlock fetch b s = (Returned tt, s') -> placed s'.
Proof.
  intros Hinv (Hlt & Hstrict & _) Hfresh Hplaced H. rewrite translateBlock_run in H.
  destruct (length (block_text b s) <? 2)%nat; [injection H as <-; exact Hplaced|].
  destruct (translateText fetch (block_text b s) s) as [[v|e] s0] eqn:Ht; [|discriminate].
  apply translateText_returns in Ht as (_ & Hv & Hst & Htr & Hd & Hn & _).
  assert (Hplaced0 : placed s0).
  { intros b1 a1. rewrite Htr, Hd. apply Hplaced. }
  destruct (truthy v); injection H as <-; [|exact Hplaced0].
  pose proof (inv_next _ _ Hinv) as Hnext.
  apply (annotated_placed (next_ref s1)); try exact Hplaced0.
  - rewrite Hd, Hn. exact (inv_bound _ _ Hinv).
  - rewrite Htr, Hn. intros b1 a1 Hp.
    destruct (inv_pairs _ _ Hinv _ _ Hp) as (Hb1 & Ha1 & _). lia.
  - rewrite Hn. lia.
  - rewrite Hd. exact (inv_strict _ _ Hinv _ Hstrict).
  - rewrite Htr. exact Hfresh.
Qed.

Lemma In_map_get (k v : ref) (m : list (ref * ref)) :
  In (k, v) m -> is_Some (map_get k m).
Proof.
  induction m as [|[k0 v0] m IH]; [intros []|]. simpl.
  destruct (Nat.eqb k0 k) eqn:E; [eexists; reflexivity|].
  intros [[= -> ->]|Hin]; [rewrite Nat.eqb_refl in E; discriminate|exact (IH Hin)].
Qed.

Lemma for_each_placed (s1 : State) (blocks : list ref) (s s' : State) :
  loop_inv s1 s -> List.NoDup blocks ->
  (forall b, In b blocks -> block_ok s1 b /\ map_get b (translated s) = None) ->
  placed s ->
  for_each (translateBlock fetch) blocks s = (Returned tt, s') -> placed s'.
Proof.
  revert s. induction blocks as [|b blocks IH]; intros s Hinv Hnd Hok Hplaced;
    cbn [for_each].
  - unfold ret. intros [= <-]. exact Hplaced.
  - unfold bind. destruct (translateBlock fetch b s) as [[[]|e] s2] eqn:Hb; [|discriminate].
    destruct (Hok b (or_introl eq_refl)) as [Hbok Hfresh].
    destruct (translateBlock_step fetch s1 s s2 b Hinv Hbok Hb) as (Hinv2 & _ & _).
    inversion Hnd as [|? ? Hnotin Hnd']; subst.
    apply (IH s2 Hinv2 Hnd').
    + intros b' Hb'. split; [apply Hok; right; exact Hb'|].
      apply map_get_None. intros a' Hin.
      destruct (translateBlock_keys fetch b s s2 _ Hb b' a' Hin) as [Hold| ->];
        [|contradiction].
      destruct (Hok b' (or_intror Hb')) as [_ Hnone].
      destruct (In_map_get _ _ _ Hold) as [? Hx]. congruence.
    + exact (translateBlock_placed s1 s s2 b Hinv Hbok Hfresh Hplaced Hb).
Qed.

(** X24. After a run that returned, every translation sits right after
    its original: for each pair of the mapping, the node that follows the
    original among the children of its parent is the annotation, a [div]
    with the class [kiss-translated-block] whose text is the cached
    translation of the original's text. *)
Theorem annotation_follows_original (rootOverride : option ref) (s s' : State)
    (r b a : ref) :
  well_formed s ->
  effective_root rootOverride s = Some r ->
  translate fetch selector_valid selector_matches rootOverride s = (Returned tt, s') ->
  In (b, a) (translated s') ->
  exists v,
    nextSibling b (document s') = Some (annotation a v) /\
    subtree a (document s') = Some (annotation a v) /\
    innerText (annotation a v) = ToString v /\
    truthy v = true /\
    cache s' !! block_text b (cleared s) = Some v.
Proof.
  intros Hwf Hr Hrun Hpair.
  destruct (translate_returned fetch selector_valid selector_matches _ _ _ _ Hwf Hr Hrun)
    as (s2 & Hloop & Happly & Hinv & _ & _).
  rewrite applyOriginalVisibility_fold in Happly. injection Happly as <-.
  cbn [translated set_document] in Hpair. cbn [document cache set_document].
  pose proof (cleared_well_formed _ Hwf) as Hwfc.
  destruct (cleared_fields s) as (Htr & _).
  assert (Hplaced : placed s2).
  { apply (for_each_placed (cleared s)
             (blocks_of selector_valid selector_matches r (cleared s)) (cleared s) s2
             (loop_inv_start _ Hwfc Htr)); [| | |exact Hloop].
    - apply NoDup_ListNoDup, blocks_NoDup, (proj1 Hwfc).
    - intros b' Hb'. split; [exact (selected_block_ok _ _ _ _ _ Hwfc Hb')|].
      rewrite Htr. reflexivity.
    - intros b' a'. rewrite Htr. intros []. }
  destruct (Hplaced _ _ Hpair) as (v0 & Hsib & Hsub0).
  destruct (inv_pairs _ _ Hinv _ _ Hpair) as (_ & Ha & v & Hcache & Htruthy & Hsub).
  assert (Hnode : annotation a v0 = annotation a v) by congruence.
  rewrite Hnode in Hsib.
  assert (Hkeys : forall p, In p (translated s2) -> fst p <> a).
  { intros [b' a'] Hp. destruct (inv_pairs _ _ Hinv _ _ Hp) as (Hb' & _). simpl. lia. }
  exists v. split; [exact (nextSibling_fold_update _ _ _ _ _ _ Hkeys Hsib)|].
  split; [exact (subtree_fold_update _ _ _ _ _ Hkeys Hsub)|].
  split; [apply annotation_innerText|]. split; [exact Htruthy|exact Hcache].
Qed.

End Placement.

(** * The mapping after a run *)

Section Mapping.
Import JS Eff Dom Translator.

Variable fetch : list Event -> Request -> FetchResult.
Variable selector_valid : jsstring -> bool.
Variable selector_matches : jsstring -> node -> located -> bool.

Lemma translateBlock_appends (s1 s s' : State) (b : ref) :
  loop_inv s1 s -> block_ok s1 b -> map_get b (translated s) = None ->
  translateBlock fetch b s = (Returned tt, s') ->
  translated s' = translated s ++ [(b, next_ref s)] /\ next_ref s' = S (next_ref s).
Proof.
  intros Hinv Hok Hfresh H. rewrite translateBlock_run in H.
  destruct (block_text_stable _ _ _ Hinv Hok) as [_ Hlen].
  assert ((length (block_text b s) <? 2)%nat = false) as Hlong by (apply Nat.ltb_ge; lia).
  rewrite Hlong in H.
  destruct (translateText fetch (block_text b s) s) as [[v|e] s0] eqn:Ht; [|discriminate].
  apply translateText_returns in Ht as (Hv & _ & _ & Htr & _ & Hn & _).
  rewrite Hv in H. injection H as <-. unfold annotated. simpl.
  rewrite Htr, Hn, (map_set_fresh _ _ _ Hfresh). auto.
Qed.

Lemma for_each_appends (s1 : State) (blocks : list ref) (s s' : State) :
  loop_inv s1 s -> List.NoDup blocks ->
  (forall b, In b blocks -> block_ok s1 b /\ map_get b (translated s) = None) ->
  for_each (translateBlock fetch) blocks s = (Returned tt, s') ->
  translated s'
    = translated s ++ combine blocks (seq (next_ref s) (length blocks)) /\
  next_ref s' = (next_ref s + length blocks)%nat.
Proof.
  revert s. induction blocks as [|b blocks IH]; intros s Hinv Hnd Hok; cbn [for_each].
  - unfold ret. intros [= <-]. simpl. rewrite app_nil_r. auto.
  - unfold bind. destruct (translateBlock fetch b s) as [[[]|e] s2] eqn:Hb; [|discriminate].
    destruct (Hok b (or_introl eq_refl)) as [Hbok Hfresh].
    destruct (translateBlock_step fetch s1 s s2 b Hinv Hbok Hb) as (Hinv2 & _ & _).
    destruct (translateBlock_appends s1 s s2 b Hinv Hbok Hfresh Hb) as [Htr Hn].
    inversion Hnd as [|? ? Hnotin Hnd']; subst.
    intros Hrest. apply (IH s2 Hinv2 Hnd') in Hrest as [Htr' Hn'].
    + rewrite Htr', Htr, Hn', Hn. simpl. rewrite <- app_assoc. simpl. split; [reflexivity|lia].
    + intros b' Hb'. split; [apply Hok; right; exact Hb'|].
      apply map_get_None. intros a' Hin.
      rewrite Htr in Hin. apply in_app_iff in Hin as [Hold|[[= <- _]|[]]]; [|contradiction].
      destruct (Hok b' (or_intror Hb')) as [_ Hnone].
      destruct (In_map_get _ _ _ Hold) as [? Hx]. congruence.
Qed.

(** X25. A run that returns annotates every collected block once, in
    document order: the mapping then pairs the blocks, in the order
    [collectBlocks] gave them, with annotations created one after the
    other during the run, and [hasTranslations] answers [true] exactly
    when at least one block was collected. *)
Theorem translate_tracks_blocks (rootOverride : option ref) (s s' : State) (r : ref) :
  well_formed s ->
  effective_root rootOverride s = Some r ->
  translate fetch selector_valid selector_matches rootOverride s = (Returned tt, s') ->
  let blocks := blocks_of selector_valid selector_matches r (cleared s) in
  translated s' = combine blocks (seq (next_ref s) (length blocks)) /\
  map fst (translated s') = blocks /\
  next_ref s' = (next_ref s + length blocks)%nat /\
  hasTranslations s' = (Returned (negb (bool_decide (blocks = []))), s').
Proof.
  intros Hwf Hr Hrun blocks.
  destruct (translate_returned fetch selector_valid selector_matches _ _ _ _ Hwf Hr Hrun)
    as (s2 & Hloop & Happly & _).
  rewrite applyOriginalVisibility_fold in Happly. injection Happly as <-.
  pose proof (cleared_well_formed _ Hwf) as Hwfc.
  destruct (cleared_fields s) as (Htr & _ & _ & _ & _ & Hnx & _).
  destruct (for_each_appends (cleared s) blocks (cleared s) s2
              (loop_inv_start _ Hwfc Htr)) as [Hpairs Hnext]; [| |exact Hloop|].
  - apply NoDup_ListNoDup, blocks_NoDup, (proj1 Hwfc).
  - intros b Hb. split; [exact (selected_block_ok _ _ _ _ _ Hwfc Hb)|].
    rewrite Htr. reflexivity.
  - rewrite Htr, Hnx in Hpairs. rewrite Hnx in Hnext. simpl in Hpairs.
    cbn [translated next_ref set_document].
    assert (Hfst : map fst (translated s2) = blocks).
    { rewrite Hpairs. clear. generalize (next_ref s).
      induction blocks as [|b l IH]; intros n; [reflexivity|]. simpl. rewrite IH.
      reflexivity. }
    split; [exact Hpairs|]. split; [exact Hfst|]. split; [exact Hnext|].
    unfold hasTranslations, gets. cbn [translated set_document].
    rewrite <- Hfst. destruct (translated s2); reflexivity.
Qed.

End Mapping.

(** * The commands and the settings *)

Section CurrentSettings.
Import JS Eff Dom Translator Plugin.

Variable fetch : list Event -> Request -> FetchResult.
Variable selector_valid : jsstring -> bool.
Variable selector_matches : jsstring -> node -> located -> bool.

Lemma translate_requests_for (st : KissTranslatorSettings) (rootOverride : option ref)
    (s s' : State) (res : outcome Error unit) :
  settings s = st ->
  translate fetch selector_valid selector_matches rootOverride s = (res, s') ->
  exists evs, trace s' = trace s ++ evs /\ Forall (made_for st) evs.
Proof.
  intros <-. apply translate_events. intros r s2 res2 _.
  apply for_each_events with (I := fun x => settings x = settings s).
  - intros b x x' res' _ Hst Hb. split.
    + intros _. apply translateBlock_cases in Hb as (s0 & _ & Hst0 & _ & _ & _ & Hx).
      destruct Hx as [->|(v & _ & ->)]; simpl; congruence.
    + apply translateBlock_sends in Hb as [Hsame|(_ & _ & sent & Htr & Hsent)].
      * exists []. split; [rewrite app_nil_r; exact Hsame|constructor].
      * rewrite Hst in Htr, Hsent. eexists. split; [exact Htr|].
        constructor; [reflexivity|].
        destruct Hsent as [->| ->]; [constructor|].
        constructor; [|constructor]. unfold made_for.
        destruct (apiType (settings s)); (split; [|split]); reflexivity.
  - exact (proj1 (proj2 (proj2 (cleared_fields s)))).
Qed.

Lemma translate_and_report_requests (st : KissTranslatorSettings)
    (rootOverride : option ref) (x : Session) (p : KissTranslatorPlugin) (w : World) :
  s_settings x = st ->
  exists evs,
    w_trace (snd (translate_and_report fetch selector_valid selector_matches
                    rootOverride x p w)) = w_trace w ++ evs /\
    Forall (made_for st) evs.
Proof.
  intros Hst. unfold translate_and_report, call.
  destruct (translate fetch selector_valid selector_matches rootOverride (attach x w))
    as [res s'] eqn:Hrun.
  apply (translate_requests_for st) in Hrun as (evs & Htrace & Hall); [|exact Hst].
  exists evs. split; [|exact Hall]. destruct res; exact Htrace.
Qed.

Lemma call_hasTranslations (x : Session) (w : World) :
  call hasTranslations x w = (Returned (0 <? length (s_translated x))%nat, x, w).
Proof. destruct x, w. reflexivity. Qed.

(** X26. The commands translate with the settings the plugin holds when
    they run, not with those a session was created with: whatever
    [translateActive] and [translateUIWithFab] send is a POST to the
    plugin's current [apiUrl], with the current API key as bearer token
    when the chat backend is selected and without authorization header
    otherwise. *)
Theorem commands_use_current_settings (p : KissTranslatorPlugin) (w : World)
    (active : option ref) :
  (exists evs,
      w_trace (snd (translateActive fetch selector_valid selector_matches active (p, w)))
        = w_trace w ++ evs /\
      Forall (made_for (p_settings p)) evs) /\
  (exists evs,
      w_trace (snd (translateUIWithFab fetch selector_valid selector_matches (p, w)))
        = w_trace w ++ evs /\
      Forall (made_for (p_settings p)) evs).
Proof.
  assert (Hnone : exists evs : list Event,
             w_trace w = w_trace w ++ evs /\ Forall (made_for (p_settings p)) evs).
  { exists []. split; [rewrite app_nil_r; reflexivity|constructor]. }
  split.
  - unfold translateActive. destruct active as [v|]; [|exact Hnone].
    assert (Hensure : exists x,
               ensureSession v (p, w) = (set_session (Some x) p, w) /\
               s_settings x = p_settings p).
    { unfold ensureSession. destruct (session p) as [x|].
      - destruct (bool_decide (s_view x = Some v)).
        + rewrite call_updateSettings. eexists. split; reflexivity.
        + eexists. split; reflexivity.
      - eexists. split; reflexivity. }
    destruct Hensure as (x & -> & Hst). cbn [session set_session].
    destruct (translate_and_report_requests (p_settings p) None x (set_session (Some x) p)
                w Hst) as (evs & Htrace & Hall).
    destruct (translate_and_report _ _ _ _ _ _ _) as [[x' p2] w2].
    exists evs. split; [exact Htrace|exact Hall].
  - unfold translateUIWithFab.
    destruct (ui_target (w_document w)) as [target|]; [|exact Hnone].
    assert (Hsession : exists x,
               match uiSession p with
               | Some x0 =>
                   let '(_, x1, w1) := call (updateSettings (p_settings p)) x0 w in (x1, w1)
               | None => (new_TranslationSession None (p_settings p), w)
               end = (x, w) /\ s_settings x = p_settings p).
    { destruct (uiSession p) as [x0|].
      - rewrite call_updateSettings. eexists. split; reflexivity.
      - eexists. split; reflexivity. }
    destruct Hsession as (x & -> & Hst).
    rewrite call_hasTranslations.
    destruct (0 <? length (s_translated x))%nat.
    + rewrite call_clear. cbn [snd].
      destruct (cleared_fields (attach x w)) as (_ & _ & _ & _ & _ & _ & Htrace).
      exists []. split; [rewrite app_nil_r; exact Htrace|constructor].
    + destruct (translate_and_report_requests (p_settings p) (Some target) x
                  (set_uiSession (Some x) p) w Hst) as (evs & Htrace & Hall).
      destruct (translate_and_report _ _ _ _ _ _ _) as [[x' p2] w2].
      exists evs. split; [exact Htrace|exact Hall].
Qed.

End CurrentSettings.

(** * The errors of a run *)

Section Errors.
Import JS Eff Dom Translator Diagnosis.

Variable fetch : list Event -> Request -> FetchResult.
Variable selector_valid : jsstring -> bool.
Variable selector_matches : jsstring -> node -> located -> bool.

Lemma str_falsy (x : jsstring) : negb (str_truthy x) = true -> x = [].
Proof. destruct x; [reflexivity|discriminate]. Qed.

Lemma translateWithOpenAI_thrown (text : jsstring) (s s' : State) (e : Error) :
  translateWithOpenAI fetch text s = (Thrown e, s') ->
  match e with
  | ChatNoUrl => apiUrl (settings s) = []
  | ChatNoKey => apiKey (settings s) = []
  | ChatNoModel => model (settings s) = []
  | ChatNoPrompt => trim (userPrompt (settings s)) = []
  | ChatStatus code _ => ~ (200 <= code <= 299)%Z
  | ChatParse | FetchFailed => True
  | _ => False
  end.
Proof.
  unfold translateWithOpenAI, bind, gets, throw, ret. cbn beta iota.
  destruct (negb (str_truthy (apiUrl (settings s)))) eqn:E1;
    [intros [= <- _]; exact (str_falsy _ E1)|].
  destruct (negb (str_truthy (apiKey (settings s)))) eqn:E2;
    [intros [= <- _]; exact (str_falsy _ E2)|].
  destruct (negb (str_truthy (model (settings s)))) eqn:E3;
    [intros [= <- _]; exact (str_falsy _ E3)|].
  destruct (negb (str_truthy (trim (userPrompt (settings s))))) eqn:E4;
    [intros [= <- _]; exact (str_falsy _ E4)|].
  unfold do_fetch. destruct (fetch _ _) as [|res]; [intros [= <- _]; exact I|].
  cbn beta iota. destruct (negb (ok res)) eqn:Hok.
  - intros [= <- _]. unfold ok in Hok. apply negb_true_iff, andb_false_iff in Hok.
    rewrite Z.leb_gt, Z.leb_gt in Hok. lia.
  - destruct (body_json res) as [data|]; [|intros [= <- _]; exact I].
    destruct (completion_content data); discriminate.
Qed.

Lemma translateWithSimple_thrown (text : jsstring) (s s' : State) (e : Error) :
  translateWithSimple fetch text s = (Thrown e, s') ->
  match e with
  | SimpleNoUrl => apiUrl (settings s) = []
  | SimpleStatus code => ~ (200 <= code <= 299)%Z
  | SimpleParse | FetchFailed => True
  | _ => False
  end.
Proof.
  unfold translateWithSimple, bind, gets, throw, ret. cbn beta iota.
  destruct (negb (str_truthy (apiUrl (settings s)))) eqn:E1;
    [intros [= <- _]; exact (str_falsy _ E1)|].
  unfold do_fetch. destruct (fetch _ _) as [|res]; [intros [= <- _]; exact I|].
  cbn beta iota. destruct (negb (ok res)) eqn:Hok.
  - intros [= <- _]. unfold ok in Hok. apply negb_true_iff, andb_false_iff in Hok.
    rewrite Z.leb_gt, Z.leb_gt in Hok. lia.
  - destruct (body_json res) as [data|]; [|intros [= <- _]; exact I].
    destruct (prop data "translatedText"); try discriminate;
      destruct data; try discriminate;
      destruct (truthy _); discriminate.
Qed.

Lemma translateBlock_thrown (b : ref) (s s' : State) (e : Error) :
  translateBlock fetch b s = (Thrown e, s') -> error_cause (settings s) e.
Proof.
  rewrite translateBlock_run. destruct (length (block_text b s) <? 2)%nat; [discriminate|].
  rewrite translateText_run. destruct (cached (block_text b s) s).
  - cbn beta iota zeta. destruct (truthy _); discriminate.
  - unfold callBackend, bind, modify.
    destruct (apiType (settings s)) eqn:Hapi.
    + destruct (translateWithSimple fetch _ _) as [[v|e'] s1] eqn:Hb.
      * cbn beta iota zeta. destruct (truthy v) eqn:Hv; cbn beta iota zeta; rewrite ?Hv;
          [discriminate|]. intros [= <- _]. exact I.
      * cbn beta iota zeta. intros [= <- _]. apply translateWithSimple_thrown in Hb. cbn [settings log_event] in Hb.
        destruct e'; try contradiction; simpl; auto.
    + destruct (translateWithOpenAI fetch _ _) as [[v|e'] s1] eqn:Hb.
      * cbn beta iota zeta. destruct (truthy v) eqn:Hv; cbn beta iota zeta; rewrite ?Hv;
          [discriminate|]. intros [= <- _]. exact I.
      * cbn beta iota zeta. intros [= <- _]. apply translateWithOpenAI_thrown in Hb. cbn [settings log_event] in Hb.
        destruct e'; try contradiction; simpl; auto.
Qed.

Lemma for_each_thrown (blocks : list ref) (s s' : State) (e : Error) :
  for_each (translateBlock fetch) blocks s = (Thrown e, s') ->
  error_cause (settings s) e.
Proof.
  revert s. induction blocks as [|b blocks IH]; intros s; cbn [for_each]; [discriminate|].
  unfold bind. destruct (translateBlock fetch b s) as [[[]|e'] s1] eqn:Hb.
  - intros H. apply IH in H.
    apply translateBlock_cases in Hb as (s0 & _ & Hst & _ & _ & _ & Hx).
    destruct Hx as [->|(v & _ & ->)]; cbn [settings annotated set_translated set_document
                                            set_next_ref] in H; rewrite Hst in H; exact H.
  - intros [= <- _]. exact (translateBlock_thrown _ _ _ _ Hb).
Qed.

(** X27. An error of [translate] tells the truth about its cause. The
    no-target error is thrown only without a root override on a tree
    without root element, and then nothing was changed. Every other
    error comes from the selected backend: an error of the simple backend
    is thrown only with the simple backend selected and one of the chat
    backend only with the chat backend selected; an error that reports a
    missing setting is thrown only when that setting is empty, and one
    that reports a status only for a status outside 200 to 299. *)
Theorem translate_error_cause (rootOverride : option ref) (s s' : State) (e : Error) :
  translate fetch selector_valid selector_matches rootOverride s = (Thrown e, s') ->
  match e with
  | NoTarget => rootOverride = None /\ ref_of (document s) = None /\ s' = s
  | _ => error_cause (settings s) e
  end.
Proof.
  destruct (effective_root rootOverride s) as [r|] eqn:Hr.
  - rewrite (translate_run _ _ _ _ _ _ Hr).
    destruct (for_each _ _ _) as [[[]|e'] s2] eqn:Hloop.
    + rewrite applyOriginalVisibility_fold. discriminate.
    + intros [= <- <-]. apply for_each_thrown in Hloop.
      rewrite (proj1 (proj2 (proj2 (cleared_fields s)))) in Hloop.
      destruct e'; (exact Hloop || destruct Hloop).
  - apply (effective_root_None fetch selector_valid selector_matches) in Hr
      as (Hro & Hdoc & Hrun).
    rewrite Hrun. intros [= <- <-]. auto.
Qed.

End Errors.

(** * The answers of the simple backend *)

Section SimpleBackend.
Import JS Eff Dom Translator.

Variable fetch : list Event -> Request -> FetchResult.

Lemma translateWithSimple_configured (text : jsstring) (s : State) (res : Response)
    (data : jsval) :
  apiUrl (settings s) <> [] ->
  fetch (trace s) (simple_request (settings s) text) = FetchResolved res ->
  ok res = true -> body_json res = Some data ->
  translateWithSimple fetch text s =
    (Returned
       match prop data "translatedText" with
       | VStr t => VStr t
       | _ =>
           match data with
           | VArr _ =>
               if truthy (prop (index0 data) "translatedText")
               then prop (index0 data) "translatedText" else VStr []
           | _ => VStr []
           end
       end,
     log_event (Fetched (simple_request (settings s) text)) s).
Proof.
  intros Hurl Hfetch Hok Hjson. unfold translateWithSimple, bind, gets, do_fetch.
  destruct (apiUrl (settings s)) eqn:E; [contradiction|]. cbn [str_truthy negb].
  rewrite Hfetch, Hok. cbn [negb]. rewrite Hjson.
  destruct (prop data "translatedText"); try reflexivity;
    destruct data; try reflexivity; destruct (truthy _); reflexivity.
Qed.

(** X28. The simple backend's answer is used as it is. A
    [translatedText] that is a string is returned and cached without
    trimming, white space included, and an empty one makes
    [translateText] throw the empty-translation error; an array answer
    gives the [translatedText] of its first element whenever that is
    truthy, whatever its type; any other 2xx answer makes
    [translateText] throw the empty-translation error. *)
Theorem simple_reply_as_is (s : State) (text : jsstring) (res : Response) (data : jsval) :
  let called := log_event (BackendCalled simple text) s in
  let sent := log_event (Fetched (simple_request (settings s) text)) called in
  apiType (settings s) = simple ->
  apiUrl (settings s) <> [] ->
  cached text s = false ->
  fetch (trace called) (simple_request (settings s) text) = FetchResolved res ->
  ok res = true ->
  body_json res = Some data ->
  (forall t, prop data "translatedText" = VStr t ->
     translateText fetch text s
       = if str_truthy t
         then (Returned (VStr t), set_cache (<[text := VStr t]> (cache s)) sent)
         else (Thrown EmptyTranslation, sent)) /\
  (forall first rest v,
     data = VArr (first :: rest) -> prop first "translatedText" = v -> truthy v = true ->
     translateText fetch text s
       = (Returned v, set_cache (<[text := v]> (cache s)) sent)) /\
  ((forall t, prop data "translatedText" <> VStr t) ->
   truthy (prop (index0 data) "translatedText") = false \/ as_array data = None ->
   translateText fetch text s = (Thrown EmptyTranslation, sent)).
Proof.
  intros called sent Hapi Hurl Hmiss Hfetch Hok Hjson.
  assert (Hrun : translateText fetch text s
                 = match translateWithSimple fetch text called with
                   | (Returned v, s') =>
                       if truthy v
                       then (Returned v, set_cache (<[text := v]> (cache s')) s')
                       else (Thrown EmptyTranslation, s')
                   | (Thrown e, s') => (Thrown e, s')
                   end).
  { rewrite translateText_run, Hmiss, Hapi. reflexivity. }
  rewrite (translateWithSimple_configured text called res data Hurl Hfetch Hok Hjson)
    in Hrun.
  fold sent in Hrun. rewrite Hrun. clear Hrun.
  split; [|split].
  - intros t Ht. rewrite Ht. cbn [truthy]. reflexivity.
  - intros first rest v -> Hv Htruthy. cbn [prop index0]. rewrite Hv, Htruthy, Htruthy.
    reflexivity.
  - intros Hnot Hcase.
    assert (Hanswer :
              match prop data "translatedText" with
              | VStr t => VStr t
              | _ =>
                  match data with
                  | VArr _ =>
                      if truthy (prop (index0 data) "translatedText")
                      then prop (index0 data) "translatedText" else VStr []
                  | _ => VStr []
                  end
              end = VStr []).
    { destruct (prop data "translatedText") eqn:Hp;
        try (exfalso; exact (Hnot _ eq_refl));
        destruct data; try reflexivity;
        destruct Hcase as [-> | Hc]; (reflexivity || discriminate Hc). }
    rewrite Hanswer. reflexivity.
Qed.

End SimpleBackend.

(** * The properties above on the concrete instances *)

Section Instances.
Import JS Eff Dom Translator Fixtures.

Lemma normalizeMeta_ignores_index_witness :
  Cloud.meta_id first_meta = lit "obsidian" /\
  Cloud.normalizeMeta number_of
    (VObj [(lit "scope", VStr (lit " obsidian "));
           (lit "url", VStr (lit "https://example.org/a.json"))]) 7 = Some first_meta.
Proof.
  destruct (normalizeMeta_ignores_index number_of
              (VObj [(lit "scope", VStr (lit " obsidian "));
                     (lit "url", VStr (lit "https://example.org/a.json"))])
              0 first_meta) as (Hid & _ & Hany).
  - vm_compute. reflexivity.
  - split; [exact Hid | exact (Hany 7%nat)].
Defined.

Lemma fetchCloudDict_returns_witness :
  Cloud.fetchCloudDict dict_host first_meta []
    = (Returned {| Cloud.dict_version := VNum (lit "1");
                   Cloud.dict_scope := VStr (lit "obsidian");
                   Cloud.dict_entries := [VObj [(lit "source", VStr (lit "Settings"))]] |},
       [{| Cloud.req_url := lit "https://example.org/a.json";
           Cloud.req_method := lit "GET" |}]).
Proof.
  apply (proj2 (fetchCloudDict_returns dict_host first_meta [] _ _)).
  split; [discriminate|]. split; [reflexivity|].
  exists 200%Z, [(lit "scope", VNull);
                 (lit "entries", VArr [VObj [(lit "source", VStr (lit "Settings"))]])],
         [VObj [(lit "source", VStr (lit "Settings"))]].
  split; [vm_compute; reflexivity|]. split; [lia|]. split; [vm_compute; reflexivity|].
  split; [vm_compute; reflexivity|].
  vm_compute. repeat split; discriminate.
Defined.

Lemma registry_entries_downloadable_witness :
  snd (Cloud.fetchCloudDict dict_host first_meta [])
    = [{| Cloud.req_url := lit "https://example.org/a.json";
          Cloud.req_method := lit "GET" |}] /\
  fst (Cloud.fetchCloudDict dict_host first_meta []) <> Thrown Cloud.MissingDownloadUrl.
Proof.
  assert (Hreg : exists metas log,
             Cloud.fetchRegistry dict_host number_of registry_url [] = (Returned metas, log) /\
             In first_meta metas).
  { eexists _, _. split; [vm_compute; reflexivity|]. left. reflexivity. }
  destruct Hreg as (metas & log & Hreg & Hin).
  destruct (registry_entries_downloadable dict_host number_of) as [Hall _].
  destruct (Hall registry_url [] metas log first_meta []
              (snd (Cloud.fetchCloudDict dict_host first_meta []))
              (fst (Cloud.fetchCloudDict dict_host first_meta [])) Hreg Hin)
    as [Hres Hlog].
  - vm_compute. reflexivity.
  - split; [exact Hlog | exact Hres].
Defined.

Lemma normalizeText_normal_form_witness :
  normalizeText (normalizeText (lit "  Hello   world ")) = lit "Hello world".
Proof.
  destruct (normalizeText_normal_form (lit "  Hello   world ")) as (_ & _ & _ & _ & _ & H).
  rewrite H. vm_compute. reflexivity.
Defined.

Lemma collectBlocks_usable_selectors_witness :
  selected selector_valid selector_matches chat_settings page 0
    = selected selector_valid selector_matches
        (with_skipSelectors [lit ".sidebar"] simple_settings) page 0.
Proof.
  destruct (collectBlocks_usable_selectors selector_valid selector_matches chat_settings
              (with_skipSelectors [lit ".sidebar"] simple_settings) page)
    as (_ & Hsel & _).
  - vm_compute. reflexivity.
  - exact (Hsel 0%nat).
Defined.


Lemma translateText_result_cached_witness :
  let s0 := snd (translateText (fetch_reply bonjour) (lit "Hello world") fresh) in
  translateText fetch_no_choice (lit "Hello world")
    (set_settings (with_apiKey [] chat_settings) s0)
  = (Returned (VStr (lit "Bonjour")), set_settings (with_apiKey [] chat_settings) s0).
Proof.
  intros s0.
  apply (translateText_result_cached (fetch_reply bonjour) (lit "Hello world") fresh).
  vm_compute. reflexivity.
Defined.

Lemma clear_removes_annotations_witness :
  ~ In 100%nat (strict_refs (document (cleared translated_state))) /\
  hasTranslations (cleared translated_state) = (Returned false, cleared translated_state).
Proof.
  destruct (clear_removes_annotations translated_state) as (Hgone & _ & Hnone & _).
  split; [|exact Hnone].
  apply (Hgone 1%nat 100%nat). vm_compute. left. reflexivity.
Defined.

Lemma applyOriginalVisibility_marks_originals_witness :
  exists s',
    applyOriginalVisibility
      (snd (updateSettings (with_hideOriginal true chat_settings) translated_state))
      = (Returned tt, s') /\
    refs (document s') = refs (document translated_state).
Proof.
  destruct (applyOriginalVisibility_marks_originals
              (snd (updateSettings (with_hideOriginal true chat_settings) translated_state)))
    as (s' & Hrun & _ & Hrefs & _).
  exists s'. split; [exact Hrun | exact Hrefs].
Defined.

Lemma translate_keeps_well_formed_witness :
  well_formed (snd (run_translate (fetch_once bonjour) fresh)).
Proof.
  apply (translate_keeps_well_formed (fetch_once bonjour) selector_valid selector_matches
           (Some 0%nat) fresh _ (fst (run_translate (fetch_once bonjour) fresh))).
  - apply well_formedb_true. vm_compute. reflexivity.
  - vm_compute. reflexivity.
Defined.

Lemma translate_then_clear_witness :
  document (cleared translated_state) = page /\
  document (cleared (snd (run_translate (fetch_once bonjour) fresh))) = page.
Proof.
  split.
  - destruct (translate_then_clear (fetch_reply bonjour) selector_valid selector_matches
                (Some 0%nat) fresh translated_state (Returned tt)) as (_ & _ & Hsame).
    + apply well_formedb_true. vm_compute. reflexivity.
    + vm_compute. reflexivity.
    + rewrite Hsame; [vm_compute; reflexivity|reflexivity|].
      intros rc Hrc. vm_compute in Hrc.
      repeat (destruct Hrc as [<-|Hrc]; [reflexivity|]). destruct Hrc.
  - destruct (translate_then_clear (fetch_once bonjour) selector_valid selector_matches
                (Some 0%nat) fresh (snd (run_translate (fetch_once bonjour) fresh))
                (Thrown EmptyTranslation)) as (_ & Hdoc & _).
    + apply well_formedb_true. vm_compute. reflexivity.
    + vm_compute. reflexivity.
    + rewrite Hdoc. vm_compute. reflexivity.
Defined.

Lemma translate_requests_configured_backend_witness :
  exists evs,
    trace translated_state = evs /\
    Forall (fun e =>
              match e with
              | BackendCalled api _ => api = openai
              | Fetched req =>
                  req_url req = lit "https://api.openai.com/v1/chat/completions" /\
                  req_authorization req = Some (lit "Bearer sk-test")
              end) evs.
Proof.
  destruct (translate_requests_configured_backend (fetch_reply bonjour) selector_valid
              selector_matches (Some 0%nat) fresh translated_state (Returned tt))
    as (evs & Htrace & Hall).
  - vm_compute. reflexivity.
  - exists evs. split; [exact Htrace|].
    eapply List.Forall_impl; [|exact Hall].
    intros [api t|req]; [auto|]. intros (Hurl & _ & _ & Hauth). split; assumption.
Defined.

Lemma translate_sends_block_texts_witness :
  exists evs,
    trace translated_state = evs /\
    Forall (fun e =>
              match e with
              | BackendCalled _ t => (2 <= length t <= 160)%nat
              | Fetched _ => True
              end) evs.
Proof.
  destruct (translate_sends_block_texts (fetch_reply bonjour) selector_valid
              selector_matches (Some 0%nat) fresh translated_state (Returned tt) 0%nat)
    as (evs & Htrace & Hall).
  - apply well_formedb_true. vm_compute. reflexivity.
  - reflexivity.
  - vm_compute. reflexivity.
  - exists evs. split; [exact Htrace|].
    eapply List.Forall_impl; [|exact Hall].
    intros [api t|req]; [|auto]. intros (_ & Hlen & _). exact Hlen.
Defined.

Lemma retranslate_issues_no_request_witness :
  exists s'',
    run_translate fetch_no_choice translated_state = (Returned tt, s'') /\
    trace s'' = trace translated_state /\
    is_Some (map_get 1 (translated s'')).
Proof.
  destruct (retranslate_issues_no_request (fetch_reply bonjour) selector_valid
              selector_matches (Some 0%nat) fresh translated_state 0%nat fetch_no_choice)
    as (s'' & Hrun & Htrace & _ & Hblocks).
  - apply well_formedb_true. vm_compute. reflexivity.
  - reflexivity.
  - reflexivity.
  - reflexivity.
  - intros rc Hrc. vm_compute in Hrc.
    repeat (destruct Hrc as [<-|Hrc]; [reflexivity|]). destruct Hrc.
  - vm_compute. reflexivity.
  - exists s''. split; [exact Hrun|]. split; [exact Htrace|].
    apply (Hblocks 1%nat). vm_compute. left. reflexivity.
Defined.

Lemma findPreviewRoot_target_witness :
  exists o,
    findPreviewRoot (new_session (Some 1%nat) chat_settings workspace 100 [])
      = (Returned o, new_session (Some 1%nat) chat_settings workspace 100 []) /\
    (o = None -> ref_of workspace = None).
Proof.
  destruct (findPreviewRoot_target (new_session (Some 1%nat) chat_settings workspace 100 []))
    as (o & Hrun & Hnone & _).
  exists o. split; [exact Hrun | exact Hnone].
Defined.

Lemma chat_reply_trimmed_witness :
  fst (translateText (fetch_reply bonjour) (lit "Hello world") fresh)
    = Returned (VStr (lit "Bonjour")) /\
  fst (translateText (fetch_reply blank) (lit "Hello world") fresh)
    = Thrown EmptyTranslation.
Proof.
  split.
  - destruct (chat_reply_trimmed (fetch_reply bonjour) fresh (lit "Hello world")
                (chat_reply bonjour)
                (VObj [(lit "choices",
                        VArr [VObj [(lit "message",
                                     VObj [(lit "content", bonjour)])]])])
                (lit " Bonjour ")) as [Hrun _].
    + reflexivity.
    + vm_compute. repeat split; discriminate.
    + vm_compute. reflexivity.
    + reflexivity.
    + vm_compute. reflexivity.
    + reflexivity.
    + vm_compute. reflexivity.
    + rewrite Hrun. vm_compute. reflexivity.
  - destruct (chat_reply_trimmed (fetch_reply blank) fresh (lit "Hello world")
                (chat_reply blank)
                (VObj [(lit "choices",
                        VArr [VObj [(lit "message",
                                     VObj [(lit "content", blank)])]])])
                (lit "   ")) as [_ Hblank].
    + reflexivity.
    + vm_compute. repeat split; discriminate.
    + vm_compute. reflexivity.
    + reflexivity.
    + vm_compute. reflexivity.
    + reflexivity.
    + vm_compute. reflexivity.
    + destruct Hblank as [Hrun _]; [|rewrite Hrun; reflexivity].
      repeat constructor.
Defined.

End Instances.

Section PluginInstances.
Import JS Eff Dom Translator Plugin Fixtures.

Lemma parse_skipSelectors_clean_witness :
  parse_skipSelectors (show_skipSelectors [lit ".sidebar"; lit "div.x > p"])
    = [lit ".sidebar"; lit "div.x > p"] /\
  (forall sel, In sel (parse_skipSelectors (lit " h1, h2 ,, ")) -> sel <> []).
Proof.
  destruct parse_skipSelectors_clean as (Hclean & Hround & _). split.
  - apply Hround. intros sel [<-|[<-|[]]];
      (split; [discriminate|]); (split; [vm_compute; reflexivity|]);
      repeat constructor; discriminate.
  - intros sel Hin. exact (proj1 (Hclean _ _ Hin)).
Defined.

Lemma translateUIWithFab_clears_witness :
  s_translated fab_session = [(1, 100); (2, 101); (6, 102); (7, 103)]%nat /\
  exists u' w',
    translateUIWithFab fetch_no_choice selector_valid selector_matches
      (fst after_fab, snd after_fab)
      = (notify TranslationsCleared (set_uiSession (Some u') (fst after_fab)), w') /\
    s_translated u' = [] /\ w_trace w' = w_trace (snd after_fab) /\
    ~ In 100%nat (strict_refs (w_document w')).
Proof.
  split; [vm_compute; reflexivity|].
  destruct (translateUIWithFab_clears fetch_no_choice selector_valid selector_matches
              (fst after_fab) (snd after_fab) fab_session 0%nat)
    as (u' & w' & Hrun & Htr & _ & _ & Htrace & _ & Hgone & _).
  - vm_compute. reflexivity.
  - vm_compute. discriminate.
  - vm_compute. reflexivity.
  - exists u', w'. split; [exact Hrun|]. split; [exact Htr|]. split; [exact Htrace|].
    apply (Hgone 1%nat 100%nat). vm_compute. left. reflexivity.
Defined.

Lemma clearActive_own_view_only_witness :
  s_translated note_session = [(4, 100)]%nat /\
  clearActive (Some 5%nat) (fst after_command, snd after_command)
    = (set_session (Some (new_TranslationSession (Some 5%nat) chat_settings))
         (fst after_command), snd after_command) /\
  In 100%nat (strict_refs (w_document (snd (clearActive (Some 5%nat) (fst after_command, snd after_command))))) /\
  ~ In 100%nat (strict_refs (w_document (snd (clearActive (Some 1%nat) (fst after_command, snd after_command))))).
Proof.
  split; [vm_compute; reflexivity|].
  destruct (clearActive_own_view_only (fst after_command) (snd after_command)
              note_session 1%nat) as (Hsame & _).
  { vm_compute. reflexivity. }
  destruct (clearActive_own_view_only (fst after_command) (snd after_command)
              note_session 5%nat) as (_ & Hother & _).
  { vm_compute. reflexivity. }
  assert (Hrun : clearActive (Some 5%nat) (fst after_command, snd after_command)
                 = (set_session (Some (new_TranslationSession (Some 5%nat) chat_settings))
                      (fst after_command), snd after_command)).
  { apply Hother. vm_compute. discriminate. }
  split; [exact Hrun|]. split.
  - rewrite Hrun. vm_compute. auto 10.
  - destruct Hsame as (x' & w' & Hclear & _ & _ & _ & _ & Hgone);
      [vm_compute; reflexivity|].
    unfold ref in *. rewrite Hclear. apply (Hgone 4%nat 100%nat). vm_compute. left. reflexivity.
Defined.

Lemma toggleOriginal_flips_witness :
  exists p' w',
    toggleOriginal (fst after_command, snd after_command) = (p', w') /\
    hideOriginal (p_settings p') = true /\
    notices p' = [OriginalHidden] /\
    p_settings (fst (toggleOriginal (p', w'))) = chat_settings.
Proof.
  destruct (toggleOriginal_flips (fst after_command) (snd after_command))
    as (p' & w' & Hrun & Hst & _ & Hn & _ & _ & _ & _ & _ & Hback).
  exists p', w'. split; [exact Hrun|]. split; [rewrite Hst; vm_compute; reflexivity|].
  split; [rewrite Hn; vm_compute; reflexivity|].
  rewrite Hback. vm_compute. reflexivity.
Defined.


End PluginInstances.

Section RunInstances.
Import JS Eff Dom Translator Templates Siblings Fixtures.

Lemma fillTemplate_literal_witness :
  fillTemplate chat_settings (lit "Translate {text} from {from} to {to}") (lit "Hello world")
    = lit "Translate Hello world from en to zh".
Proof.
  rewrite fillTemplate_literal.
  - vm_compute. reflexivity.
  - vm_compute.
    repeat first [ apply plain_end
                 | apply (plain_text _)
                 | apply (plain_from _)
                 | apply (plain_to _)
                 | apply plain_unit; [discriminate|] ].
  - vm_compute. intuition discriminate.
  - vm_compute. intuition discriminate.
  - vm_compute. intuition discriminate.
  - vm_compute. intuition discriminate.
  - vm_compute. intuition discriminate.
Defined.

Lemma translate_applies_visibility_witness :
  exists el v,
    subtree 1%nat (document hidden_state) = Some el /\
    has_class HIDE_ORIGINAL_CLASS el = true /\
    subtree 100%nat (document hidden_state) = Some (annotation 100 v).
Proof.
  destruct (translate_applies_visibility (fetch_reply bonjour) selector_valid
              selector_matches (Some 0%nat)
              (new_session None (with_hideOriginal true chat_settings) page 100 [])
              hidden_state 0%nat 1%nat 100%nat)
    as (_ & el & v & Hel & Hclass & _ & Hann & _).
  - apply well_formedb_true. vm_compute. reflexivity.
  - reflexivity.
  - vm_compute. reflexivity.
  - vm_compute. left. reflexivity.
  - exists el, v. split; [exact Hel|]. split; [exact Hclass|exact Hann].
Defined.

Lemma annotation_follows_original_witness :
  exists v,
    nextSibling 2%nat (document translated_state) = Some (annotation 101 v) /\
    innerText (annotation 101 v) = ToString v.
Proof.
  destruct (annotation_follows_original (fetch_reply bonjour) selector_valid
              selector_matches (Some 0%nat) fresh translated_state 0%nat 2%nat 101%nat)
    as (v & Hsib & _ & Htext & _).
  - apply well_formedb_true. vm_compute. reflexivity.
  - reflexivity.
  - vm_compute. reflexivity.
  - vm_compute. right. left. reflexivity.
  - exists v. split; [exact Hsib|exact Htext].
Defined.

End RunInstances.

Section MappingInstances.
Import JS Eff Dom Translator Plugin Fixtures.

Lemma translate_tracks_blocks_witness :
  translated translated_state = [(1, 100); (2, 101); (6, 102); (7, 103)]%nat /\
  hasTranslations translated_state = (Returned true, translated_state).
Proof.
  destruct (translate_tracks_blocks (fetch_reply bonjour) selector_valid selector_matches
              (Some 0%nat) fresh translated_state 0%nat)
    as (Hpairs & _ & _ & Hhas).
  - apply well_formedb_true. vm_compute. reflexivity.
  - reflexivity.
  - vm_compute. reflexivity.
  - split.
    + rewrite Hpairs. vm_compute. reflexivity.
    + rewrite Hhas. vm_compute. reflexivity.
Defined.

Lemma commands_use_current_settings_witness :
  exists evs,
    w_trace (snd after_fab) = evs /\ Forall (made_for chat_settings) evs.
Proof.
  destruct (commands_use_current_settings (fetch_reply bonjour) selector_valid
              selector_matches plugin0 (world_of_page page) None)
    as [_ (evs & Htrace & Hall)].
  exists evs. split; [exact Htrace|exact Hall].
Defined.

End MappingInstances.

Section ErrorInstances.
Import JS Eff Dom Translator Diagnosis Fixtures.

Lemma translate_error_cause_witness :
  apiType (settings keyless) = openai /\ apiKey (settings keyless) = [].
Proof.
  apply (translate_error_cause fetch_no_choice selector_valid selector_matches
           (Some 0%nat) keyless (snd (run_translate fetch_no_choice keyless)) ChatNoKey).
  vm_compute. reflexivity.
Defined.

End ErrorInstances.

Section SimpleInstances.
Import JS Eff Dom Translator Fixtures.

Lemma simple_reply_as_is_witness :
  fst (translateText fetch_simple (lit "Hello world")
         (new_session None simple_settings page 100 []))
    = Returned (VStr (lit "Hola mundo")).
Proof.
  destruct (simple_reply_as_is fetch_simple (new_session None simple_settings page 100 [])
              (lit "Hello world")
              {| status := 200; body_text := [];
                 body_json := Some (VObj [(lit "translatedText",
                                           VStr (lit "Hola mundo"))]) |}
              (VObj [(lit "translatedText", VStr (lit "Hola mundo"))]))
    as (Hstring & _).
  - reflexivity.
  - vm_compute. discriminate.
  - vm_compute. reflexivity.
  - vm_compute. reflexivity.
  - vm_compute. reflexivity.
  - reflexivity.
  - rewrite (Hstring (lit "Hola mundo")); [reflexivity|vm_compute; reflexivity].
Defined.

End SimpleInstances.
